(** * A grammar-driven PEG parser: json_parser.py

    The development follows lesson3/homework/json_parser.py: the [memo]
    decorator, the grammar compiler ([split], [grammar]), the interpreter
    ([parse] with its inner [parse_sequence] and the memoized [parse_atom])
    and the JSON fixture ([json_description], [JSON], [json_parse]).

    Python values are modelled by [pyval]; a Python [str] is a Rocq [string]
    (a sequence of code points below 256).  Calls return an [outcome]: a
    value, a raised exception, or [OutOfFuel] when the recursion is deeper
    than the bound given to the interpreter. *)

From Stdlib Require Import Ascii String ZArith.
From stdpp Require Import base option list strings countable gmap.

Set Warnings "-register-all".

Local Open Scope string_scope.
Local Open Scope Z_scope.
Local Open Scope list_scope.

(** ** Outcomes of Python calls *)

Inductive exn : Set :=
| KeyError        (* a dict has no such key *)
| TypeError       (* unhashable key, wrong arity, wrong operand type *)
| ValueError      (* unpacking a sequence of the wrong length, bad format *)
| IndexError      (* a group that the pattern of a match does not have *)
| ReError         (* re.error: the pattern does not compile *)
| NotModelled.    (* a builtin applied outside the fragment modelled here *)

Inductive outcome (A : Type) : Type :=
| Ret (a : A)
| Raise (e : exn)
| OutOfFuel.

Arguments Ret {A} a.
Arguments Raise {A} e.
Arguments OutOfFuel {A}.

Definition obind {A B} (x : outcome A) (k : A → outcome B) : outcome B :=
  match x with
  | Ret a => k a
  | Raise e => Raise e
  | OutOfFuel => OutOfFuel
  end.

Notation "x ←! e1 ;; e2" := (obind e1 (λ x, e2))
  (at level 100, e1 at next level, e2 at level 200, right associativity).

(** [map(f, xs)] forced by [tuple]: stops at the first call that raises. *)
Fixpoint omap {A B} (f : A → outcome B) (xs : list A) : outcome (list B) :=
  match xs with
  | [] => Ret []
  | x :: xs' => y ←! f x ;; ys ←! omap f xs' ;; Ret (y :: ys)
  end.

(** ** Python values *)

Inductive pyval : Type :=
| PNone
| PStr (s : string)
| PList (l : list pyval)
| PTuple (l : list pyval).

(** Whether a value can be a dict key: lists cannot, a tuple can when all
    its items can. *)
Fixpoint hashable (v : pyval) : bool :=
  match v with
  | PNone | PStr _ => true
  | PList _ => false
  | PTuple l => forallb hashable l
  end.

Definition is_none (v : pyval) : bool :=
  match v with PNone => true | _ => false end.

(** ** String builtins *)

Module Str.

(** [str.isspace] on one character, for code points below 256. *)
Definition isspace (c : ascii) : bool :=
  let n := nat_of_ascii c in
  ((9 <=? n) && (n <=? 13) || (28 <=? n) && (n <=? 32)
   || (n =? 133) || (n =? 160))%nat.

Fixpoint lstrip (s : string) : string :=
  match s with
  | String c s' => if isspace c then lstrip s' else s
  | EmptyString => EmptyString
  end.

Fixpoint rstrip (s : string) : string :=
  match s with
  | String c s' =>
      match rstrip s' with
      | EmptyString => if isspace c then EmptyString else String c EmptyString
      | r => String c r
      end
  | EmptyString => EmptyString
  end.

(** [s.strip()] *)
Definition strip (s : string) : string := rstrip (lstrip s).

(** [s.replace(old, new)] for one-character [old] and [new]. *)
Fixpoint replace_char (old new : ascii) (s : string) : string :=
  match s with
  | String c s' =>
      String (if Ascii.eqb c old then new else c) (replace_char old new s')
  | EmptyString => EmptyString
  end.

(** [s.startswith(p)] *)
Fixpoint startswith (p s : string) : bool :=
  match p, s with
  | EmptyString, _ => true
  | String a p', String b s' => Ascii.eqb a b && startswith p' s'
  | String _ _, EmptyString => false
  end.

(** [s[n:]] *)
Fixpoint drop (n : nat) (s : string) : string :=
  match n, s with
  | O, _ => s
  | S n', String _ s' => drop n' s'
  | S _, EmptyString => EmptyString
  end.

(** [s.split(sep, maxsplit)] for a non-empty [sep]: cut at each
    occurrence of [sep], scanning left to right, at most [maxsplit] times
    (no limit when [maxsplit] is negative).  [cur] is the piece being
    read, [skip] counts the characters of a separator still to pass. *)
Fixpoint split_sep_go (sep : string) (maxsplit : Z) (cur : string)
    (skip : nat) (s : string) : list string :=
  match s with
  | EmptyString => [cur]
  | String c s' =>
      match skip with
      | S k => split_sep_go sep maxsplit cur k s'
      | O =>
          if negb (maxsplit =? 0) && startswith sep s
          then cur :: split_sep_go sep (maxsplit - 1) EmptyString
                        (Nat.pred (String.length sep)) s'
          else split_sep_go sep maxsplit (cur +:+ String c EmptyString) O s'
      end
  end.

Definition split_sep (sep : string) (maxsplit : Z) (s : string) : list string :=
  split_sep_go sep maxsplit EmptyString O s.

(** [s.split(None, maxsplit)]: pieces are maximal runs of non-space
    characters; after [maxsplit] cuts the rest of the string, without its
    leading and trailing white space, is the last piece. *)
Fixpoint split_ws_go (maxsplit : Z) (cur : string) (s : string) : list string :=
  match s with
  | EmptyString =>
      match cur with EmptyString => [] | _ => [cur] end
  | String c s' =>
      match cur with
      | EmptyString =>
          if isspace c then split_ws_go maxsplit EmptyString s'
          else if maxsplit =? 0 then [rstrip s]
          else split_ws_go maxsplit (String c EmptyString) s'
      | _ =>
          if isspace c then cur :: split_ws_go (maxsplit - 1) EmptyString s'
          else split_ws_go maxsplit (cur +:+ String c EmptyString) s'
      end
  end.

Definition split_ws (maxsplit : Z) (s : string) : list string :=
  split_ws_go maxsplit EmptyString s.

(** [s.split(sep, maxsplit)] with [sep] possibly [None]; an empty
    separator raises ValueError. *)
Definition split (sep : option string) (maxsplit : Z) (s : string)
    : outcome (list string) :=
  match sep with
  | None => Ret (split_ws maxsplit s)
  | Some EmptyString => Raise ValueError
  | Some sep => Ret (split_sep sep maxsplit s)
  end.

Definition nonempty (s : string) : bool :=
  match s with EmptyString => false | _ => true end.

End Str.

(** ** The grammar compiler *)

(** [split(text, sep=None, maxsplit=-1)]:
    [[t.strip() for t in text.strip().split(sep, maxsplit) if t]] *)
Definition split (text : string) (sep : option string) (maxsplit : Z)
    : outcome (list string) :=
  pieces ←! Str.split sep maxsplit (Str.strip text) ;;
  Ret (map Str.strip (filter (λ t, Is_true (Str.nonempty t)) pieces)).

(** A value of the grammar dict: the white-space pattern under the key
    [" "], a tuple of alternatives (each a list of atoms) under a symbol. *)
Inductive entry : Type :=
| Pattern (whitespace : string)
| Alternatives (alts : list (list string)).

Abbreviation Grammar := (gmap string entry).

Definition tab : ascii := ascii_of_nat 9.
Definition newline : string := String (ascii_of_nat 10) EmptyString.

(** The body of the [for line in ...] loop of [grammar], from the dict [G]
    built so far. *)
Fixpoint grammar_lines (lines : list string) (G : Grammar) : outcome Grammar :=
  match lines with
  | [] => Ret G
  | line :: rest =>
      pieces ←! split line (Some " => ") 1 ;;
      match pieces with
      | [lhs; rhs] =>
          alternatives ←! split rhs (Some " | ") (-1) ;;
          alts ←! omap (λ a, split a None (-1)) alternatives ;;
          grammar_lines rest (<[lhs := Alternatives alts]> G)
      | _ => Raise ValueError      (* lhs, rhs = ... does not unpack *)
      end
  end.

Definition default_whitespace : string := "\s*".

(** [grammar(description, whitespace)] *)
Definition grammar (description : string) (whitespace : string) : outcome Grammar :=
  let G : Grammar := {[ " " := Pattern whitespace ]} in
  let description := Str.replace_char tab " "%char description in
  lines ←! split description (Some newline) (-1) ;;
  grammar_lines lines G.

(** ** Values as dict keys *)

Section pyval_ind.
Variable P : pyval → Prop.
Hypothesis HNone : P PNone.
Hypothesis HStr : ∀ s, P (PStr s).
Hypothesis HList : ∀ l, Forall P l → P (PList l).
Hypothesis HTuple : ∀ l, Forall P l → P (PTuple l).

Fixpoint pyval_nested_ind (v : pyval) : P v :=
  let fix go (l : list pyval) : Forall P l :=
    match l with
    | [] => Forall_nil_2 P
    | x :: l' => Forall_cons_2 P x l' (pyval_nested_ind x) (go l')
    end in
  match v with
  | PNone => HNone
  | PStr s => HStr s
  | PList l => HList l (go l)
  | PTuple l => HTuple l (go l)
  end.
End pyval_ind.

Fixpoint pyval_encode (v : pyval) : gen_tree string :=
  match v with
  | PNone => GenNode 0 []
  | PStr s => GenLeaf s
  | PList l => GenNode 1 (map pyval_encode l)
  | PTuple l => GenNode 2 (map pyval_encode l)
  end.

Fixpoint pyval_decode (t : gen_tree string) : pyval :=
  match t with
  | GenLeaf s => PStr s
  | GenNode 1 ts => PList (map pyval_decode ts)
  | GenNode 2 ts => PTuple (map pyval_decode ts)
  | GenNode _ _ => PNone
  end.

Lemma pyval_decode_encode v : pyval_decode (pyval_encode v) = v.
Proof.
  induction v as [| s | l IH | l IH] using pyval_nested_ind; simpl; try done.
  - f_equal. induction IH as [| x l Hx _ IHl]; simpl; [done|]. by rewrite Hx, IHl.
  - f_equal. induction IH as [| x l Hx _ IHl]; simpl; [done|]. by rewrite Hx, IHl.
Qed.

#[global] Instance pyval_eq_dec : EqDecision pyval.
Proof.
  intros x y. destruct (decide (pyval_encode x = pyval_encode y)) as [E|E].
  - left. rewrite <-(pyval_decode_encode x), <-(pyval_decode_encode y).
    by rewrite E.
  - right. by intros ->.
Defined.

#[global] Instance pyval_countable : Countable pyval.
Proof.
  apply (inj_countable' pyval_encode pyval_decode), pyval_decode_encode.
Defined.

(** ** Builtins the interpreter calls *)

(** What a match found: the text of group 1, [None] when the first group
    took no part in the match, and the offset [m.end()]. *)
Record Match : Type := { group1 : option string; m_end : nat }.

(** The library functions used by [parse]: [re.compile] with the number
    of groups [groups] and the [match] method of a compiled pattern, and
    the [%] operator of [str].  The interpreter is verified for any
    implementation of them; [Model] below gives one to compute with. *)
Class Builtins : Type := {
  regex : Type;
  re_compile : string → outcome regex;
  regex_groups : regex → nat;
  regex_match : regex → string → option Match;
  str_mod : string → pyval → outcome string
}.

(** A (tree, remainder) pair. *)
Definition ParseResult : Type := pyval * pyval.

(** The dict [cache] of [memo], keyed by the tuple of arguments. *)
Abbreviation Cache := (gmap (list pyval) ParseResult).

Section Interpreter.
Context `{Builtins}.

(** [re.match(pattern, text)]: the pattern is compiled first, then matched
    at the start of [text], which must be a [str].  A match object [m] is
    the pattern [m.re] with what the match found. *)
Definition re_match (pattern : string) (text : pyval)
    : outcome (option (regex * Match)) :=
  r ←! re_compile pattern ;;
  match text with
  | PStr s => Ret (pair r <$> regex_match r s)
  | _ => Raise TypeError
  end.

(** [m.group(1)]: IndexError (no such group) when the pattern of [m] has
    no group; with a group, its text, or [None] when the group took no
    part in the match. *)
Definition group (m : regex * Match) : outcome pyval :=
  match regex_groups m.1 with
  | O => Raise IndexError
  | S _ => Ret (match group1 m.2 with Some s => PStr s | None => PNone end)
  end.

(** [text[n:]] *)
Definition slice_from (text : pyval) (n : nat) : outcome pyval :=
  match text with
  | PStr s => Ret (PStr (Str.drop n s))
  | PList l => Ret (PList (drop n l))
  | PTuple l => Ret (PTuple (drop n l))
  | PNone => Raise TypeError
  end.

(** *** Calls that share the memo table *)

Definition M (A : Type) : Type := Cache → outcome A * Cache.

Definition mret {A} (a : A) : M A := λ cache, (Ret a, cache).
Definition mraise {A} (e : exn) : M A := λ cache, (Raise e, cache).
Definition mlift {A} (o : outcome A) : M A := λ cache, (o, cache).
Definition mbind {A B} (x : M A) (k : A → M B) : M B := λ cache,
  match x cache with
  | (Ret a, cache') => k a cache'
  | (Raise e, cache') => (Raise e, cache')
  | (OutOfFuel, cache') => (OutOfFuel, cache')
  end.

(** *** memo *)

(** The wrapper [_f] that [memo] returns for [f], called with the
    positional arguments [args].  A function is given by what it does on
    its list of positional arguments: the call of [f] with [args]
    unpacked is [f args], the call [f(args)] with the one tuple is
    [f [PTuple args]]. *)
Definition memo (f : list pyval → M ParseResult) (args : list pyval) : M ParseResult :=
  λ cache,
    if hashable (PTuple args) then
      match cache !! args with
      | Some result => (Ret result, cache)           (* return cache[args] *)
      | None =>                                       (* except KeyError *)
          match f args cache with
          | (Ret result, cache') => (Ret result, <[args := result]> cache')
          | raised => raised
          end
      end
    else f [PTuple args] cache.                       (* except TypeError *)

(** The function left as it is: [parse_atom] without [@memo]. *)
Definition undecorated (f : list pyval → M ParseResult) : list pyval → M ParseResult := f.

(** *** parse *)

Definition Fail : ParseResult := (PNone, PNone).

Section parse.
Variable grammar : Grammar.
Variable tokenizer : string.

(** The loop of [parse_sequence], with the list [result] built so far;
    [parse_atom] is the function the name is bound to in [parse]. *)
Fixpoint parse_sequence_loop (parse_atom : list pyval → M ParseResult)
    (sequence : list string) (text : pyval) (result : list pyval) : M ParseResult :=
  match sequence with
  | [] => mret (PList result, text)
  | atom :: sequence' =>
      mbind (parse_atom [PStr atom; text]) (λ '(tree, text),
        if is_none text then mret Fail
        else parse_sequence_loop parse_atom sequence' text (result ++ [tree]))
  end.

Definition parse_sequence (parse_atom : list pyval → M ParseResult)
    (sequence : list string) (text : pyval) : M ParseResult :=
  parse_sequence_loop parse_atom sequence text [].

(** [atom in grammar]: hashing the atom comes first; the keys of a
    grammar are strings. *)
Definition in_grammar (atom : pyval) : outcome (option entry) :=
  if hashable atom
  then Ret (match atom with PStr a => grammar !! a | _ => None end)
  else Raise TypeError.

(** What [for alternative in grammar[atom]] runs through; under the key
    [" "] the value is a string, whose items are its characters, each
    in turn a sequence of one atom. *)
Definition alternatives_of (e : entry) : list (list string) :=
  match e with
  | Alternatives alts => alts
  | Pattern s => map (λ c, [String c EmptyString]) (list_ascii_of_string s)
  end.

(** [[atom] + tree] *)
Definition cons_tree (atom tree : pyval) : outcome pyval :=
  match tree with
  | PList children => Ret (PList (atom :: children))
  | _ => Raise TypeError
  end.

(** The loop over the alternatives of a non-terminal. *)
Fixpoint try_alternatives (parse_atom : list pyval → M ParseResult)
    (atom text : pyval) (alternatives : list (list string)) : M ParseResult :=
  match alternatives with
  | [] => mret Fail
  | alternative :: alternatives' =>
      mbind (parse_sequence parse_atom alternative text) (λ '(tree, rem),
        if negb (is_none rem)
        then mbind (mlift (cons_tree atom tree)) (λ t, mret (t, rem))
        else try_alternatives parse_atom atom text alternatives')
  end.

(** The terminal branch; of the pair, [m.group(1)] is evaluated first. *)
Definition match_terminal (atom text : pyval) : outcome ParseResult :=
  pattern ←! str_mod tokenizer atom ;;
  m ←! re_match pattern text ;;
  match m with
  | None => Ret Fail
  | Some m =>
      tree ←! group m ;; rem ←! slice_from text (m_end m.2) ;; Ret (tree, rem)
  end.

(** The body of [parse_atom(atom, text)], applied to its positional
    arguments; any other number of arguments is a TypeError. *)
Definition parse_atom_body (parse_atom : list pyval → M ParseResult)
    (args : list pyval) : M ParseResult :=
  match args with
  | [atom; text] =>
      mbind (mlift (in_grammar atom)) (λ e,
        match e with
        | Some e => try_alternatives parse_atom atom text (alternatives_of e)
        | None => mlift (match_terminal atom text)
        end)
  | _ => mraise TypeError
  end.

(** [parse_atom] as decorated by [deco]; [fuel] bounds the depth of the
    recursion through [parse_sequence]. *)
Fixpoint parse_atom_with
    (deco : (list pyval → M ParseResult) → list pyval → M ParseResult)
    (fuel : nat) : list pyval → M ParseResult :=
  match fuel with
  | O => λ _ cache, (OutOfFuel, cache)
  | S fuel' => deco (parse_atom_body (parse_atom_with deco fuel'))
  end.

(** [@memo def parse_atom(atom, text)] *)
Definition parse_atom : nat → list pyval → M ParseResult := parse_atom_with memo.

End parse.

(** [parse(start_symbol, text, grammar)] with [parse_atom] decorated by
    [deco]: the memo table is created empty by the decoration, once per
    call of [parse]. *)
Definition parse_with (deco : (list pyval → M ParseResult) → list pyval → M ParseResult)
    (fuel : nat) (start_symbol text : pyval) (grammar : Grammar)
    : outcome ParseResult :=
  match grammar !! " " with
  | None => Raise KeyError
  | Some (Alternatives _) => Raise TypeError          (* tuple + str *)
  | Some (Pattern whitespace) =>
      let tokenizer := whitespace +:+ "(%s)" in
      (parse_atom_with grammar tokenizer deco fuel [start_symbol; text] ∅).1
  end.

Definition parse : nat → pyval → pyval → Grammar → outcome ParseResult :=
  parse_with memo.

(** [parse] with the decorator taken off [parse_atom]. *)
Definition parse_undecorated : nat → pyval → pyval → Grammar → outcome ParseResult :=
  parse_with undecorated.

End Interpreter.

(** ** A model of the builtins

    A backtracking matcher for the fragment of Python's regular
    expressions made of literals, [.], escapes, character sets, groups,
    [|] and the greedy [*], [+], [?]; and [%] formatting with the
    conversions [%s] and [%%].  Anything else that Python accepts is
    answered by [Raise NotModelled]. *)

Module Model.

Inductive category : Set := Space | Digit | Word.

Inductive item : Set :=
| Lit (c : ascii)
| Range (lo hi : ascii)
| Category (k : category) (negated : bool).

Inductive re : Set :=
| Eps
| Chars (negated : bool) (items : list item)
| Seq (r1 r2 : re)
| Alt (r1 r2 : re)
| Repeat (lo : nat) (hi : option nat) (r : re)
| Group (n : nat) (r : re).

Definition code (c : ascii) : nat := nat_of_ascii c.

Definition between (lo hi n : nat) : bool := ((lo <=? n) && (n <=? hi))%nat.

Definition isdigit (c : ascii) : bool := between 48 57 (code c).

Definition isletter (c : ascii) : bool :=
  between 65 90 (code c) || between 97 122 (code c).

(** What [\w] matches in a [str] pattern, below code point 256. *)
Definition isword (c : ascii) : bool :=
  let n := code c in
  isdigit c || isletter c || (n =? 95)%nat
  || (n =? 170)%nat || between 178 179 n || (n =? 181)%nat
  || between 185 186 n || between 188 190 n
  || between 192 214 n || between 216 246 n || between 248 255 n.

Definition in_category (k : category) (c : ascii) : bool :=
  match k with
  | Space => Str.isspace c
  | Digit => isdigit c
  | Word => isword c
  end.

Definition in_item (c : ascii) (i : item) : bool :=
  match i with
  | Lit d => Ascii.eqb c d
  | Range lo hi => between (code lo) (code hi) (code c)
  | Category k negated => xorb negated (in_category k c)
  end.

(** *** Compiling a pattern *)

Definition chr (n : nat) : ascii := ascii_of_nat n.

(** The character after a backslash; [in_set] inside [[...]]. *)
Definition escape (in_set : bool) (c : ascii) : outcome item :=
  if Ascii.eqb c "s" then Ret (Category Space false)
  else if Ascii.eqb c "S" then Ret (Category Space true)
  else if Ascii.eqb c "d" then Ret (Category Digit false)
  else if Ascii.eqb c "D" then Ret (Category Digit true)
  else if Ascii.eqb c "w" then Ret (Category Word false)
  else if Ascii.eqb c "W" then Ret (Category Word true)
  else if Ascii.eqb c "n" then Ret (Lit (chr 10))
  else if Ascii.eqb c "t" then Ret (Lit (chr 9))
  else if Ascii.eqb c "r" then Ret (Lit (chr 13))
  else if Ascii.eqb c "f" then Ret (Lit (chr 12))
  else if Ascii.eqb c "v" then Ret (Lit (chr 11))
  else if Ascii.eqb c "a" then Ret (Lit (chr 7))
  else if Ascii.eqb c "b" then
    (if in_set then Ret (Lit (chr 8)) else Raise NotModelled)
  else if isdigit c then Raise NotModelled
  else if Ascii.eqb c "A" || Ascii.eqb c "Z" || Ascii.eqb c "B"
          || Ascii.eqb c "x" || Ascii.eqb c "u" || Ascii.eqb c "U"
          || Ascii.eqb c "N" then Raise NotModelled
  else if isletter c then Raise ReError
  else Ret (Lit c).

(** One member of a set, read from the front of [s]. *)
Definition set_member (s : list ascii) : outcome (item * list ascii) :=
  match s with
  | [] => Raise ReError
  | c :: s' =>
      if Ascii.eqb c "\" then
        match s' with
        | [] => Raise ReError
        | e :: s'' => i ←! escape true e ;; Ret (i, s'')
        end
      else Ret (Lit c, s')
  end.

(** The members of a set up to its closing bracket; [acc] holds the
    members read so far, a bracket closes the set once there is one. *)
Fixpoint set_members (fuel : nat) (acc : list item) (s : list ascii)
    : outcome (list item * list ascii) :=
  match fuel with
  | O => OutOfFuel
  | S fuel' =>
      match s, acc with
      | [], _ => Raise ReError
      | c :: s', _ :: _ =>
          if Ascii.eqb c "]" then Ret (acc, s') else set_range fuel' acc s
      | _, [] => set_range fuel' acc s
      end
  end
with set_range (fuel : nat) (acc : list item) (s : list ascii)
    : outcome (list item * list ascii) :=
  match fuel with
  | O => OutOfFuel
  | S fuel' =>
      p ←! set_member s ;; let '(lo, s1) := p in
      match s1 with
      | d :: s2 =>
          if Ascii.eqb d "-" then
            match s2 with
            | [] => Raise ReError
            | c :: s3 =>
                if Ascii.eqb c "]" then Ret ((acc ++ [lo; Lit "-"])%list, s3)
                else
                  p ←! set_member s2 ;; let '(hi, s4) := p in
                  match lo, hi with
                  | Lit a, Lit b =>
                      if (code a <=? code b)%nat
                      then set_members fuel' (acc ++ [Range a b]) s4
                      else Raise ReError
                  | _, _ => Raise ReError
                  end
            end
          else set_members fuel' (acc ++ [lo]) s1
      | [] => set_members fuel' (acc ++ [lo]) s1
      end
  end.

(** A set, read after its opening bracket. *)
Definition set_ (s : list ascii) : outcome (re * list ascii) :=
  let '(negated, s) :=
    match s with
    | c :: s' => if Ascii.eqb c "^" then (true, s') else (false, s)
    | [] => (false, s)
    end in
  p ←! set_members (2 * length s + 2) [] s ;; let '(items, rest) := p in
  Ret (Chars negated items, rest).

Definition is_quantifier (c : ascii) : bool :=
  Ascii.eqb c "*" || Ascii.eqb c "+" || Ascii.eqb c "?".

(** A quantifier after the item [r], if there is one. *)
Definition quantified (r : re) (s : list ascii) : outcome (re * list ascii) :=
  match s with
  | q :: s' =>
      if is_quantifier q then
        let r' := if Ascii.eqb q "*" then Repeat 0 None r
                  else if Ascii.eqb q "+" then Repeat 1 None r
                  else Repeat 0 (Some 1%nat) r in
        match s' with
        | q' :: _ =>
            if Ascii.eqb q' "*" then Raise ReError       (* multiple repeat *)
            else if Ascii.eqb q' "?" || Ascii.eqb q' "+" || Ascii.eqb q' "{"
            then Raise NotModelled        (* lazy, possessive, counted *)
            else Ret (r', s')
        | [] => Ret (r', s')
        end
      else if Ascii.eqb q "{" then Raise NotModelled
      else Ret (r, s)
  | [] => Ret (r, s)
  end.

(** Alternatives, sequences and items; [n] is the number of groups
    opened so far. *)
Fixpoint alternation (fuel : nat) (n : nat) (s : list ascii)
    : outcome (re * nat * list ascii) :=
  match fuel with
  | O => OutOfFuel
  | S fuel' =>
      p ←! sequence fuel' n s ;; let '(r1, n1, s1) := p in
      match s1 with
      | c :: s2 =>
          if Ascii.eqb c "|" then
            p ←! alternation fuel' n1 s2 ;; let '(r2, n2, s3) := p in
            Ret (Alt r1 r2, n2, s3)
          else Ret (r1, n1, s1)
      | [] => Ret (r1, n1, s1)
      end
  end
with sequence (fuel : nat) (n : nat) (s : list ascii)
    : outcome (re * nat * list ascii) :=
  match fuel with
  | O => OutOfFuel
  | S fuel' =>
      match s with
      | [] => Ret (Eps, n, s)
      | c :: s' =>
          if Ascii.eqb c "|" || Ascii.eqb c ")" then Ret (Eps, n, s)
          else
            p ←! single fuel' n s ;; let '(r1, n1, s1) := p in
            p ←! sequence fuel' n1 s1 ;; let '(r2, n2, s2) := p in
            Ret (Seq r1 r2, n2, s2)
      end
  end
with single (fuel : nat) (n : nat) (s : list ascii)
    : outcome (re * nat * list ascii) :=
  match fuel with
  | O => OutOfFuel
  | S fuel' =>
      match s with
      | [] => Raise ReError
      | c :: s' =>
          if is_quantifier c then Raise ReError           (* nothing to repeat *)
          else if Ascii.eqb c "^" || Ascii.eqb c "$" || Ascii.eqb c "{"
          then Raise NotModelled
          else if Ascii.eqb c "(" then
            match s' with
            | "?"%char :: ":"%char :: s'' =>
                p ←! alternation fuel' n s'' ;; let '(r, n1, s1) := p in
                match s1 with
                | ")"%char :: s2 =>
                    p ←! quantified r s2 ;; let '(r', s3) := p in Ret (r', n1, s3)
                | _ => Raise ReError    (* missing ), unterminated subpattern *)
                end
            | "?"%char :: _ => Raise NotModelled
            | _ =>
                p ←! alternation fuel' (S n) s' ;; let '(r, n1, s1) := p in
                match s1 with
                | ")"%char :: s2 =>
                    p ←! quantified (Group (S n) r) s2 ;; let '(r', s3) := p in Ret (r', n1, s3)
                | _ => Raise ReError
                end
            end
          else if Ascii.eqb c "[" then
            p ←! set_ s' ;; let '(r, s1) := p in
            p ←! quantified r s1 ;; let '(r', s2) := p in Ret (r', n, s2)
          else if Ascii.eqb c "\" then
            match s' with
            | [] => Raise ReError                  (* bad escape (end of pattern) *)
            | e :: s'' =>
                i ←! escape false e ;;
                p ←! quantified (Chars false [i]) s'' ;; let '(r', s1) := p in Ret (r', n, s1)
            end
          else if Ascii.eqb c "." then
            p ←! quantified (Chars true [Lit (chr 10)]) s' ;; let '(r', s1) := p in Ret (r', n, s1)
          else
            p ←! quantified (Chars false [Lit c]) s' ;; let '(r', s1) := p in Ret (r', n, s1)
      end
  end.

(** [re.compile(pattern)] *)
Definition compile (pattern : string) : outcome re :=
  let s := list_ascii_of_string pattern in
  p ←! alternation (3 * length s + 3) 0 s ;; let '(r, _, rest) := p in
  match rest with
  | [] => Ret r
  | _ => Raise ReError                              (* unbalanced parenthesis *)
  end.

(** *** Matching *)

(** The text of each group, the latest first. *)
Definition captures : Set := list (nat * string).

Definition continuation : Set :=
  list ascii → nat → captures → option (nat * captures).

(** [exec r s pos cs k]: match [r] at the front of [s], which starts at
    offset [pos], then go on with [k]; the first success in the order of
    Python's backtracking.  An iteration of a repeat that consumes
    nothing ends the repeat. *)
Fixpoint exec (r : re) (s : list ascii) (pos : nat) (cs : captures)
    (k : continuation) : option (nat * captures) :=
  match r with
  | Eps => k s pos cs
  | Chars negated items =>
      match s with
      | c :: s' =>
          if xorb negated (existsb (in_item c) items) then k s' (S pos) cs else None
      | [] => None
      end
  | Seq r1 r2 => exec r1 s pos cs (λ s' pos' cs', exec r2 s' pos' cs' k)
  | Alt r1 r2 =>
      match exec r1 s pos cs k with
      | Some m => Some m
      | None => exec r2 s pos cs k
      end
  | Repeat lo hi r1 =>
      (fix iterate (fuel count : nat) (s : list ascii) (pos : nat) (cs : captures)
         : option (nat * captures) :=
         match fuel with
         | O => k s pos cs
         | S fuel' =>
             if (count <? lo)%nat then
               exec r1 s pos cs (λ s' pos' cs', iterate fuel' (S count) s' pos' cs')
             else if match hi with Some h => (h <=? count)%nat | None => false end
             then k s pos cs
             else
               match exec r1 s pos cs (λ s' pos' cs',
                       if (pos' =? pos)%nat then k s' pos' cs'
                       else iterate fuel' (S count) s' pos' cs') with
               | Some m => Some m
               | None => k s pos cs
               end
         end) (S (length s) + lo)%nat O s pos cs
  | Group n r1 =>
      exec r1 s pos cs (λ s' pos' cs',
        k s' pos' ((n, string_of_list_ascii (take (pos' - pos) s)) :: cs'))
  end.

(** [r.groups]: the number of groups of the pattern.  [compile] numbers
    the groups from 1 as they open, so it is the largest number in [r]. *)
Fixpoint groups (r : re) : nat :=
  match r with
  | Eps | Chars _ _ => 0
  | Seq r1 r2 | Alt r1 r2 => Nat.max (groups r1) (groups r2)
  | Repeat _ _ r1 => groups r1
  | Group n r1 => Nat.max n (groups r1)
  end.

Definition capture (n : nat) (cs : captures) : option string :=
  snd <$> list_find (λ c, c.1 = n) cs ≫= λ c, Some c.2.

(** [r.match(text)] *)
Definition match_ (r : re) (text : string) : option Match :=
  match exec r (list_ascii_of_string text) 0 [] (λ _ pos cs, Some (pos, cs)) with
  | Some (pos, cs) => Some {| group1 := capture 1 cs; m_end := pos |}
  | None => None
  end.

(** *** The % operator of str *)

(** [str(v)] for the values whose text needs no [repr]. *)
Definition str (v : pyval) : outcome string :=
  match v with
  | PStr s => Ret s
  | PNone => Ret "None"
  | _ => Raise NotModelled
  end.

(** Formatting the rest [fmt] of a format string with the arguments
    [args] not used yet. *)
Fixpoint format (fmt : string) (args : list pyval) : outcome string :=
  match fmt with
  | EmptyString =>
      match args with
      | [] => Ret EmptyString
      | _ => Raise TypeError              (* not all arguments converted *)
      end
  | String c fmt' =>
      if Ascii.eqb c "%" then
        match fmt' with
        | EmptyString => Raise ValueError                 (* incomplete format *)
        | String d fmt'' =>
            if Ascii.eqb d "%" then
              out ←! format fmt'' args ;; Ret (String "%" out)
            else if Ascii.eqb d "s" then
              match args with
              | [] => Raise TypeError            (* not enough arguments *)
              | a :: args' =>
                  s ←! str a ;; out ←! format fmt'' args' ;; Ret (s +:+ out)
              end
            else if Ascii.eqb d "(" then Raise TypeError   (* requires a mapping *)
            else Raise NotModelled
        end
      else out ←! format fmt' args ;; Ret (String c out)
  end.

(** [fmt % arg]: a tuple gives the arguments, any other value is the
    one argument. *)
Definition mod_ (fmt : string) (arg : pyval) : outcome string :=
  match arg with
  | PTuple args => format fmt args
  | _ => format fmt [arg]
  end.

#[global] Instance builtins : Builtins :=
  {| regex := re; re_compile := compile; regex_groups := groups;
     regex_match := match_; str_mod := mod_ |}.

End Model.

(** ** The JSON fixture *)

Definition dquote : string := String (ascii_of_nat 34) EmptyString.

Definition json_description : string :=
  newline
  +:+ "object   => [{] members [}]" +:+ newline
  +:+ "members  => pair [,] members | pair" +:+ newline
  +:+ "pair     => string [:] value" +:+ newline
  +:+ "value    => object | array | number | string" +:+ newline
  +:+ "array    => [[] elements []]" +:+ newline
  +:+ "elements => value [,] elements | value" +:+ newline
  +:+ "number   => int frac exp | int frac | int exp | int" +:+ newline
  +:+ "int      => [-+]?[0-9]+" +:+ newline
  +:+ "frac     => [.][0-9]+" +:+ newline
  +:+ "exp      => e[+-][0-9]+" +:+ newline
  +:+ "string   => " +:+ dquote +:+ "([^" +:+ dquote +:+ "\\]|\["
      +:+ dquote +:+ "\/bfnrtu])*" +:+ dquote +:+ newline.

(** [JSON = grammar(json_description, whitespace='\s*')] *)
Definition JSON : outcome Grammar := grammar json_description "\s*".

(** [json_parse(text)], with the builtins of [Model]. *)
Definition json_parse (fuel : nat) (text : pyval) : outcome ParseResult :=
  G ←! JSON ;; parse fuel (PStr "value") text G.


(** ** Calls that leave the memo table alone *)

Section Stateless.
Context `{Builtins}.

(** The outcome of a computation started with an empty memo table. *)
Definition run {A} (x : M A) : outcome A := (x ∅).1.

(** [x] neither reads nor writes the table. *)
Definition stateless {A} (x : M A) : Prop := ∀ cache, x cache = (run x, cache).

Lemma stateless_mret {A} (a : A) : stateless (mret a).
Proof. done. Qed.

Lemma stateless_mraise {A} e : stateless (mraise (A:=A) e).
Proof. done. Qed.

Lemma stateless_mlift {A} (o : outcome A) : stateless (mlift o).
Proof. done. Qed.

Lemma run_mbind {A B} (x : M A) (k : A → M B) :
  stateless x → run (mbind x k) = obind (run x) (λ a, run (k a)).
Proof.
  intros Hx. unfold run at 1. unfold mbind. rewrite (Hx ∅).
  by destruct (run x).
Qed.

Lemma stateless_mbind {A B} (x : M A) (k : A → M B) :
  stateless x → (∀ a, stateless (k a)) → stateless (mbind x k).
Proof.
  intros Hx Hk c. rewrite run_mbind by done. unfold mbind. rewrite (Hx c).
  destruct (run x) as [a| |]; simpl; [apply Hk|done..].
Qed.

Variable grammar : Grammar.
Variable tokenizer : string.

Section callback.
Variable pa : list pyval → M ParseResult.
Hypothesis pa_stateless : ∀ args, stateless (pa args).

Lemma stateless_parse_sequence_loop sequence text result :
  stateless (parse_sequence_loop pa sequence text result).
Proof.
  revert text result. induction sequence as [|atom sequence IH]; intros text result.
  - apply stateless_mret.
  - simpl. apply stateless_mbind; [done|]. intros [tree text'].
    destruct (is_none text'); [apply stateless_mret | apply IH].
Qed.

Lemma stateless_try_alternatives atom text alternatives :
  stateless (try_alternatives pa atom text alternatives).
Proof.
  induction alternatives as [|alternative alternatives IH].
  - apply stateless_mret.
  - simpl. apply stateless_mbind; [apply stateless_parse_sequence_loop|].
    intros [tree rem]. destruct (negb (is_none rem)); [|done].
    apply stateless_mbind; [apply stateless_mlift|]. intros t. apply stateless_mret.
Qed.

Lemma stateless_parse_atom_body args :
  stateless (parse_atom_body grammar tokenizer pa args).
Proof.
  destruct args as [|atom [|text [|? ?]]]; try apply stateless_mraise.
  simpl. apply stateless_mbind; [apply stateless_mlift|].
  intros [e|]; [apply stateless_try_alternatives | apply stateless_mlift].
Qed.
End callback.

Lemma stateless_undecorated fuel args :
  stateless (parse_atom_with grammar tokenizer undecorated fuel args).
Proof.
  revert args. induction fuel as [|fuel IH]; intros args; [done|].
  simpl. unfold undecorated at 1. by apply stateless_parse_atom_body.
Qed.
End Stateless.


(** ** The undecorated interpreter as a function of the fuel *)

(** [o] is [o'], unless the fuel ran out for [o]. *)
Definition below {A} (o o' : outcome A) : Prop := o = OutOfFuel ∨ o = o'.

Infix "⊑" := below (at level 70).

Lemma fuel_cases {A} (o : outcome A) : o = OutOfFuel ∨ o ≠ OutOfFuel.
Proof. destruct o; [by right|by right|by left]. Qed.

Lemma below_refl {A} (o : outcome A) : o ⊑ o.
Proof. by right. Qed.

Lemma below_trans {A} (o1 o2 o3 : outcome A) : o1 ⊑ o2 → o2 ⊑ o3 → o1 ⊑ o3.
Proof. intros [->| ->] H; [by left|done]. Qed.

Lemma below_eq {A} (o o' : outcome A) : o ⊑ o' → o ≠ OutOfFuel → o' = o.
Proof. by intros [->| ->]. Qed.

Lemma obind_below {A B} (x x' : outcome A) (k k' : A → outcome B) :
  x ⊑ x' → (∀ a, k a ⊑ k' a) → obind x k ⊑ obind x' k'.
Proof.
  intros [->| ->] Hk; [by left|]. destruct x'; simpl; [apply Hk|by right..].
Qed.

Section Direct.
Context `{Builtins}.
Variable grammar : Grammar.
Variable tokenizer : string.

Definition direct (fuel : nat) (args : list pyval) : outcome ParseResult :=
  run (parse_atom_with grammar tokenizer undecorated fuel args).

Definition direct_loop (fuel : nat) (sequence : list string) (text : pyval)
    (result : list pyval) : outcome ParseResult :=
  run (parse_sequence_loop
         (parse_atom_with grammar tokenizer undecorated fuel) sequence text result).

Definition direct_sequence (fuel : nat) (sequence : list string) (text : pyval)
    : outcome ParseResult :=
  direct_loop fuel sequence text [].

Definition direct_alternatives (fuel : nat) (atom text : pyval)
    (alternatives : list (list string)) : outcome ParseResult :=
  run (try_alternatives
         (parse_atom_with grammar tokenizer undecorated fuel) atom text alternatives).

Lemma direct_O args : direct 0 args = OutOfFuel.
Proof. done. Qed.

Lemma direct_S fuel atom text :
  direct (S fuel) [atom; text] =
    (e ←! in_grammar grammar atom ;;
     match e with
     | Some e => direct_alternatives fuel atom text (alternatives_of e)
     | None => match_terminal tokenizer atom text
     end).
Proof.
  unfold direct. simpl. unfold undecorated at 1. simpl.
  rewrite run_mbind by apply stateless_mlift.
  change (run (mlift ?o)) with o. by destruct (in_grammar grammar atom) as [[e|]| |].
Qed.

Lemma direct_S_arity fuel args :
  (∀ atom text, args ≠ [atom; text]) → direct (S fuel) args = Raise TypeError.
Proof.
  intros Hargs. unfold direct. simpl. unfold undecorated at 1.
  destruct args as [|atom [|text [|? ?]]]; try done. by destruct (Hargs atom text).
Qed.

Lemma direct_loop_nil fuel text result :
  direct_loop fuel [] text result = Ret (PList result, text).
Proof. done. Qed.

Lemma direct_loop_cons fuel atom sequence text result :
  direct_loop fuel (atom :: sequence) text result =
    (r ←! direct fuel [PStr atom; text] ;;
     if is_none r.2 then Ret Fail
     else direct_loop fuel sequence r.2 (result ++ [r.1])).
Proof.
  unfold direct_loop. simpl. rewrite run_mbind by apply stateless_undecorated.
  fold (direct fuel [PStr atom; text]).
  destruct (direct fuel [PStr atom; text]) as [[tree text']| |]; simpl; try done.
  by destruct (is_none text').
Qed.

Lemma direct_alternatives_nil fuel atom text :
  direct_alternatives fuel atom text [] = Ret Fail.
Proof. done. Qed.

Lemma direct_alternatives_cons fuel atom text alternative alternatives :
  direct_alternatives fuel atom text (alternative :: alternatives) =
    (r ←! direct_sequence fuel alternative text ;;
     if negb (is_none r.2) then t ←! cons_tree atom r.1 ;; Ret (t, r.2)
     else direct_alternatives fuel atom text alternatives).
Proof.
  unfold direct_alternatives. simpl.
  rewrite run_mbind
    by (apply stateless_parse_sequence_loop; intros; apply stateless_undecorated).
  change (run (parse_sequence _ alternative text))
    with (direct_sequence fuel alternative text).
  destruct (direct_sequence fuel alternative text) as [[tree rem]| |]; simpl; try done.
  destruct (negb (is_none rem)); [|done].
  rewrite run_mbind by apply stateless_mlift.
  change (run (mlift ?o)) with o. by destruct (cons_tree atom tree).
Qed.

(** More fuel does not change an outcome that was reached. *)
Lemma direct_loop_below fuel fuel' sequence text result :
  (∀ args, direct fuel args ⊑ direct fuel' args) →
  direct_loop fuel sequence text result ⊑ direct_loop fuel' sequence text result.
Proof.
  intros Hd. revert text result.
  induction sequence as [|atom sequence IH]; intros text result.
  - apply below_refl.
  - rewrite !direct_loop_cons. apply obind_below; [apply Hd|].
    intros [tree text']; simpl. destruct (is_none text'); [apply below_refl | apply IH].
Qed.

Lemma direct_alternatives_below fuel fuel' atom text alternatives :
  (∀ args, direct fuel args ⊑ direct fuel' args) →
  direct_alternatives fuel atom text alternatives
    ⊑ direct_alternatives fuel' atom text alternatives.
Proof.
  intros Hd. induction alternatives as [|alternative alternatives IH].
  - apply below_refl.
  - rewrite !direct_alternatives_cons.
    apply obind_below; [by apply direct_loop_below|].
    intros [tree rem]; simpl. destruct (negb (is_none rem)); [apply below_refl | apply IH].
Qed.

Lemma direct_below_S fuel args : direct fuel args ⊑ direct (S fuel) args.
Proof.
  revert args. induction fuel as [|fuel IH]; intros args; [by left|].
  destruct args as [|atom [|text [|? ?]]];
    try (rewrite !direct_S_arity by done; apply below_refl).
  rewrite !direct_S. apply obind_below; [apply below_refl|].
  intros [e|]; [by apply direct_alternatives_below | apply below_refl].
Qed.

Lemma direct_below fuel fuel' args :
  (fuel ≤ fuel')%nat → direct fuel args ⊑ direct fuel' args.
Proof.
  induction 1 as [|fuel' _ IH]; [apply below_refl|].
  eapply below_trans; [apply IH | apply direct_below_S].
Qed.

Lemma direct_loop_mono fuel fuel' sequence text result :
  (fuel ≤ fuel')%nat →
  direct_loop fuel sequence text result ⊑ direct_loop fuel' sequence text result.
Proof. intros ?. apply direct_loop_below. intros. by apply direct_below. Qed.

Lemma direct_alternatives_mono fuel fuel' atom text alternatives :
  (fuel ≤ fuel')%nat →
  direct_alternatives fuel atom text alternatives
    ⊑ direct_alternatives fuel' atom text alternatives.
Proof. intros ?. apply direct_alternatives_below. intros. by apply direct_below. Qed.

(** Two outcomes reached with any two amounts of fuel are the same. *)
Lemma direct_agree fuel fuel' args :
  direct fuel args ≠ OutOfFuel → direct fuel' args ≠ OutOfFuel →
  direct fuel args = direct fuel' args.
Proof.
  intros H1 H2. destruct (Nat.le_ge_cases fuel fuel') as [Hle|Hle].
  - symmetry. by apply below_eq; [apply direct_below|].
  - by apply below_eq; [apply direct_below|].
Qed.
End Direct.


Section Transparency.
Context `{Builtins}.
Variable grammar : Grammar.
Variable tokenizer : string.

Abbreviation direct := (direct grammar tokenizer).
Abbreviation direct_loop := (direct_loop grammar tokenizer).
Abbreviation direct_sequence := (direct_sequence grammar tokenizer).
Abbreviation direct_alternatives := (direct_alternatives grammar tokenizer).

Lemma direct_more fuel fuel' args o :
  direct fuel args = o → o ≠ OutOfFuel → (fuel ≤ fuel')%nat → direct fuel' args = o.
Proof.
  intros <- Ho Hle. by apply below_eq; [apply direct_below|].
Qed.

Lemma direct_loop_more fuel fuel' sequence text result o :
  direct_loop fuel sequence text result = o → o ≠ OutOfFuel → (fuel ≤ fuel')%nat →
  direct_loop fuel' sequence text result = o.
Proof.
  intros <- Ho Hle. by apply below_eq; [apply direct_loop_mono|].
Qed.

Lemma direct_alternatives_more fuel fuel' atom text alternatives o :
  direct_alternatives fuel atom text alternatives = o → o ≠ OutOfFuel →
  (fuel ≤ fuel')%nat → direct_alternatives fuel' atom text alternatives = o.
Proof.
  intros <- Ho Hle. by apply below_eq; [apply direct_alternatives_mono|].
Qed.

(** *** The remainder of a hashable text is hashable *)

Lemma match_terminal_hashable atom text tree rem :
  match_terminal tokenizer atom text = Ret (tree, rem) → hashable rem = true.
Proof.
  unfold match_terminal, re_match.
  destruct (str_mod tokenizer atom) as [pattern| |]; simpl; [|done..].
  destruct (re_compile pattern) as [r| |]; simpl; [|done..].
  destruct text as [|s|l|l]; simpl; try done.
  destruct (regex_match r s) as [m|]; simpl; [|by intros [= <- <-]].
  unfold group. simpl. destruct (regex_groups r); simpl; by intros [= <- <-].
Qed.

Lemma direct_loop_hashable fuel sequence text result tree rem :
  (∀ atom text tree rem, direct fuel [atom; text] = Ret (tree, rem) →
     hashable text = true → hashable rem = true) →
  direct_loop fuel sequence text result = Ret (tree, rem) →
  hashable text = true → hashable rem = true.
Proof.
  intros Hd. revert text result.
  induction sequence as [|atom sequence IH]; intros text result.
  - rewrite direct_loop_nil. by intros [= <- <-].
  - rewrite direct_loop_cons.
    destruct (direct fuel [PStr atom; text]) as [[tree' text']| |] eqn:E;
      simpl; [|done..].
    destruct (is_none text'); [by intros [= <- <-]|].
    intros Hl Ht. eapply IH; [done|]. by eapply Hd.
Qed.

Lemma direct_alternatives_hashable fuel atom text alternatives tree rem :
  (∀ atom text tree rem, direct fuel [atom; text] = Ret (tree, rem) →
     hashable text = true → hashable rem = true) →
  direct_alternatives fuel atom text alternatives = Ret (tree, rem) →
  hashable text = true → hashable rem = true.
Proof.
  intros Hd. induction alternatives as [|alternative alternatives IH].
  - rewrite direct_alternatives_nil. by intros [= <- <-].
  - rewrite direct_alternatives_cons.
    destruct (direct_sequence fuel alternative text) as [[tree' rem']| |] eqn:E;
      simpl; [|done..].
    destruct (negb (is_none rem')); [|done].
    destruct (cons_tree atom tree'); simpl; [|done..].
    intros [= <- <-] Ht. by eapply direct_loop_hashable.
Qed.

Lemma direct_hashable fuel atom text tree rem :
  direct fuel [atom; text] = Ret (tree, rem) →
  hashable text = true → hashable rem = true.
Proof.
  revert atom text tree rem. induction fuel as [|fuel IH]; intros atom text tree rem;
    [done|].
  rewrite direct_S. destruct (in_grammar grammar atom) as [[e|]| |]; simpl; [| |done..].
  - by apply direct_alternatives_hashable.
  - intros ? _. by eapply match_terminal_hashable.
Qed.

(** *** Memo tables that hold results of the undecorated function *)

Definition consistent (cache : Cache) : Prop :=
  ∀ args r, cache !! args = Some r → ∃ fuel, direct fuel args = Ret r.

Lemma consistent_empty : consistent ∅.
Proof. intros args r. by rewrite lookup_empty. Qed.

Lemma consistent_insert cache args r fuel :
  consistent cache → direct fuel args = Ret r → consistent (<[args := r]> cache).
Proof.
  intros Hc Hd args' r'. rewrite lookup_insert. case_decide as E.
  - intros [= <-]. exists fuel. by rewrite <-E.
  - apply Hc.
Qed.

(** What a call through the memo table returns, the undecorated call
    returns with some fuel. *)
Definition sound (pa : list pyval → M ParseResult) : Prop :=
  ∀ atom text cache o cache',
    hashable text = true → consistent cache →
    pa [atom; text] cache = (o, cache') →
    consistent cache' ∧ (o = OutOfFuel ∨ ∃ fuel, direct fuel [atom; text] = o).

Lemma sound_loop pa sequence text result cache o cache' :
  sound pa → hashable text = true → consistent cache →
  parse_sequence_loop pa sequence text result cache = (o, cache') →
  consistent cache' ∧
  (o = OutOfFuel ∨ ∃ fuel, direct_loop fuel sequence text result = o).
Proof.
  intros Hpa. revert text result cache.
  induction sequence as [|atom sequence IH]; intros text result cache Ht Hc.
  - intros [= <- <-]. split; [done|]. right. by exists 0%nat.
  - simpl. unfold mbind.
    destruct (pa [PStr atom; text] cache) as [o1 c1] eqn:E1.
    destruct (Hpa _ _ _ _ _ Ht Hc E1) as [Hc1 Ho1].
    destruct o1 as [[tree text']| |]; [|intros [= <- <-]..].
    + destruct Ho1 as [|[f1 Hf1]]; [done|].
      destruct (is_none text') eqn:En.
      * intros [= <- <-]. split; [done|]. right. exists f1.
        by rewrite direct_loop_cons, Hf1; simpl; rewrite En.
      * intros E2. apply IH in E2 as [Hc2 Ho2];
          [|by eapply direct_hashable|done].
        split; [done|]. destruct Ho2 as [->|[f2 Hf2]]; [by left|].
        destruct (fuel_cases o) as [->|Ho]; [by left|]. right.
        exists (f1 `max` f2)%nat. rewrite direct_loop_cons.
        rewrite (direct_more f1 _ _ _ Hf1) by (done || lia). simpl. rewrite En.
        eapply direct_loop_more; [done..|lia].
    + split; [done|]. destruct Ho1 as [|[f1 Hf1]]; [done|]. right. exists f1.
      by rewrite direct_loop_cons, Hf1.
    + split; [done|]. by left.
Qed.

Lemma sound_alternatives pa atom text alternatives cache o cache' :
  sound pa → hashable text = true → consistent cache →
  try_alternatives pa atom text alternatives cache = (o, cache') →
  consistent cache' ∧
  (o = OutOfFuel ∨ ∃ fuel, direct_alternatives fuel atom text alternatives = o).
Proof.
  intros Hpa Ht. revert cache.
  induction alternatives as [|alternative alternatives IH]; intros cache Hc.
  - intros [= <- <-]. split; [done|]. right. by exists 0%nat.
  - simpl. unfold mbind at 1.
    destruct (parse_sequence pa alternative text cache) as [o1 c1] eqn:E1.
    apply sound_loop in E1 as [Hc1 Ho1]; [|done..].
    destruct o1 as [[tree rem]| |]; [|intros [= <- <-]..].
    + destruct Ho1 as [|[f1 Hf1]]; [done|].
      destruct (negb (is_none rem)) eqn:En.
      * unfold mbind, mlift, mret. intros E2.
        assert (o = (t ←! cons_tree atom tree ;; Ret (t, rem)) ∧ cache' = c1)
          as [-> ->] by (by destruct (cons_tree atom tree); injection E2 as <- <-).
        split; [done|]. right. exists f1. rewrite direct_alternatives_cons.
        unfold direct_sequence. rewrite Hf1. simpl. by rewrite En.
      * intros E2. apply IH in E2 as [Hc2 Ho2]; [|done].
        split; [done|]. destruct Ho2 as [->|[f2 Hf2]]; [by left|].
        destruct (fuel_cases o) as [->|Ho]; [by left|]. right.
        exists (f1 `max` f2)%nat. rewrite direct_alternatives_cons.
        unfold direct_sequence.
        rewrite (direct_loop_more f1 _ _ _ _ _ Hf1) by (done || lia). simpl.
        rewrite En. eapply direct_alternatives_more; [done..|lia].
    + split; [done|]. destruct Ho1 as [|[f1 Hf1]]; [done|]. right. exists f1.
      rewrite direct_alternatives_cons. unfold direct_sequence. by rewrite Hf1.
    + split; [done|]. by left.
Qed.

Lemma sound_body pa : sound pa → sound (parse_atom_body grammar tokenizer pa).
Proof.
  intros Hpa atom text cache o cache' Ht Hc. simpl. unfold mbind at 1, mlift at 1.
  destruct (in_grammar grammar atom) as [[e|]| |] eqn:Eg.
  - intros E. apply sound_alternatives in E as [Hc' Ho]; [|done..].
    split; [done|]. destruct Ho as [->|[f Hf]]; [by left|]. right.
    exists (S f). by rewrite direct_S, Eg.
  - intros [= <- <-]. split; [done|]. right. exists 1%nat. by rewrite direct_S, Eg.
  - intros [= <- <-]. split; [done|]. right. exists 1%nat. by rewrite direct_S, Eg.
  - intros [= <- <-]. split; [done|]. by left.
Qed.

Lemma in_grammar_unhashable atom :
  hashable atom = false → in_grammar grammar atom = Raise TypeError.
Proof. unfold in_grammar. by intros ->. Qed.

Lemma parse_atom_S fuel :
  parse_atom grammar tokenizer (S fuel) =
    memo (parse_atom_body grammar tokenizer (parse_atom grammar tokenizer fuel)).
Proof. done. Qed.

Lemma memo_hashable f atom text cache :
  hashable atom = true → hashable text = true →
  memo f [atom; text] cache =
    match cache !! [atom; text] with
    | Some result => (Ret result, cache)
    | None =>
        match f [atom; text] cache with
        | (Ret result, cache') => (Ret result, <[[atom; text] := result]> cache')
        | raised => raised
        end
    end.
Proof. intros Ha Ht. unfold memo. simpl. by rewrite Ha, Ht. Qed.

Lemma memo_unhashable f atom text cache :
  hashable atom && hashable text = false →
  memo f [atom; text] cache = f [PTuple [atom; text]] cache.
Proof.
  intros Hh. unfold memo. simpl. rewrite andb_true_r. by rewrite Hh.
Qed.

Lemma sound_memo fuel : sound (parse_atom grammar tokenizer fuel).
Proof.
  induction fuel as [|fuel IH]; intros atom text cache o cache' Ht Hc.
  - intros [= <- <-]. split; [done|]. by left.
  - rewrite parse_atom_S. destruct (hashable atom) eqn:Ha.
    + rewrite memo_hashable by done.
      destruct (cache !! [atom; text]) as [r|] eqn:El.
      * intros [= <- <-]. split; [done|]. right. by apply Hc.
      * destruct (parse_atom_body grammar tokenizer _ [atom; text] cache)
          as [o1 c1] eqn:E1.
        apply (sound_body _ IH) in E1 as [Hc1 Ho1]; [|done..].
        destruct o1 as [r| |]; intros [= <- <-]; [|done..].
        destruct Ho1 as [|[f Hf]]; [done|]. split; [|by eauto].
        by eapply consistent_insert.
    + rewrite memo_unhashable by (by rewrite Ha).
      intros [= <- <-]. split; [done|]. right. exists 1%nat.
      by rewrite direct_S, in_grammar_unhashable.
Qed.

(** What the undecorated call returns within [fuel], the call through
    the memo table returns. *)
Definition complete (pa : list pyval → M ParseResult) (fuel : nat) : Prop :=
  ∀ atom text cache o,
    hashable text = true → consistent cache →
    direct fuel [atom; text] = o → o ≠ OutOfFuel →
    ∃ cache', pa [atom; text] cache = (o, cache') ∧ consistent cache'.

Lemma complete_loop pa fuel sequence text result cache o :
  complete pa fuel → hashable text = true → consistent cache →
  direct_loop fuel sequence text result = o → o ≠ OutOfFuel →
  ∃ cache',
    parse_sequence_loop pa sequence text result cache = (o, cache')
    ∧ consistent cache'.
Proof.
  intros Hpa. revert text result cache.
  induction sequence as [|atom sequence IH]; intros text result cache Ht Hc.
  - rewrite direct_loop_nil. intros <- _. by exists cache.
  - rewrite direct_loop_cons. simpl. unfold mbind.
    destruct (direct fuel [PStr atom; text]) as [[tree text']| |] eqn:E1;
      simpl; [| |by intros <-].
    + destruct (Hpa _ _ _ _ Ht Hc E1) as (c1 & -> & Hc1); [done|].
      destruct (is_none text'); [intros <- _; by exists c1|].
      apply IH; [by eapply direct_hashable|done].
    + destruct (Hpa _ _ _ _ Ht Hc E1) as (c1 & -> & Hc1); [done|].
      intros <- _. by exists c1.
Qed.

Lemma complete_alternatives pa fuel atom text alternatives cache o :
  complete pa fuel → hashable text = true → consistent cache →
  direct_alternatives fuel atom text alternatives = o → o ≠ OutOfFuel →
  ∃ cache',
    try_alternatives pa atom text alternatives cache = (o, cache')
    ∧ consistent cache'.
Proof.
  intros Hpa Ht. revert cache.
  induction alternatives as [|alternative alternatives IH]; intros cache Hc.
  - rewrite direct_alternatives_nil. intros <- _. by exists cache.
  - rewrite direct_alternatives_cons. simpl. unfold mbind at 1.
    destruct (direct_sequence fuel alternative text) as [[tree rem]| |] eqn:E1;
      simpl; [| |by intros <-].
    + destruct (complete_loop pa _ _ _ _ cache _ Hpa Ht Hc E1) as (c1 & E & Hc1);
        [done|].
      unfold parse_sequence. rewrite E.
      destruct (negb (is_none rem)); [|by apply IH].
      unfold mbind, mlift, mret. intros <- _. exists c1.
      by destruct (cons_tree atom tree).
    + destruct (complete_loop pa _ _ _ _ cache _ Hpa Ht Hc E1) as (c1 & E & Hc1);
        [done|].
      unfold parse_sequence. rewrite E. intros <- _. by exists c1.
Qed.

Lemma complete_body pa fuel :
  complete pa fuel → complete (parse_atom_body grammar tokenizer pa) (S fuel).
Proof.
  intros Hpa atom text cache o Ht Hc. rewrite direct_S. simpl.
  unfold mbind at 1, mlift at 1.
  destruct (in_grammar grammar atom) as [[e|]| |]; simpl.
  - by apply complete_alternatives.
  - intros <- _. by exists cache.
  - intros <- _. by exists cache.
  - by intros <-.
Qed.

Lemma complete_memo fuel : complete (parse_atom grammar tokenizer fuel) fuel.
Proof.
  induction fuel as [|fuel IH]; intros atom text cache o Ht Hc Hd Ho.
  - by rewrite direct_O in Hd.
  - rewrite parse_atom_S. destruct (hashable atom) eqn:Ha.
    + rewrite memo_hashable by done.
      destruct (cache !! [atom; text]) as [r|] eqn:El.
      * exists cache. split; [|done]. destruct (Hc _ _ El) as [f Hf].
        rewrite <-Hd, <-Hf. f_equal. apply direct_agree; congruence.
      * destruct (complete_body _ _ IH _ _ _ _ Ht Hc Hd Ho) as (c1 & -> & Hc1).
        destruct o as [r| |]; [|by exists c1..].
        eexists. split; [done|]. by eapply consistent_insert.
    + rewrite memo_unhashable by (by rewrite Ha). exists cache. split; [|done].
      by rewrite direct_S, in_grammar_unhashable in Hd by done; subst o.
Qed.
End Transparency.


(** ** What the calls of the interpreter return *)

Section Returns.
Context `{Builtins}.
Variable grammar : Grammar.
Variable tokenizer : string.

Abbreviation direct := (direct grammar tokenizer).
Abbreviation direct_loop := (direct_loop grammar tokenizer).
Abbreviation direct_sequence := (direct_sequence grammar tokenizer).
Abbreviation direct_alternatives := (direct_alternatives grammar tokenizer).
Abbreviation consistent := (consistent grammar tokenizer).

(** [x], run from a memo table as it can be during a call of [parse],
    returns [a]. *)
Definition returns {A} (x : nat → M A) (a : A) : Prop :=
  ∃ fuel cache cache', consistent cache ∧ x fuel cache = (Ret a, cache').

(** [parse_atom(atom, text)] returns [r]. *)
Definition atom_returns (atom : string) (text : pyval) (r : ParseResult) : Prop :=
  returns (λ fuel, parse_atom grammar tokenizer fuel [PStr atom; text]) r.

(** [parse_sequence(sequence, text)] returns [r]. *)
Definition sequence_returns (sequence : list string) (text : pyval)
    (r : ParseResult) : Prop :=
  returns (λ fuel, parse_sequence (parse_atom grammar tokenizer fuel) sequence text) r.

Lemma atom_returns_direct atom text r :
  hashable text = true →
  atom_returns atom text r ↔ ∃ fuel, direct fuel [PStr atom; text] = Ret r.
Proof.
  intros Ht. split.
  - intros (fuel & cache & cache' & Hc & E).
    apply (sound_memo grammar tokenizer) in E as [_ [|Hd]]; done.
  - intros [fuel Hd]. exists fuel, ∅.
    destruct (complete_memo grammar tokenizer fuel (PStr atom) text ∅ _ Ht
                (consistent_empty _ _) Hd) as (cache' & E & _); [done|].
    exists cache'. split; [apply consistent_empty | done].
Qed.

Lemma sequence_returns_direct sequence text r :
  hashable text = true →
  sequence_returns sequence text r ↔ ∃ fuel, direct_sequence fuel sequence text = Ret r.
Proof.
  intros Ht. split.
  - intros (fuel & cache & cache' & Hc & E).
    apply (sound_loop grammar tokenizer) in E as [_ [|Hd]]; try done.
    apply sound_memo.
  - intros [fuel Hd]. exists fuel, ∅.
    destruct (complete_loop grammar tokenizer _ fuel sequence text [] ∅ _
                (complete_memo _ _ fuel) Ht (consistent_empty _ _) Hd)
      as (cache' & E & _); [done|].
    exists cache'. split; [apply consistent_empty | done].
Qed.

(** A call returns one value only. *)
Lemma direct_functional fuel fuel' args r r' :
  direct fuel args = Ret r → direct fuel' args = Ret r' → r = r'.
Proof.
  intros E E'. assert (direct fuel args = direct fuel' args) as Heq
    by (apply direct_agree; congruence).
  congruence.
Qed.

Lemma atom_returns_functional atom text r r' :
  hashable text = true →
  atom_returns atom text r → atom_returns atom text r' → r = r'.
Proof.
  intros Ht. rewrite !atom_returns_direct by done.
  intros [f E] [f' E']. by eapply direct_functional.
Qed.

Lemma direct_sequence_functional fuel fuel' sequence text r r' :
  direct_sequence fuel sequence text = Ret r →
  direct_sequence fuel' sequence text = Ret r' → r = r'.
Proof.
  intros E E'.
  apply (direct_loop_more _ _ _ (fuel `max` fuel')%nat) in E; [|done|lia].
  apply (direct_loop_more _ _ _ (fuel `max` fuel')%nat) in E'; [|done|lia].
  unfold direct_sequence in *. congruence.
Qed.

Lemma sequence_returns_functional sequence text r r' :
  hashable text = true →
  sequence_returns sequence text r → sequence_returns sequence text r' → r = r'.
Proof.
  intros Ht. rewrite !sequence_returns_direct by done.
  intros [f E] [f' E']. by eapply direct_sequence_functional.
Qed.
End Returns.


Lemma is_none_true v : is_none v = true ↔ v = PNone.
Proof. by destruct v. Qed.

Lemma is_none_false v : is_none v = false ↔ v ≠ PNone.
Proof. by destruct v. Qed.

(** ** Sequences, atom by atom *)

Section Threading.
(** [call atom text r]: the call of [parse_atom] on [atom] and [text]
    returns [r]. *)
Variable call : string → pyval → ParseResult → Prop.

(** The atoms of a sequence succeed one after the other, each on the
    remainder left by the one before: from [text] they leave [rem] and
    give [trees], in order. *)
Inductive threads : list string → pyval → list pyval → pyval → Prop :=
| threads_nil text : threads [] text [] text
| threads_cons atom sequence text tree text' trees rem :
    call atom text (tree, text') → text' ≠ PNone →
    threads sequence text' trees rem →
    threads (atom :: sequence) text (tree :: trees) rem.

(** The atoms in [before] succeed and the next one fails. *)
Definition fails_in (sequence : list string) (text : pyval) : Prop :=
  ∃ before atom after trees text' tree,
    sequence = before ++ atom :: after
    ∧ threads before text trees text'
    ∧ call atom text' (tree, PNone).

Lemma fails_in_here atom sequence text tree :
  call atom text (tree, PNone) → fails_in (atom :: sequence) text.
Proof. intros Hc. exists [], atom, sequence, [], text, tree. eauto using threads. Qed.

Lemma fails_in_later atom sequence text tree text' :
  call atom text (tree, text') → text' ≠ PNone →
  fails_in sequence text' → fails_in (atom :: sequence) text.
Proof.
  intros Hc Hn (before & atom' & after & trees & text'' & tree' & -> & Ht & Hf).
  exists (atom :: before), atom', after, (tree :: trees), text'', tree'.
  eauto using threads.
Qed.

Lemma fails_in_inv atom sequence text :
  fails_in (atom :: sequence) text →
  (∃ tree, call atom text (tree, PNone))
  ∨ (∃ tree text', call atom text (tree, text') ∧ text' ≠ PNone
                   ∧ fails_in sequence text').
Proof.
  intros (before & atom' & after & trees & text'' & tree' & E & Ht & Hf).
  destruct Ht as [text|a s text tree text' trees rem Hc Hn Ht]; simplify_eq/=.
  - left. eauto.
  - right. exists tree, text'. split_and!; [done..|].
    by exists s, atom', after, trees, rem, tree'.
Qed.
End Threading.

Lemma threads_impl (call call' : string → pyval → ParseResult → Prop)
    (inv : pyval → Prop) sequence text trees rem :
  (∀ atom text r, inv text → call atom text r → call' atom text r ∧ inv r.2) →
  inv text → threads call sequence text trees rem →
  threads call' sequence text trees rem ∧ inv rem.
Proof.
  intros Hcall Hi Ht. induction Ht as [|atom sequence text tree text' trees rem Hc Hn _ IH];
    [by eauto using threads|].
  destruct (Hcall _ _ _ Hi Hc) as [Hc' Hi']. destruct (IH Hi') as [Ht' Hr].
  eauto using threads.
Qed.

Section Characterisation.
Context `{Builtins}.
Variable grammar : Grammar.
Variable tokenizer : string.

Abbreviation direct := (direct grammar tokenizer).
Abbreviation direct_loop := (direct_loop grammar tokenizer).
Abbreviation direct_sequence := (direct_sequence grammar tokenizer).
Abbreviation direct_alternatives := (direct_alternatives grammar tokenizer).

Definition direct_returns (atom : string) (text : pyval) (r : ParseResult) : Prop :=
  ∃ fuel, direct fuel [PStr atom; text] = Ret r.

Definition direct_sequence_returns (sequence : list string) (text : pyval)
    (r : ParseResult) : Prop :=
  ∃ fuel, direct_sequence fuel sequence text = Ret r.

Lemma direct_loop_threads sequence text result r :
  (∃ fuel, direct_loop fuel sequence text result = Ret r)
  ↔ (∃ trees rem,
       threads direct_returns sequence text trees rem
       ∧ r = (PList (result ++ trees), rem))
    ∨ (fails_in direct_returns sequence text ∧ r = Fail).
Proof.
  split.
  - intros [fuel E]. revert text result E.
    induction sequence as [|atom sequence IH]; intros text result.
    + rewrite direct_loop_nil. intros [= <-]. left. exists [], text.
      rewrite app_nil_r. eauto using threads.
    + rewrite direct_loop_cons.
      destruct (direct fuel [PStr atom; text]) as [[tree text']| |] eqn:E1;
        simpl; [|done..].
      destruct (is_none text') eqn:En.
      * apply is_none_true in En as ->. intros [= <-]. right. split; [|done].
        eapply fails_in_here. by exists fuel.
      * apply is_none_false in En. intros E2.
        destruct (IH _ _ E2) as [(trees & rem & Ht & ->)|[Hf ->]].
        -- left. exists (tree :: trees), rem. rewrite <-app_assoc. split; [|done].
           econstructor; [by exists fuel|done..].
        -- right. split; [|done]. eapply fails_in_later; [by exists fuel|done..].
  - intros [(trees & rem & Ht & ->)|[Hf ->]].
    + revert result.
      induction Ht as [|atom sequence text tree text' trees rem [f1 E1] Hn _ IH];
        intros result.
      * exists 0%nat. by rewrite direct_loop_nil, app_nil_r.
      * destruct (IH (result ++ [tree])) as [f2 E2]. exists (f1 `max` f2)%nat.
        rewrite direct_loop_cons.
        rewrite (direct_more _ _ f1 _ _ _ E1) by (done || lia). simpl.
        apply is_none_false in Hn as ->. rewrite <-app_assoc in E2.
        eapply direct_loop_more; [done..|lia].
    + revert text result Hf. induction sequence as [|atom sequence IH];
        intros text result Hf.
      * destruct Hf as (before & ? & ? & ? & ? & ? & E & _). by destruct before.
      * apply fails_in_inv in Hf
          as [(tree & f & E)|(tree & text' & [f1 E1] & Hn & Hf)].
        -- exists f. by rewrite direct_loop_cons, E.
        -- destruct (IH text' (result ++ [tree]) Hf) as [f2 E2].
           exists (f1 `max` f2)%nat. rewrite direct_loop_cons.
           rewrite (direct_more _ _ f1 _ _ _ E1) by (done || lia). simpl.
           apply is_none_false in Hn as ->.
           eapply direct_loop_more; [done..|lia].
Qed.

(** *** Alternatives, in their order *)

Definition alternative_fails (text : pyval) (alternative : list string) : Prop :=
  ∃ tree, direct_sequence_returns alternative text (tree, PNone).

Lemma direct_alternatives_first atom text alternatives r :
  (∃ fuel, direct_alternatives fuel atom text alternatives = Ret r)
  ↔ (∃ before alternative after trees rem,
       alternatives = before ++ alternative :: after
       ∧ Forall (alternative_fails text) before
       ∧ direct_sequence_returns alternative text (PList trees, rem)
       ∧ rem ≠ PNone
       ∧ r = (PList (atom :: trees), rem))
    ∨ (Forall (alternative_fails text) alternatives ∧ r = Fail).
Proof.
  split.
  - intros [fuel E]. revert E.
    induction alternatives as [|alternative alternatives IH].
    + rewrite direct_alternatives_nil. intros [= <-]. by right.
    + rewrite direct_alternatives_cons.
      destruct (direct_sequence fuel alternative text) as [[tree rem]| |] eqn:E1;
        simpl; [|done..].
      destruct (is_none rem) eqn:En; simpl.
      * apply is_none_true in En as ->. intros E2.
        assert (alternative_fails text alternative) as Hf
          by (by exists tree, fuel).
        destruct (IH E2) as
          [(before & alt & after & trees & rem & -> & Hb & Ha & Hn & ->)|[Hall ->]].
        -- left. exists (alternative :: before), alt, after, trees, rem.
           split_and!; try done. by constructor.
        -- right. split; [|done]. by constructor.
      * apply is_none_false in En. destruct tree as [| |trees|]; simpl; try done.
        intros [= <-]. left. exists [], alternative, alternatives, trees, rem.
        split_and!; try done. by exists fuel.
  - intros [(before & alt & after & trees & rem & -> & Hb & [f E] & Hn & ->)|[Hall ->]].
    + induction Hb as [|alternative before [tree [f1 E1]] _ [f2 E2]].
      * exists f. rewrite app_nil_l, direct_alternatives_cons, E. simpl.
        by apply is_none_false in Hn as ->.
      * exists (f1 `max` f2)%nat. rewrite <-app_comm_cons, direct_alternatives_cons.
        unfold direct_sequence in *.
        rewrite (direct_loop_more _ _ f1 _ _ _ _ _ E1) by (done || lia). simpl.
        eapply direct_alternatives_more; [done..|lia].
    + induction Hall as [|alternative alternatives [tree [f1 E1]] _ [f2 E2]].
      * by exists 0%nat.
      * exists (f1 `max` f2)%nat. rewrite direct_alternatives_cons.
        unfold direct_sequence in *.
        rewrite (direct_loop_more _ _ f1 _ _ _ _ _ E1) by (done || lia). simpl.
        eapply direct_alternatives_more; [done..|lia].
Qed.

Lemma direct_nonterminal atom text e r :
  grammar !! atom = Some e →
  direct_returns atom text r
  ↔ ∃ fuel, direct_alternatives fuel (PStr atom) text (alternatives_of e) = Ret r.
Proof.
  intros He. split.
  - intros [[|fuel] E]; [done|]. exists fuel. revert E. rewrite direct_S.
    unfold in_grammar. simpl. by rewrite He.
  - intros [fuel E]. exists (S fuel). rewrite direct_S. unfold in_grammar. simpl.
    by rewrite He.
Qed.

Lemma direct_terminal fuel atom text :
  grammar !! atom = None →
  direct (S fuel) [PStr atom; text] = match_terminal tokenizer (PStr atom) text.
Proof. intros He. rewrite direct_S. unfold in_grammar. simpl. by rewrite He. Qed.
End Characterisation.


Section Calls.
Context `{Builtins}.
Variable grammar : Grammar.
Variable tokenizer : string.

Abbreviation atom_returns := (atom_returns grammar tokenizer).
Abbreviation sequence_returns := (sequence_returns grammar tokenizer).
Abbreviation direct_returns := (direct_returns grammar tokenizer).
Abbreviation direct_sequence_returns := (direct_sequence_returns grammar tokenizer).

Lemma direct_returns_hashable atom text r :
  hashable text = true → direct_returns atom text r → hashable r.2 = true.
Proof. intros Ht [fuel E]. destruct r. by eapply direct_hashable. Qed.

Lemma threads_direct sequence text trees rem :
  hashable text = true →
  threads direct_returns sequence text trees rem
  ↔ threads atom_returns sequence text trees rem.
Proof.
  intros Ht. split; intros Hthreads.
  - eapply (threads_impl _ _ (λ v, hashable v = true)); [|done..].
    intros atom text' r Ht' Hd. split; [|by eapply direct_returns_hashable].
    by apply atom_returns_direct.
  - eapply (threads_impl _ _ (λ v, hashable v = true)); [|done..].
    intros atom text' r Ht' Hd. apply atom_returns_direct in Hd; [|done].
    split; [done|]. by eapply direct_returns_hashable.
Qed.

Lemma threads_hashable sequence text trees rem :
  hashable text = true → threads direct_returns sequence text trees rem →
  hashable rem = true.
Proof.
  intros Ht Hthreads.
  eapply (threads_impl _ direct_returns (λ v, hashable v = true)); [|done..].
  intros atom text' r Ht' Hd. split; [done|]. by eapply direct_returns_hashable.
Qed.

Lemma fails_in_direct sequence text :
  hashable text = true →
  fails_in direct_returns sequence text ↔ fails_in atom_returns sequence text.
Proof.
  intros Ht. split.
  - intros (before & atom & after & trees & text' & tree & -> & Hthreads & Hc).
    exists before, atom, after, trees, text', tree. split_and!; [done|..].
    + by apply threads_direct.
    + apply atom_returns_direct; [|done]. by eapply threads_hashable.
  - intros (before & atom & after & trees & text' & tree & -> & Hthreads & Hc).
    apply threads_direct in Hthreads; [|done].
    exists before, atom, after, trees, text', tree. split_and!; [done..|].
    apply atom_returns_direct in Hc; [done|]. by eapply threads_hashable.
Qed.

Lemma sequence_returns_threads sequence text r :
  hashable text = true →
  sequence_returns sequence text r
  ↔ (∃ trees rem,
       threads atom_returns sequence text trees rem ∧ r = (PList trees, rem))
    ∨ (fails_in atom_returns sequence text ∧ r = Fail).
Proof.
  intros Ht. rewrite sequence_returns_direct by done.
  unfold direct_sequence. rewrite direct_loop_threads.
  rewrite fails_in_direct by done.
  by setoid_rewrite threads_direct.
Qed.

Definition fails (text : pyval) (alternative : list string) : Prop :=
  ∃ tree, sequence_returns alternative text (tree, PNone).

Lemma fails_direct text alternative :
  hashable text = true →
  alternative_fails grammar tokenizer text alternative ↔ fails text alternative.
Proof.
  intros Ht. unfold alternative_fails, fails.
  by setoid_rewrite sequence_returns_direct.
Qed.

Lemma atom_returns_first atom text e r :
  grammar !! atom = Some e → hashable text = true →
  atom_returns atom text r
  ↔ (∃ before alternative after trees rem,
       alternatives_of e = before ++ alternative :: after
       ∧ Forall (fails text) before
       ∧ sequence_returns alternative text (PList trees, rem)
       ∧ rem ≠ PNone
       ∧ r = (PList (PStr atom :: trees), rem))
    ∨ (Forall (fails text) (alternatives_of e) ∧ r = Fail).
Proof.
  intros He Ht. rewrite atom_returns_direct by done.
  change (∃ fuel, direct grammar tokenizer fuel [PStr atom; text] = Ret r)
    with (direct_returns atom text r).
  rewrite direct_nonterminal by done. rewrite direct_alternatives_first.
  assert (∀ l, Forall (alternative_fails grammar tokenizer text) l
               ↔ Forall (fails text) l) as Hall.
  { intros l. apply Forall_proper; [|done]. intros a. by apply fails_direct. }
  setoid_rewrite Hall. by setoid_rewrite sequence_returns_direct.
Qed.
End Calls.


(** ** parse and its inner calls *)

Section Parse.
Context `{Builtins}.

Lemma parse_pattern deco fuel start_symbol text (grammar : Grammar) whitespace :
  grammar !! " " = Some (Pattern whitespace) →
  parse_with deco fuel start_symbol text grammar =
    (parse_atom_with grammar (whitespace +:+ "(%s)") deco fuel
       [start_symbol; text] ∅).1.
Proof. unfold parse_with. by intros ->. Qed.

Lemma parse_no_pattern deco deco' fuel fuel' start_symbol text (grammar : Grammar) :
  (∀ whitespace, grammar !! " " ≠ Some (Pattern whitespace)) →
  parse_with deco fuel start_symbol text grammar =
    parse_with deco' fuel' start_symbol text grammar
  ∧ parse_with deco fuel start_symbol text grammar ≠ OutOfFuel.
Proof.
  unfold parse_with. intros Hg.
  destruct (grammar !! " ") as [[whitespace|alts]|]; [by destruct (Hg whitespace)|done..].
Qed.

Lemma parse_undecorated_direct fuel start_symbol text (grammar : Grammar) whitespace :
  grammar !! " " = Some (Pattern whitespace) →
  parse_undecorated fuel start_symbol text grammar =
    direct grammar (whitespace +:+ "(%s)") fuel [start_symbol; text].
Proof. apply parse_pattern. Qed.

(** The memoized parse returns what the undecorated one returns with the
    same fuel. *)
Lemma parse_complete fuel start_symbol text (grammar : Grammar) :
  hashable text = true →
  parse_undecorated fuel start_symbol text grammar ≠ OutOfFuel →
  parse fuel start_symbol text grammar =
    parse_undecorated fuel start_symbol text grammar.
Proof.
  intros Ht Ho.
  destruct (grammar !! " ") as [[whitespace|alts]|] eqn:Eg;
    [|by apply parse_no_pattern; intros ?; rewrite Eg..].
  rewrite parse_undecorated_direct with (whitespace := whitespace) in * by done.
  unfold parse. rewrite parse_pattern with (whitespace := whitespace) by done.
  destruct (complete_memo grammar (whitespace +:+ "(%s)") fuel start_symbol text ∅ _
              Ht (consistent_empty _ _) eq_refl Ho) as (cache' & E & _).
  unfold parse_atom in E. by rewrite E.
Qed.

(** What the memoized parse returns, the undecorated one returns with
    some fuel. *)
Lemma parse_sound fuel start_symbol text (grammar : Grammar) :
  hashable text = true →
  parse fuel start_symbol text grammar ≠ OutOfFuel →
  ∃ fuel', parse_undecorated fuel' start_symbol text grammar =
             parse fuel start_symbol text grammar.
Proof.
  intros Ht Ho.
  destruct (grammar !! " ") as [[whitespace|alts]|] eqn:Eg;
    [|by exists fuel; apply parse_no_pattern; intros ?; rewrite Eg..].
  unfold parse in *. rewrite parse_pattern with (whitespace := whitespace) in * by done.
  destruct (parse_atom_with _ _ memo fuel _ ∅) as [o cache'] eqn:E.
  apply (sound_memo grammar (whitespace +:+ "(%s)")) in E as [_ [->|[fuel' E]]];
    [done| |done|apply consistent_empty].
  exists fuel'. by rewrite parse_undecorated_direct with (whitespace := whitespace).
Qed.

Lemma parse_undecorated_agree fuel fuel' start_symbol text (grammar : Grammar) :
  parse_undecorated fuel start_symbol text grammar ≠ OutOfFuel →
  parse_undecorated fuel' start_symbol text grammar ≠ OutOfFuel →
  parse_undecorated fuel start_symbol text grammar =
    parse_undecorated fuel' start_symbol text grammar.
Proof.
  destruct (grammar !! " ") as [[whitespace|alts]|] eqn:Eg;
    [|by intros; apply parse_no_pattern; intros ?; rewrite Eg..].
  rewrite !parse_undecorated_direct with (whitespace := whitespace) by done.
  apply direct_agree.
Qed.

(** More fuel does not change what parse returned. *)
Lemma parse_more fuel fuel' start_symbol text (grammar : Grammar) :
  hashable text = true → (fuel ≤ fuel')%nat →
  parse_undecorated fuel start_symbol text grammar ≠ OutOfFuel →
  parse fuel' start_symbol text grammar =
    parse_undecorated fuel start_symbol text grammar.
Proof.
  intros Ht Hle Ho.
  assert (parse_undecorated fuel' start_symbol text grammar =
            parse_undecorated fuel start_symbol text grammar) as E.
  { destruct (grammar !! " ") as [[whitespace|alts]|] eqn:Eg;
      [|by apply parse_no_pattern; intros ?; rewrite Eg..].
    rewrite !parse_undecorated_direct with (whitespace := whitespace) in * by done.
    by eapply direct_more. }
  rewrite <-E. apply parse_complete; [done|]. by rewrite E.
Qed.
End Parse.

(** C4. Taking the decorator off [parse_atom] does not change what [parse]
    gives, for any grammar, start symbol and text: when the undecorated
    parse returns or raises within a bound on the depth of the recursion,
    the memoized parse gives the same outcome within that bound; what the
    memoized parse gives, the undecorated parse gives with some bound; and
    the two never give different outcomes.  (A left-recursive grammar
    makes both run out of any bound.) *)
Theorem memoization_transparent `{Builtins} (grammar : Grammar)
    (start_symbol text : string) :
  (∀ fuel,
     parse_undecorated fuel (PStr start_symbol) (PStr text) grammar ≠ OutOfFuel →
     parse fuel (PStr start_symbol) (PStr text) grammar =
       parse_undecorated fuel (PStr start_symbol) (PStr text) grammar)
  ∧ (∀ fuel,
       parse fuel (PStr start_symbol) (PStr text) grammar ≠ OutOfFuel →
       ∃ fuel', parse_undecorated fuel' (PStr start_symbol) (PStr text) grammar =
                  parse fuel (PStr start_symbol) (PStr text) grammar)
  ∧ (∀ fuel fuel',
       parse fuel (PStr start_symbol) (PStr text) grammar ≠ OutOfFuel →
       parse_undecorated fuel' (PStr start_symbol) (PStr text) grammar ≠ OutOfFuel →
       parse fuel (PStr start_symbol) (PStr text) grammar =
         parse_undecorated fuel' (PStr start_symbol) (PStr text) grammar).
Proof.
  split_and!.
  - intros fuel. by apply parse_complete.
  - intros fuel. by apply parse_sound.
  - intros fuel fuel' Hm Hu. destruct (parse_sound fuel (PStr start_symbol) (PStr text) grammar eq_refl Hm)
      as [f E].
    rewrite <-E. apply parse_undecorated_agree; [by rewrite E|done].
Qed.



(** C5. [parse_sequence(sequence, text)] runs through the atoms in order,
    calling [parse_atom] on each with the remainder left by the one
    before.  It returns the list of their trees, in order, with the last
    remainder when every atom succeeds; it returns (None, None), with no
    partial list, as soon as one fails, whatever the atoms after it would
    do; and it returns nothing else. *)
Theorem parse_sequence_in_order `{Builtins} (grammar : Grammar) (tokenizer : string)
    (sequence : list string) (text : string) (r : ParseResult) :
  sequence_returns grammar tokenizer sequence (PStr text) r
  ↔ (∃ trees rem,
       threads (atom_returns grammar tokenizer) sequence (PStr text) trees rem
       ∧ r = (PList trees, rem))
    ∨ (fails_in (atom_returns grammar tokenizer) sequence (PStr text) ∧ r = Fail).
Proof. by apply sequence_returns_threads. Qed.

(** C2. For a non-terminal [atom], [parse_atom(atom, text)] returns
    [([atom] + trees, rem)] for the first alternative, in the order of the
    grammar, whose [parse_sequence] returns a remainder [rem] that is not
    None, when the alternatives before it return None as remainder; it
    returns (None, None) exactly when every alternative does so; and with
    two alternatives of which the first succeeds, the result is the one of
    the first, whatever the second would consume. *)
Theorem parse_atom_first_alternative `{Builtins} (grammar : Grammar)
    (tokenizer : string) (atom text : string) (e : entry) :
  grammar !! atom = Some e →
  (∀ r,
     atom_returns grammar tokenizer atom (PStr text) r
     ↔ (∃ before alternative after trees rem,
          alternatives_of e = before ++ alternative :: after
          ∧ Forall (fails grammar tokenizer (PStr text)) before
          ∧ sequence_returns grammar tokenizer alternative (PStr text)
              (PList trees, rem)
          ∧ rem ≠ PNone
          ∧ r = (PList (PStr atom :: trees), rem))
       ∨ (Forall (fails grammar tokenizer (PStr text)) (alternatives_of e)
          ∧ r = Fail))
  ∧ (atom_returns grammar tokenizer atom (PStr text) Fail
     ↔ Forall (fails grammar tokenizer (PStr text)) (alternatives_of e))
  ∧ (∀ A B trees rem r,
       alternatives_of e = [A; B] →
       sequence_returns grammar tokenizer A (PStr text) (PList trees, rem) →
       rem ≠ PNone →
       atom_returns grammar tokenizer atom (PStr text) r
       ↔ r = (PList (PStr atom :: trees), rem)).
Proof.
  intros He.
  pose proof (λ r, atom_returns_first grammar tokenizer atom (PStr text) e r He eq_refl)
    as Hfirst.
  split_and!; [done|..].
  - rewrite Hfirst. split; [|by right].
    by intros [(? & ? & ? & ? & ? & _ & _ & _ & _ & ?)|[? _]].
  - intros A B trees rem r HAB HA Hrem.
    assert (atom_returns grammar tokenizer atom (PStr text)
              (PList (PStr atom :: trees), rem)) as Hreturns.
    { apply Hfirst. left. exists [], A, [B], trees, rem. by rewrite HAB. }
    split; [|by intros ->].
    intros Hr. by apply (atom_returns_functional grammar tokenizer atom (PStr text)).
Qed.

(** Two alternatives that both match: the first wins although the second
    would consume more. *)
Definition choice_grammar : Grammar :=
  <[ "E" := Alternatives [["a"]; ["a"; "b"]] ]> {[ " " := Pattern "\s*" ]}.

Lemma parse_atom_first_alternative_witness :
  choice_grammar !! "E" = Some (Alternatives [["a"]; ["a"; "b"]])
  ∧ atom_returns choice_grammar "\s*(%s)" "E" (PStr "ab")
      (PList [PStr "E"; PStr "a"], PStr "b")
  ∧ sequence_returns choice_grammar "\s*(%s)" ["a"; "b"] (PStr "ab")
      (PList [PStr "a"; PStr "b"], PStr "").
Proof.
  split; [reflexivity|]. split.
  - apply (proj2 (proj2 (parse_atom_first_alternative choice_grammar "\s*(%s)"
                           "E" "ab" (Alternatives [["a"]; ["a"; "b"]]) eq_refl))
             ["a"] ["a"; "b"] [PStr "a"] (PStr "b")); [reflexivity| |discriminate|reflexivity].
    exists 1%nat, ∅. eexists. split; [apply consistent_empty|].
    vm_compute. reflexivity.
  - exists 1%nat, ∅. eexists. split; [apply consistent_empty|].
    vm_compute. reflexivity.
Defined.


(** ** The shape of results *)

Definition is_str (v : pyval) : Prop := ∃ s, v = PStr s.

Lemma is_str_not_none v : is_str v → v ≠ PNone.
Proof. by intros [s ->]. Qed.


Section Shape.
Context `{Builtins}.
Variable grammar : Grammar.
Variable tokenizer : string.

Abbreviation direct := (direct grammar tokenizer).
Abbreviation direct_loop := (direct_loop grammar tokenizer).
Abbreviation direct_sequence := (direct_sequence grammar tokenizer).
Abbreviation direct_alternatives := (direct_alternatives grammar tokenizer).

(** A result of [parse_atom]: the failure, or a remainder that is a
    string with, for a non-terminal, the list that starts with the atom
    and, for a terminal, group 1 of a match. *)
Definition atom_result (atom : string) (r : ParseResult) : Prop :=
  r = Fail
  ∨ (is_str r.2
     ∧ match grammar !! atom with
       | Some _ => ∃ children, r.1 = PList (PStr atom :: children)
       | None => ∃ m, group m = Ret r.1
       end).

(** A result of [parse_sequence]: the failure, or a list with a
    remainder that is a string. *)
Definition sequence_result (r : ParseResult) : Prop :=
  r = Fail ∨ (is_str r.2 ∧ ∃ trees, r.1 = PList trees).

Lemma match_terminal_shape atom text r :
  match_terminal tokenizer atom text = Ret r →
  r = Fail ∨ (is_str r.2 ∧ ∃ m, group m = Ret r.1).
Proof.
  unfold match_terminal, re_match.
  destruct (str_mod tokenizer atom) as [pattern| |]; simpl; [|done..].
  destruct (re_compile pattern) as [c| |]; simpl; [|done..].
  destruct text as [|s|l|l]; simpl; try done.
  destruct (regex_match c s) as [m|]; simpl; [|intros [= <-]; by left].
  destruct (group (c, m)) as [tree| |] eqn:Eg; simpl; [|done..].
  intros [= <-]. right. split; [by eexists|by exists (c, m)].
Qed.

Lemma direct_loop_shape fuel sequence text result r :
  is_str text → direct_loop fuel sequence text result = Ret r →
  (∀ atom text r, is_str text → direct fuel [PStr atom; text] = Ret r →
     r = Fail ∨ is_str r.2) →
  sequence_result r.
Proof.
  intros Ht E Hd. revert text result Ht E.
  induction sequence as [|atom sequence IH]; intros text result Ht.
  - rewrite direct_loop_nil. intros [= <-]. right. split; [done|by eexists].
  - rewrite direct_loop_cons.
    destruct (direct fuel [PStr atom; text]) as [[tree text']| |] eqn:E1;
      simpl; [|done..].
    destruct (is_none text') eqn:En; [intros [= <-]; by left|].
    apply IH. destruct (Hd _ _ _ Ht E1) as [[= -> ->]|?]; done.
Qed.

Lemma direct_alternatives_shape fuel atom text alternatives r :
  is_str text → direct_alternatives fuel atom text alternatives = Ret r →
  (∀ atom text r, is_str text → direct fuel [PStr atom; text] = Ret r →
     r = Fail ∨ is_str r.2) →
  r = Fail ∨ (is_str r.2 ∧ ∃ children, r.1 = PList (atom :: children)).
Proof.
  intros Ht E Hd. revert E.
  induction alternatives as [|alternative alternatives IH].
  - rewrite direct_alternatives_nil. intros [= <-]. by left.
  - rewrite direct_alternatives_cons.
    destruct (direct_sequence fuel alternative text) as [[tree rem]| |] eqn:E1;
      simpl; [|done..].
    destruct (is_none rem) eqn:En; simpl; [done|].
    apply direct_loop_shape in E1 as [[= -> ->]|[Hrem [trees Htree]]]; [done| |done..].
    simpl in *. subst tree. simpl. intros [= <-]. right. split; [done|by eexists].
Qed.

Lemma direct_shape fuel atom text r :
  is_str text → direct fuel [PStr atom; text] = Ret r → atom_result atom r.
Proof.
  revert atom text r. induction fuel as [|fuel IH]; intros atom text r Ht; [done|].
  rewrite direct_S. unfold in_grammar, atom_result. simpl.
  destruct (grammar !! atom) as [e|]; simpl.
  - intros E. apply direct_alternatives_shape in E; [done..|].
    intros atom' text' r' Ht' E'. destruct (IH _ _ _ Ht' E') as [?|[? _]]; eauto.
  - apply match_terminal_shape.
Qed.


End Shape.




(** ** Terminals *)

(** What matching [pattern] at the start of [text] gives [parse_atom].
    On a match of a pattern with a group: group 1 of the match, None when
    the group took no part in it, with the text after the end of the
    match.  On a match of a pattern without a group: IndexError.  On no
    match: the failure.  A pattern that does not compile raises. *)
Definition matched `{Builtins} (pattern text : string) : outcome ParseResult :=
  r ←! re_compile pattern ;;
  match regex_match r text with
  | Some m =>
      match regex_groups r with
      | O => Raise IndexError
      | S _ =>
          Ret (match group1 m with Some s => PStr s | None => PNone end,
               PStr (Str.drop (m_end m) text))
      end
  | None => Ret Fail
  end.

Lemma match_terminal_matched `{Builtins} tokenizer atom text pattern :
  str_mod tokenizer (PStr atom) = Ret pattern →
  match_terminal tokenizer (PStr atom) (PStr text) = matched pattern text.
Proof.
  intros E. unfold match_terminal, matched, re_match. rewrite E. simpl.
  destruct (re_compile pattern) as [r| |]; simpl; [|done..].
  destruct (regex_match r text) as [m|]; simpl; [|done].
  unfold group. simpl. by destruct (regex_groups r).
Qed.

(** A terminal is looked up in the memo table or matched; either way the
    call gives what the match gives. *)
Lemma parse_atom_terminal_match `{Builtins} (grammar : Grammar)
    (tokenizer : string) (fuel : nat) (atom : string) (text : pyval)
    (cache : Cache) :
  consistent grammar tokenizer cache → grammar !! atom = None →
  hashable text = true →
  (parse_atom grammar tokenizer (S fuel) [PStr atom; text] cache).1
  = match_terminal tokenizer (PStr atom) text.
Proof.
  intros Hc He Ht. rewrite parse_atom_S, memo_hashable by done.
  destruct (cache !! [PStr atom; text]) as [r|] eqn:El.
  - destruct (Hc _ _ El) as [[|fuel'] E]; [done|].
    by rewrite direct_terminal in E.
  - unfold parse_atom_body, mbind, mlift, in_grammar. simpl. rewrite He.
    by destruct (match_terminal tokenizer (PStr atom) text).
Qed.

(** No [%] in a string. *)
Fixpoint no_percent (s : string) : bool :=
  match s with
  | EmptyString => true
  | String c s' => negb (Ascii.eqb c "%") && no_percent s'
  end.

Lemma format_tokenizer whitespace atom :
  no_percent whitespace = true →
  Model.mod_ (whitespace +:+ "(%s)") (PStr atom)
  = Ret (whitespace +:+ "(" +:+ atom +:+ ")").
Proof.
  unfold Model.mod_. induction whitespace as [|c whitespace IH]; simpl.
  - done.
  - intros [Hc Hw]%andb_true_iff. apply negb_true_iff in Hc. rewrite Hc.
    by rewrite IH.
Qed.

(** C3, as the code has it.  For an atom that is not a key of the grammar
    and a white-space pattern without [%], [parse_atom] matches the pattern
    made of the white-space pattern followed by the atom in parentheses at
    the start of the text.  On a match it returns group 1 with the text
    from the end of the whole match on when the pattern has a group, and
    raises IndexError when it has none: an atom such as [?:a] makes the
    parentheses around it a group without a number.  On no match it
    returns (None, None); a pattern that does not compile raises.  This
    is what [parse] gives for such a start symbol and what every inner
    call gives. *)
Theorem parse_atom_terminal `{Builtins} (grammar : Grammar)
    (whitespace atom text : string) (fuel : nat) (cache : Cache) :
  (∀ fmt arg, str_mod fmt arg = Model.mod_ fmt arg) →
  no_percent whitespace = true →
  grammar !! " " = Some (Pattern whitespace) →
  grammar !! atom = None →
  parse (S fuel) (PStr atom) (PStr text) grammar
  = matched (whitespace +:+ "(" +:+ atom +:+ ")") text
  ∧ (consistent grammar (whitespace +:+ "(%s)") cache →
     (parse_atom grammar (whitespace +:+ "(%s)") (S fuel)
        [PStr atom; PStr text] cache).1
     = matched (whitespace +:+ "(" +:+ atom +:+ ")") text).
Proof.
  intros Hmod Hw Hg He.
  assert (∀ cache, consistent grammar (whitespace +:+ "(%s)") cache →
            (parse_atom grammar (whitespace +:+ "(%s)") (S fuel)
               [PStr atom; PStr text] cache).1
            = matched (whitespace +:+ "(" +:+ atom +:+ ")") text) as Hcall.
  { intros c Hc. rewrite parse_atom_terminal_match by done.
    apply match_terminal_matched. rewrite Hmod. by apply format_tokenizer. }
  split; [|apply Hcall].
  unfold parse. rewrite parse_pattern with (whitespace := whitespace) by done.
  apply (Hcall ∅), consistent_empty.
Qed.

Lemma parse_atom_terminal_witness :
  (∀ fmt arg, str_mod fmt arg = Model.mod_ fmt arg)
  ∧ no_percent "\s*" = true
  ∧ ({[ " " := Pattern "\s*" ]} : Grammar) !! " " = Some (Pattern "\s*")
  ∧ ({[ " " := Pattern "\s*" ]} : Grammar) !! "a+" = None
  ∧ parse 1 (PStr "a+") (PStr "  aab") {[ " " := Pattern "\s*" ]}
    = Ret (PStr "aa", PStr "b").
Proof.
  split_and!; [reflexivity..|].
  refine (eq_trans (proj1 (parse_atom_terminal {[ " " := Pattern "\s*" ]}
                             "\s*" "a+" "  aab" 0 ∅ _ _ _ _)) _);
    [reflexivity..|].
  vm_compute. reflexivity.
Defined.

(** An atom that takes the number away from the parentheses around it:
    the pattern has no group 1, so [m.group(1)] raises on a match; without
    a match the call fails as for any terminal. *)
Example terminal_without_group :
  parse 1 (PStr "?:a") (PStr "a") {[ " " := Pattern "\s*" ]} = Raise IndexError
  ∧ parse 1 (PStr "?:a") (PStr "b") {[ " " := Pattern "\s*" ]} = Ret Fail.
Proof. split; vm_compute; reflexivity. Qed.

(** A white-space pattern with [%%]: formatting turns it into one [%], so
    the pattern matched is not the white-space pattern followed by the
    atom in parentheses. *)
Lemma percent_in_whitespace :
  ({[ " " := Pattern "%%" ]} : Grammar) !! "a" = None
  ∧ parse 1 (PStr "a") (PStr "%a") {[ " " := Pattern "%%" ]}
    ≠ matched ("%%" +:+ "(" +:+ "a" +:+ ")") "%a".
Proof. split; [reflexivity|]. vm_compute. discriminate. Qed.

(** ** The fallback of memo *)

(** With an argument that cannot be hashed, the wrapper calls the function
    on the tuple of the arguments, as its one argument. *)
Lemma memo_unhashable_call `{Builtins} (f : list pyval → M ParseResult)
    (args : list pyval) (cache : Cache) :
  hashable (PTuple args) = false → memo f args cache = f [PTuple args] cache.
Proof. unfold memo. by intros ->. Qed.

(** For [parse_atom], which takes two arguments, that call raises. *)
Lemma parse_atom_unhashable `{Builtins} (grammar : Grammar) (tokenizer : string)
    (fuel : nat) (args : list pyval) (cache : Cache) :
  hashable (PTuple args) = false →
  parse_atom grammar tokenizer (S fuel) args cache = (Raise TypeError, cache).
Proof. intros Hh. by rewrite parse_atom_S, memo_unhashable_call. Qed.

(** C1 fails on the code.  A non-terminal without alternatives and a text
    that is a list: the call through memo raises TypeError, where the
    function applied to the same two arguments returns (None, None). *)
Lemma memo_fallback_raises :
  let grammar : Grammar := <[ "S" := Alternatives [] ]> {[ " " := Pattern "\s*" ]} in
  parse 1 (PStr "S") (PList []) grammar = Raise TypeError
  ∧ parse_undecorated 1 (PStr "S") (PList []) grammar = Ret Fail.
Proof. split; vm_compute; reflexivity. Qed.

(** ** The JSON fixture *)

Definition number_tree : pyval :=
  PList [PStr "value";
         PList [PStr "number";
                PList [PStr "int"; PStr "-123"];
                PList [PStr "frac"; PStr ".456"];
                PList [PStr "exp"; PStr "e+789"]]].

(** C9. [json_parse('-123.456e+789')] returns the tree of the test with
    the empty remainder, once the bound on the depth of the recursion is
    at least 4. *)
Theorem json_parse_number (fuel : nat) :
  (4 ≤ fuel)%nat →
  json_parse fuel (PStr "-123.456e+789") = Ret (number_tree, PStr "").
Proof.
  intros Hfuel.
  assert ((G ←! JSON ;; parse_undecorated 4 (PStr "value") (PStr "-123.456e+789") G)
          = Ret (number_tree, PStr "")) as E by (vm_compute; reflexivity).
  unfold json_parse. destruct JSON as [G| |]; simpl in *; [|done..].
  rewrite <-E. apply parse_more; [done..|]. by rewrite E.
Qed.

Lemma json_parse_number_witness :
  (4 ≤ 1000)%nat
  ∧ json_parse 1000 (PStr "-123.456e+789") = Ret (number_tree, PStr "").
Proof. split; [lia | apply (json_parse_number 1000); lia]. Defined.


(** ** Facts about the string builtins *)

#[local] Arguments String.append !_ _ / : simpl nomatch.

Module StrFacts.
Import Str.

Lemma append_nil_r (s : string) : s +:+ "" = s.
Proof. induction s as [|c s IH]; simpl; congruence. Qed.

Lemma append_assoc (a b c : string) : (a +:+ b) +:+ c = a +:+ (b +:+ c).
Proof. induction a as [|x a IH]; simpl; congruence. Qed.

Lemma append_snoc (a : string) (c : ascii) (b : string) :
  (a +:+ String c "") +:+ b = a +:+ String c b.
Proof. by rewrite append_assoc. Qed.

(** *** strip *)

(** [s] starts with a character that is not white space. *)
Definition starts_black (s : string) : Prop :=
  match s with String c _ => isspace c = false | EmptyString => False end.

Fixpoint blank (s : string) : bool :=
  match s with
  | EmptyString => true
  | String c s' => isspace c && blank s'
  end.

Lemma lstrip_cases s : lstrip s = "" ∨ starts_black (lstrip s).
Proof.
  induction s as [|c s IH]; simpl; [by left|].
  destruct (isspace c) eqn:Ec; [done|]. by right.
Qed.

Lemma lstrip_black s : starts_black s → lstrip s = s.
Proof. destruct s as [|c s]; simpl; [done|]. by intros ->. Qed.

Lemma rstrip_black s : starts_black s → starts_black (rstrip s).
Proof.
  destruct s as [|c s]; simpl; [done|]. intros Hc.
  destruct (rstrip s); simpl; [by rewrite Hc|done].
Qed.

Lemma rstrip_idem s : rstrip (rstrip s) = rstrip s.
Proof.
  induction s as [|c s IH]; simpl; [done|].
  destruct (rstrip s) as [|d r] eqn:Er.
  - destruct (isspace c) eqn:Ec; simpl; [done|]. by rewrite Ec.
  - simpl. simpl in IH. by rewrite IH.
Qed.

Lemma strip_cases s : strip s = "" ∨ starts_black (strip s).
Proof.
  unfold strip. destruct (lstrip_cases s) as [->|Hb]; [by left|].
  right. by apply rstrip_black.
Qed.

Lemma strip_idem s : strip (strip s) = strip s.
Proof.
  destruct (strip_cases s) as [->|Hb]; [done|].
  unfold strip at 1. rewrite lstrip_black by done.
  unfold strip. apply rstrip_idem.
Qed.

Lemma strip_black s : starts_black s → starts_black (strip s).
Proof.
  intros Hb. unfold strip. rewrite lstrip_black by done. by apply rstrip_black.
Qed.

Lemma starts_black_nonempty s : starts_black s → nonempty s = true.
Proof. by destruct s. Qed.

Lemma starts_black_not_space s : starts_black s → s ≠ " ".
Proof. intros Hb ->. simpl in Hb. by vm_compute in Hb. Qed.

(** A string that [rstrip] leaves as it is has no white space at its
    end, and so for each of its suffixes. *)
Lemma rstrip_suffix a b : rstrip (a +:+ b) = a +:+ b → rstrip b = b.
Proof.
  induction a as [|c a IH]; simpl; [done|].
  destruct (rstrip (a +:+ b)) as [|d r] eqn:Er.
  - destruct (isspace c); intros [= E]. destruct a; simpl in *; [by subst|done].
  - intros [= E]. by apply IH.
Qed.

Lemma rstrip_strip s : rstrip (strip s) = strip s.
Proof. apply rstrip_idem. Qed.

Lemma rstrip_blank s : blank s = true → rstrip s = "".
Proof.
  induction s as [|c s IH]; simpl; [done|].
  intros [Hc Hs]%andb_true_iff. by rewrite IH, Hc.
Qed.

Lemma lstrip_empty s : lstrip s = "" → blank s = true.
Proof.
  induction s as [|c s IH]; simpl; [done|].
  destruct (isspace c); [done|]. done.
Qed.

Lemma lstrip_suffix s : ∃ a, s = a +:+ lstrip s.
Proof.
  induction s as [|c s [a IH]]; simpl; [by exists ""|].
  destruct (isspace c).
  - exists (String c a). simpl. by rewrite <-IH.
  - by exists "".
Qed.

(** A non-empty string without white space at its end keeps something
    when it is stripped. *)
Lemma strip_nonempty s : rstrip s = s → s ≠ "" → strip s ≠ "".
Proof.
  intros Hr Hs. unfold strip. destruct (lstrip_suffix s) as [a Ha].
  assert (rstrip (lstrip s) = lstrip s) as ->
    by (apply (rstrip_suffix a); congruence).
  intros El. apply lstrip_empty, rstrip_blank in El. congruence.
Qed.

(** *** The first occurrence of a separator *)

(** [s.partition(sep)], when [sep] occurs in [s]: the text before the
    first occurrence and the text after it. *)
Fixpoint partition (sep s : string) : option (string * string) :=
  if startswith sep s then Some ("", drop (String.length sep) s)
  else match s with
       | EmptyString => None
       | String c s' =>
           match partition sep s' with
           | Some (a, b) => Some (String c a, b)
           | None => None
           end
       end.

Lemma startswith_drop sep s :
  startswith sep s = true → s = sep +:+ drop (String.length sep) s.
Proof.
  revert s. induction sep as [|c sep IH]; intros s; simpl; [done|].
  destruct s as [|d s]; [done|].
  intros [Hc Hs]%andb_true_iff. apply Ascii.eqb_eq in Hc as ->.
  f_equal. by apply IH.
Qed.

Lemma startswith_append sep b : startswith sep (sep +:+ b) = true.
Proof.
  induction sep as [|c sep IH]; simpl; [done|].
  by rewrite Ascii.eqb_refl, IH.
Qed.

Lemma partition_Some sep s a b :
  partition sep s = Some (a, b) → s = a +:+ sep +:+ b.
Proof.
  revert a. induction s as [|c s IH]; intros a; simpl.
  - destruct (startswith sep "") eqn:Es; [|done].
    intros [= <- <-]. by apply startswith_drop in Es.
  - destruct (startswith sep (String c s)) eqn:Es.
    + intros [= <- <-]. by apply startswith_drop in Es.
    + destruct (partition sep s) as [[a' b']|] eqn:Ep; [|done].
      intros [= <- <-]. simpl. f_equal. by apply IH.
Qed.

(** The occurrence found is the first one. *)
Lemma partition_first sep s a b a' b' :
  partition sep s = Some (a, b) → s = a' +:+ sep +:+ b' →
  (String.length a ≤ String.length a')%nat.
Proof.
  revert a a'. induction s as [|c s IH]; intros a a'; simpl.
  - destruct (startswith sep "") eqn:Es; [|done]. intros [= <- <-] _. simpl. lia.
  - destruct (startswith sep (String c s)) eqn:Es.
    + intros [= <- <-] _. simpl. lia.
    + destruct (partition sep s) as [[a0 b0]|] eqn:Ep; [|done].
      intros [= <- <-] E. destruct a' as [|c' a']; simpl in E.
      * by rewrite E, startswith_append in Es.
      * injection E as -> E. simpl. apply le_n_S. by eapply IH.
Qed.

Lemma partition_None sep s :
  (∀ a b, s ≠ a +:+ sep +:+ b) → partition sep s = None.
Proof.
  intros Hs. destruct (partition sep s) as [[a b]|] eqn:Ep; [|done].
  by apply partition_Some, Hs in Ep.
Qed.

Lemma partition_startswith sep s :
  startswith sep s = true →
  partition sep s = Some ("", drop (String.length sep) s).
Proof. destruct s; simpl; by intros ->. Qed.

Lemma partition_not_startswith sep c s :
  startswith sep (String c s) = false →
  partition sep (String c s)
  = match partition sep s with
    | Some (a, b) => Some (String c a, b)
    | None => None
    end.
Proof. simpl. by intros ->. Qed.

Lemma partition_append sep a b :
  ∃ a' b', partition sep (a +:+ sep +:+ b) = Some (a', b').
Proof.
  induction a as [|c a (a' & b' & IH)].
  - change ("" +:+ sep +:+ b) with (sep +:+ b).
    rewrite partition_startswith by apply startswith_append. by eauto.
  - change (String c a +:+ sep +:+ b) with (String c (a +:+ sep +:+ b)).
    destruct (startswith sep (String c (a +:+ sep +:+ b))) eqn:Es.
    + rewrite partition_startswith by done. by eauto.
    + rewrite partition_not_startswith, IH by done. by eauto.
Qed.
End StrFacts.



Module SplitFacts.
Import Str StrFacts.

Lemma drop_empty n : drop n "" = "".
Proof. by destruct n. Qed.

(** Passing the rest of a separator is dropping it. *)
Lemma split_sep_go_skip sep maxsplit cur skip s :
  split_sep_go sep maxsplit cur skip s
  = split_sep_go sep maxsplit cur 0 (drop skip s).
Proof.
  revert skip. induction s as [|c s IH]; intros skip.
  - by rewrite drop_empty.
  - destruct skip as [|skip]; [done|]. simpl. apply IH.
Qed.

(** [split] cuts at the first occurrence of the separator, then goes on
    with the text after it and one cut less. *)
Lemma split_sep_go_partition sep maxsplit cur s :
  sep ≠ "" →
  split_sep_go sep maxsplit cur 0 s
  = match (if maxsplit =? 0 then None else partition sep s) with
    | Some (a, b) => (cur +:+ a) :: split_sep_go sep (maxsplit - 1) "" 0 b
    | None => [cur +:+ s]
    end.
Proof.
  intros Hsep. revert cur. induction s as [|c s IH]; intros cur.
  - destruct sep as [|d sep]; [done|]. simpl.
    destruct (maxsplit =? 0); by rewrite append_nil_r.
  - change (split_sep_go sep maxsplit cur 0 (String c s))
      with (if negb (maxsplit =? 0) && startswith sep (String c s)
            then cur :: split_sep_go sep (maxsplit - 1) ""
                          (Nat.pred (String.length sep)) s
            else split_sep_go sep maxsplit (cur +:+ String c "") 0 s).
    destruct (maxsplit =? 0) eqn:Em; simpl negb; simpl andb.
    + by rewrite IH, append_snoc.
    + destruct (startswith sep (String c s)) eqn:Es.
      * rewrite partition_startswith by done. rewrite append_nil_r.
        rewrite split_sep_go_skip. destruct sep as [|d sep]; done.
      * rewrite partition_not_startswith by done. rewrite IH.
        destruct (partition sep s) as [[a b]|]; by rewrite append_snoc.
Qed.

Lemma split_sep_none sep maxsplit s :
  sep ≠ "" → partition sep s = None → split_sep sep maxsplit s = [s].
Proof.
  intros Hsep Hp. unfold split_sep. rewrite split_sep_go_partition by done.
  rewrite Hp. by destruct (maxsplit =? 0).
Qed.

Lemma split_sep_once sep s a b :
  sep ≠ "" → partition sep s = Some (a, b) → split_sep sep 1 s = [a; b].
Proof.
  intros Hsep Hp. unfold split_sep. rewrite split_sep_go_partition by done.
  simpl. rewrite Hp. by rewrite split_sep_go_partition by done.
Qed.

(** The first piece starts as the text starts, when the text does not
    start with the separator. *)
Lemma split_sep_head sep maxsplit c s :
  sep ≠ "" → startswith sep (String c s) = false →
  ∃ p ps, split_sep sep maxsplit (String c s) = String c p :: ps.
Proof.
  intros Hsep Hs. unfold split_sep. rewrite split_sep_go_partition by done.
  rewrite partition_not_startswith by done.
  destruct (maxsplit =? 0); [by eauto|].
  destruct (partition sep s) as [[a b]|]; by eauto.
Qed.

Lemma startswith_black sep s :
  starts_black s → (∃ c sep', sep = String c sep' ∧ isspace c = true) →
  startswith sep s = false.
Proof.
  intros Hs (c & sep' & -> & Hc). destruct s as [|d s]; [done|]. simpl in *.
  destruct (Ascii.eqb_spec c d) as [->|]; [congruence|done].
Qed.
End SplitFacts.

(** ** Facts about split *)

Section Split.
Import StrFacts SplitFacts.

(** The separators of [grammar] start with white space and are not
    empty. *)
Definition spaced (sep : string) : Prop :=
  ∃ c sep', sep = String c sep' ∧ Str.isspace c = true.

Lemma spaced_arrow : spaced " => ".
Proof. by exists " "%char, "=> ". Qed.

Lemma spaced_bar : spaced " | ".
Proof. by exists " "%char, "| ". Qed.

Lemma spaced_newline : spaced newline.
Proof. by exists (ascii_of_nat 10), "". Qed.

Lemma spaced_nonempty sep : spaced sep → sep ≠ "".
Proof. by intros (c & sep' & -> & _). Qed.

Lemma split_sep_eq text sep maxsplit :
  sep ≠ "" →
  split text (Some sep) maxsplit
  = Ret (map Str.strip (filter (λ t, Is_true (Str.nonempty t))
                      (Str.split_sep sep maxsplit (Str.strip text)))).
Proof. intros Hsep. unfold split, Str.split. by destruct sep. Qed.

(** Each piece that [split] returns is stripped. *)
Lemma split_stripped text sep maxsplit pieces x :
  split text sep maxsplit = Ret pieces → x ∈ pieces → Str.strip x = x.
Proof.
  unfold split. destruct (Str.split sep maxsplit (Str.strip text)) as [ps| |];
    simpl; [|done..].
  intros [= <-] (y & -> & _)%list_elem_of_fmap. apply strip_idem.
Qed.

(** A text that starts with a character that is not white space gives
    a first piece that starts with it. *)
Lemma split_head text sep maxsplit :
  spaced sep → starts_black text → Str.strip text = text →
  ∃ x xs, split text (Some sep) maxsplit = Ret (x :: xs) ∧ starts_black x.
Proof.
  intros Hsep Hb Hs. rewrite split_sep_eq by by apply spaced_nonempty.
  rewrite Hs. pose proof (startswith_black sep text Hb Hsep) as Hstart.
  destruct text as [|c text]; [done|].
  destruct (split_sep_head sep maxsplit c text) as (p & ps & ->);
    [by apply spaced_nonempty|done|].
  rewrite filter_cons_True by done. simpl.
  eexists _, _. split; [done|]. by apply strip_black.
Qed.

Lemma split_empty sep maxsplit :
  sep ≠ "" → split "" (Some sep) maxsplit = Ret [].
Proof. intros Hsep. rewrite split_sep_eq by done. by destruct sep. Qed.
End Split.

(** ** The lines of a description *)

Section Lines.
Import StrFacts SplitFacts.

(** What [grammar] reads off one line: the key and its alternatives. *)
Definition rule (line : string) : outcome (string * list (list string)) :=
  pieces ←! split line (Some " => ") 1 ;;
  match pieces with
  | [lhs; rhs] =>
      alternatives ←! split rhs (Some " | ") (-1) ;;
      alts ←! omap (λ a, split a None (-1)) alternatives ;;
      Ret (lhs, alts)
  | _ => Raise ValueError
  end.

Lemma grammar_lines_cons line rest (G : Grammar) :
  grammar_lines (line :: rest) G
  = (r ←! rule line ;; grammar_lines rest (<[r.1 := Alternatives r.2]> G)).
Proof.
  unfold rule. cbn [grammar_lines].
  destruct (split line (Some " => ") 1) as [pieces| |]; [|done..].
  cbn [obind].
  destruct pieces as [|lhs [|rhs [|? ?]]]; try done.
  destruct (split rhs (Some " | ") (-1)) as [alternatives| |]; [|done..].
  cbn [obind].
  by destruct (omap _ alternatives).
Qed.

Lemma omap_split alternatives :
  ∃ alts, omap (λ a, split a None (-1)) alternatives = Ret alts
          ∧ length alts = length alternatives.
Proof.
  induction alternatives as [|a alternatives (alts & E & Hl)]; [by exists []|].
  simpl. rewrite E. simpl. eexists. split; [done|]. simpl. by rewrite Hl.
Qed.

(** A line gives a rule or raises ValueError. *)
Lemma rule_outcome line : rule line = Raise ValueError ∨ ∃ r, rule line = Ret r.
Proof.
  unfold rule. rewrite split_sep_eq by done. cbn [obind].
  destruct (map _ _) as [|lhs [|rhs [|? ?]]]; try by left.
  rewrite split_sep_eq by done. cbn [obind].
  destruct (omap_split
              (map Str.strip (filter (λ t, Is_true (Str.nonempty t))
                 (Str.split_sep " | " (-1) (Str.strip rhs))))) as (alts & -> & _).
  right. by eexists.
Qed.

Lemma rule_Ret line lhs alts :
  rule line = Ret (lhs, alts) →
  ∃ rhs, split line (Some " => ") 1 = Ret [lhs; rhs].
Proof.
  unfold rule.
  destruct (split line (Some " => ") 1) as [pieces| |]; cbn [obind]; [|done..].
  destruct pieces as [|lhs' [|rhs [|? ?]]]; try done.
  destruct (split rhs (Some " | ") (-1)) as [alternatives| |]; cbn [obind];
    [|done..].
  destruct (omap _ alternatives); cbn [obind]; [|done..].
  intros [= -> _]. by exists rhs.
Qed.

(** The text that [split] cuts is the stripped line. *)
Lemma split_strip line sep maxsplit :
  split (Str.strip line) sep maxsplit = split line sep maxsplit.
Proof. unfold split. by rewrite strip_idem. Qed.

Lemma strip_rstrip s : Str.strip s = s → Str.rstrip s = s.
Proof. intros <-. apply rstrip_idem. Qed.

(** A stripped line with the separator: the two sides of its first
    occurrence, stripped; neither is empty. *)
Lemma split_line line a b :
  Str.strip line = line → partition " => " line = Some (a, b) →
  split line (Some " => ") 1 = Ret [Str.strip a; Str.strip b]
  ∧ starts_black (Str.strip a) ∧ starts_black (Str.strip b).
Proof.
  intros Hs Hp. pose proof (partition_Some _ _ _ _ Hp) as Hline.
  assert (starts_black line) as Hb.
  { destruct (strip_cases line) as [E|Hb]; [|by rewrite <-Hs].
    rewrite Hs in E. rewrite E in Hp. by vm_compute in Hp. }
  assert (starts_black a) as Ha.
  { pose proof (startswith_black " => " line Hb spaced_arrow) as Hstart.
    destruct line as [|c line]; [done|].
    rewrite partition_not_startswith in Hp by done.
    destruct (partition " => " line) as [[a' b']|]; [|done].
    by injection Hp as <- <-. }
  assert (Str.rstrip b = b ∧ b ≠ "") as [Hrb Hbne].
  { apply strip_rstrip in Hs. split.
    - apply (rstrip_suffix (a +:+ " => ")). rewrite append_assoc. congruence.
    - intros ->. rewrite Hline in Hs.
      assert (Str.rstrip " " = " ") as E; [|done].
      apply (rstrip_suffix (a +:+ " =>")). rewrite append_assoc.
      by rewrite append_nil_r in Hs. }
  rewrite split_sep_eq, Hs by done.
  rewrite (split_sep_once " => " line a b) by done.
  rewrite !filter_cons_True; [|by destruct b|by apply Is_true_true, starts_black_nonempty].
  split_and!; [done|by apply strip_black|].
  destruct (strip_cases b) as [E|?]; [|done]. by apply strip_nonempty in E.
Qed.

Lemma split_line_none line :
  Str.strip line = line → partition " => " line = None →
  rule line = Raise ValueError.
Proof.
  intros Hs Hp. unfold rule. rewrite split_sep_eq, Hs by done.
  rewrite split_sep_none by done.
  destruct (decide (Is_true (Str.nonempty line))).
  - by rewrite filter_cons_True by done.
  - by rewrite filter_cons_False by done.
Qed.

(** The text between the separators [" | "]. *)
Definition groups (rhs : string) : list string := Str.split_sep " | " (-1) rhs.

Lemma rule_line line a b :
  Str.strip line = line → partition " => " line = Some (a, b) →
  ∃ alts,
    rule line = Ret (Str.strip a, alts)
    ∧ length alts
      = length (filter (λ t, Is_true (Str.nonempty t)) (groups (Str.strip b))).
Proof.
  intros Hs Hp. destruct (split_line line a b Hs Hp) as (E & _ & _).
  unfold rule. rewrite E. cbn [obind]. rewrite split_sep_eq by done.
  cbn [obind]. rewrite strip_idem.
  destruct (omap_split
              (map Str.strip (filter (λ t, Is_true (Str.nonempty t))
                 (Str.split_sep " | " (-1) (Str.strip b))))) as (alts & -> & Hl).
  exists alts. split; [done|]. by rewrite Hl, length_map.
Qed.

(** The lines that [grammar] runs through. *)
Definition description_lines (description : string) : list string :=
  map Str.strip
    (filter (λ t, Is_true (Str.nonempty t))
       (Str.split_sep newline (-1)
          (Str.strip (Str.replace_char tab " " description)))).

Lemma grammar_eq description whitespace :
  grammar description whitespace
  = grammar_lines (description_lines description) {[ " " := Pattern whitespace ]}.
Proof. done. Qed.

Lemma description_lines_stripped description line :
  line ∈ description_lines description → Str.strip line = line.
Proof. intros (y & -> & _)%list_elem_of_fmap. apply strip_idem. Qed.
End Lines.

(** ** The dict that [grammar] builds *)

Section Compile.
Import StrFacts SplitFacts.

Lemma grammar_lines_Ret line rest (G0 G : Grammar) :
  grammar_lines (line :: rest) G0 = Ret G →
  ∃ r, rule line = Ret r
       ∧ grammar_lines rest (<[r.1 := Alternatives r.2]> G0) = Ret G.
Proof.
  rewrite grammar_lines_cons. destruct (rule line) as [r| |]; [|done..].
  by exists r.
Qed.

(** One line that does not unpack stops the loop, wherever it stands. *)
Lemma grammar_lines_raise lines line (G : Grammar) :
  line ∈ lines → rule line = Raise ValueError →
  grammar_lines lines G = Raise ValueError.
Proof.
  intros Hin Hr. revert G. induction lines as [|l lines IH]; intros G.
  - by apply elem_of_nil in Hin.
  - rewrite grammar_lines_cons. apply elem_of_cons in Hin as [<-|Hin].
    + by rewrite Hr.
    + destruct (rule_outcome l) as [->|[r ->]]; [done|]. cbn [obind].
      by apply IH.
Qed.

Lemma grammar_lines_total lines (G0 : Grammar) :
  Forall (λ line, ∃ r, rule line = Ret r) lines →
  ∃ G, grammar_lines lines G0 = Ret G.
Proof.
  intros Hall. revert G0.
  induction Hall as [|line lines [r Hr] _ IH]; intros G0; [by exists G0|].
  rewrite grammar_lines_cons, Hr. cbn [obind]. apply IH.
Qed.

(** A key that no line assigns keeps its value. *)
Lemma grammar_lines_other lines (G0 G : Grammar) k :
  grammar_lines lines G0 = Ret G →
  (∀ line r, line ∈ lines → rule line = Ret r → r.1 ≠ k) →
  G !! k = G0 !! k.
Proof.
  revert G0. induction lines as [|line lines IH]; intros G0.
  - by intros [= ->].
  - intros (r & Hr & Hrest)%grammar_lines_Ret Hk.
    rewrite (IH _ Hrest).
    + apply lookup_insert_ne. apply (Hk line); [by left|done].
    + intros line' r' Hin. apply Hk. by right.
Qed.

(** The value of a key is the one that the last line with this key
    assigned. *)
Lemma grammar_lines_last lines (G0 G : Grammar) i line r :
  grammar_lines lines G0 = Ret G →
  lines !! i = Some line → rule line = Ret r →
  (∀ j line' r', (i < j)%nat → lines !! j = Some line' →
                 rule line' = Ret r' → r'.1 ≠ r.1) →
  G !! r.1 = Some (Alternatives r.2).
Proof.
  revert G0 i. induction lines as [|l lines IH]; intros G0 i; [done|].
  intros (r0 & Hr0 & Hrest)%grammar_lines_Ret Hi Hr Hlater.
  destruct i as [|i]; simpl in Hi.
  - injection Hi as ->. rewrite Hr in Hr0. injection Hr0 as <-.
    rewrite (grammar_lines_other _ _ _ _ Hrest).
    + apply lookup_insert_eq.
    + intros line' r' (j & Hj)%list_elem_of_lookup_1.
      apply (Hlater (S j)); [lia|done].
  - apply (IH _ i Hrest Hi Hr). intros j line' r' Hij.
    apply (Hlater (S j)). lia.
Qed.

(** The two sides of a line: the text before the first [" => "] and
    the text after it, stripped. *)
Definition sides (line : string) : option (string * string) :=
  match partition " => " line with
  | Some (a, b) => Some (Str.strip a, Str.strip b)
  | None => None
  end.

Lemma sides_first line lhs rhs :
  sides line = Some (lhs, rhs) →
  ∃ a b, line = a +:+ " => " +:+ b
         ∧ (∀ a' b', line = a' +:+ " => " +:+ b' →
                     (String.length a ≤ String.length a')%nat)
         ∧ lhs = Str.strip a ∧ rhs = Str.strip b.
Proof.
  unfold sides. destruct (partition " => " line) as [[a b]|] eqn:Hp; [|done].
  intros [= <- <-]. exists a, b. split_and!; [|intros a' b' E|done..].
  - by apply partition_Some.
  - by apply (partition_first _ _ _ _ _ _ Hp E).
Qed.

Lemma rule_sides line lhs rhs :
  Str.strip line = line → sides line = Some (lhs, rhs) →
  ∃ alts,
    rule line = Ret (lhs, alts)
    ∧ split line (Some " => ") 1 = Ret [lhs; rhs]
    ∧ length alts
      = length (filter (λ t, Is_true (Str.nonempty t)) (groups rhs)).
Proof.
  intros Hs. unfold sides.
  destruct (partition " => " line) as [[a b]|] eqn:Hp; [|done].
  intros [= <- <-]. destruct (rule_line line a b Hs Hp) as (alts & Hr & Hl).
  exists alts. split_and!; [done| |done].
  by destruct (split_line line a b Hs Hp) as (E & _ & _).
Qed.

Lemma rule_sides_inv line r :
  Str.strip line = line → rule line = Ret r →
  ∃ rhs, sides line = Some (r.1, rhs).
Proof.
  intros Hs Hr. unfold sides.
  destruct (partition " => " line) as [[a b]|] eqn:Hp.
  - destruct (rule_line line a b Hs Hp) as (alts & Hr' & _).
    rewrite Hr in Hr'. injection Hr' as ->. by eexists.
  - by rewrite split_line_none in Hr.
Qed.

(** The line [line] assigns the key [lhs]. *)
Definition defines (lhs line : string) : Prop := fst <$> sides line = Some lhs.

#[local] Instance defines_dec lhs line : Decision (defines lhs line).
Proof. unfold defines. apply _. Defined.

Lemma defines_sides lhs line : defines lhs line ↔ ∃ rhs, sides line = Some (lhs, rhs).
Proof.
  unfold defines. destruct (sides line) as [[l r]|]; simpl; split.
  - intros [= ->]. by exists r.
  - by intros (rhs & [= -> _]).
  - done.
  - by intros (rhs & ?).
Qed.

(** Each line that assigns a key is followed by a last one that does. *)
Lemma last_definer (lines : list string) (lhs : string) (i : nat)
    (line : string) :
  lines !! i = Some line → defines lhs line →
  ∃ j line', (i ≤ j)%nat ∧ lines !! j = Some line' ∧ defines lhs line'
     ∧ ∀ k line'', (j < k)%nat → lines !! k = Some line'' → ¬ defines lhs line''.
Proof.
  revert i line. induction lines as [|l lines IH]; intros i line; [done|].
  intros Hi Hd.
  assert (∀ i', lines !! i' = Some line →
            ∃ j line', (S i' ≤ j)%nat ∧ (l :: lines) !! j = Some line'
              ∧ defines lhs line'
              ∧ ∀ k line'', (j < k)%nat → (l :: lines) !! k = Some line'' →
                            ¬ defines lhs line'') as Hrest.
  { intros i' Hi'. destruct (IH i' _ Hi' Hd) as (j & line' & Hij & Hj & Hd' & Hl).
    exists (S j), line'. split_and!; [lia|done..|].
    intros [|k] line'' Hk; [lia|]. apply Hl. lia. }
  destruct i as [|i]; simpl in Hi; [|by apply Hrest].
  injection Hi as ->.
  destruct (decide (Exists (defines lhs) lines)) as [He|Hne].
  - apply Exists_exists in He as (line' & Hin & Hd').
    apply list_elem_of_lookup_1 in Hin as (i' & Hi').
    clear Hrest. destruct (IH i' _ Hi' Hd') as (j & l' & _ & Hj & Hdj & Hl).
    exists (S j), l'. split_and!; [lia|done..|].
    intros [|k] line'' Hk; [lia|]. apply Hl. lia.
  - exists 0%nat, line. split_and!; [done..|].
    intros [|k] line'' Hk; [lia|]. simpl. intros Hk' Hd'.
    apply Hne, Exists_exists. exists line''. split; [|done].
    by eapply list_elem_of_lookup_2.
Qed.

(** A description in which each line has the separator and no group
    between two bars is the empty string. *)
Definition well_formed_line (line : string) : bool :=
  match sides line with
  | Some (_, rhs) => forallb Str.nonempty (groups rhs)
  | None => false
  end.

Definition well_formed (description : string) : bool :=
  forallb well_formed_line (description_lines description).

Lemma filter_nonempty l :
  forallb Str.nonempty l = true →
  filter (λ t, Is_true (Str.nonempty t)) l = l.
Proof.
  induction l as [|x l IH]; simpl; [done|].
  intros [Hx Hl]%andb_true_iff.
  rewrite filter_cons_True by by apply Is_true_true. by rewrite IH.
Qed.

Lemma well_formed_lines description line :
  well_formed description = true → line ∈ description_lines description →
  Str.strip line = line
  ∧ ∃ lhs rhs, sides line = Some (lhs, rhs)
               ∧ forallb Str.nonempty (groups rhs) = true.
Proof.
  intros Hwf Hin. split; [by eapply description_lines_stripped|].
  unfold well_formed in Hwf. rewrite forallb_forall in Hwf.
  apply list_elem_of_In, Hwf in Hin. unfold well_formed_line in Hin.
  destruct (sides line) as [[lhs rhs]|]; [|done]. by exists lhs, rhs.
Qed.

(** The left side that [split] returns for a line. *)
Lemma split_lhs line lhs rhs :
  split line (Some " => ") 1 = Ret [lhs; rhs] →
  starts_black lhs ∧ Str.strip lhs = lhs.
Proof.
  intros E. split; [|by eapply split_stripped; [done|left]].
  rewrite <-split_strip in E.
  destruct (strip_cases line) as [E0|Hb].
  - rewrite E0 in E. by rewrite split_empty in E.
  - destruct (split_head (Str.strip line) " => " 1 spaced_arrow Hb
                (strip_idem line)) as (x & xs & E' & Hx).
    rewrite E in E'. by simplify_eq.
Qed.

(** The two pieces that [split] returns for a line are its sides. *)
Lemma split_sides line lhs rhs :
  Str.strip line = line →
  split line (Some " => ") 1 = Ret [lhs; rhs] →
  sides line = Some (lhs, rhs).
Proof.
  intros Hs E. unfold sides.
  destruct (partition " => " line) as [[a b]|] eqn:Hp.
  - destruct (split_line line a b Hs Hp) as (E' & _ & _).
    rewrite E in E'. by simplify_eq.
  - rewrite split_sep_eq, Hs, split_sep_none in E by done.
    destruct (decide (Is_true (Str.nonempty line))).
    + by rewrite filter_cons_True in E by done.
    + by rewrite filter_cons_False in E by done.
Qed.

(** The right side of a line has a first alternative. *)
Lemma split_rhs line lhs rhs :
  Str.strip line = line →
  split line (Some " => ") 1 = Ret [lhs; rhs] →
  ∃ x xs, split rhs (Some " | ") (-1) = Ret (x :: xs).
Proof.
  intros Hs E. apply split_sides in E; [|done]. unfold sides in E.
  destruct (partition " => " line) as [[a b]|] eqn:Hp; [|done].
  injection E as <- <-.
  destruct (split_line line a b Hs Hp) as (_ & _ & Hb).
  destruct (split_head (Str.strip b) " | " (-1) spaced_bar Hb
              (strip_idem b)) as (x & xs & Hx & _).
  by exists x, xs.
Qed.

Lemma partition_None_inv sep s :
  partition sep s = None → ∀ a b, s ≠ a +:+ sep +:+ b.
Proof.
  intros Hp a b ->. destruct (partition_append sep a b) as (a' & b' & E).
  congruence.
Qed.
End Compile.

(** C6. A description with a line that lacks the separator [" => "], or
    whose right side gives no alternative, does not compile: [grammar]
    raises ValueError, the error of [lhs, rhs = ...] when the list does
    not unpack into two names, and returns no dict.  A line is a line as
    [grammar] reads it: a piece of the description between two newlines,
    tabs replaced by spaces, stripped and not empty.  No line meets the
    second condition: a right side starts with a character that is not
    white space, which starts its first alternative. *)
Theorem grammar_malformed_line (description whitespace line : string) :
  line ∈ description_lines description →
  (∀ a b, line ≠ a +:+ " => " +:+ b)
  ∨ (∃ lhs rhs, split line (Some " => ") 1 = Ret [lhs; rhs]
                ∧ split rhs (Some " | ") (-1) = Ret []) →
  grammar description whitespace = Raise ValueError.
Proof.
  intros Hin Hbad. pose proof (description_lines_stripped _ _ Hin) as Hs.
  destruct Hbad as [Hno|(lhs & rhs & E & E0)].
  - rewrite grammar_eq. apply (grammar_lines_raise _ line); [done|].
    apply split_line_none; [done|]. by apply StrFacts.partition_None.
  - destruct (split_rhs line lhs rhs Hs E) as (x & xs & Ex). congruence.
Qed.

Lemma grammar_malformed_line_witness :
  grammar ("a => b" +:+ newline +:+ "c d") "\s*" = Raise ValueError.
Proof.
  apply (grammar_malformed_line _ _ "c d").
  - vm_compute. repeat constructor.
  - left. apply partition_None_inv. reflexivity.
Defined.

(** C7. A description in which each line has the separator [" => "] and
    no group between two bars is empty compiles to a dict [G].  Each line
    is cut at the first [" => "] and nowhere else: its key [lhs] is the
    stripped text before it, its right side [rhs] the stripped text after
    it.  The key is in [G], and its value is the one of the last line
    with this key: as many alternatives as that line has groups
    separated by [" | "]. *)
Theorem grammar_round_trip (description whitespace : string) :
  well_formed description = true →
  ∃ G, grammar description whitespace = Ret G ∧
    ∀ (i : nat) (line : string),
      description_lines description !! i = Some line →
      ∃ lhs rhs,
        split line (Some " => ") 1 = Ret [lhs; rhs]
        ∧ (∃ a b, line = a +:+ " => " +:+ b
             ∧ (∀ a' b', line = a' +:+ " => " +:+ b' →
                         (String.length a ≤ String.length a')%nat)
             ∧ lhs = Str.strip a ∧ rhs = Str.strip b)
        ∧ ∃ (j : nat) (line' rhs' : string) (alts : list (list string)),
            (i ≤ j)%nat
            ∧ description_lines description !! j = Some line'
            ∧ split line' (Some " => ") 1 = Ret [lhs; rhs']
            ∧ (∀ (k : nat) (line'' rhs'' : string),
                 (j < k)%nat →
                 description_lines description !! k = Some line'' →
                 split line'' (Some " => ") 1 ≠ Ret [lhs; rhs''])
            ∧ G !! lhs = Some (Alternatives alts)
            ∧ length alts = length (groups rhs').
Proof.
  intros Hwf. set (lines := description_lines description).
  pose proof (well_formed_lines description) as Hall. fold lines in Hall.
  destruct (grammar_lines_total lines {[ " " := Pattern whitespace ]})
    as [G HG].
  { apply Forall_forall. intros line Hin.
    destruct (Hall line Hwf Hin) as (Hs & lhs & rhs & Hsd & _).
    destruct (rule_sides line lhs rhs Hs Hsd) as (alts & Hr & _). by eexists. }
  exists G. split; [by rewrite grammar_eq|]. intros i line Hi.
  destruct (Hall line Hwf (list_elem_of_lookup_2 _ _ _ Hi))
    as (Hs & lhs & rhs & Hsd & _).
  destruct (rule_sides line lhs rhs Hs Hsd) as (_ & _ & Hsp & _).
  exists lhs, rhs. split; [done|]. split; [by apply sides_first|].
  destruct (last_definer lines lhs i line Hi)
    as (j & line' & Hij & Hj & Hd' & Hlast).
  { apply defines_sides. by exists rhs. }
  apply defines_sides in Hd' as [rhs' Hsd'].
  destruct (Hall line' Hwf (list_elem_of_lookup_2 _ _ _ Hj))
    as (Hs' & lhs2 & rhs2 & Hsd2 & Hne).
  rewrite Hsd' in Hsd2. injection Hsd2 as <- <-.
  destruct (rule_sides line' lhs rhs' Hs' Hsd') as (alts & Hr & Hsp' & Hlen).
  assert (∀ (k : nat) (line'' : string),
            lines !! k = Some line'' → Str.strip line'' = line'') as Hstr.
  { intros k line'' Hk.
    by destruct (Hall line'' Hwf (list_elem_of_lookup_2 _ _ _ Hk)). }
  exists j, line', rhs', alts. split_and!; try done.
  - intros k line'' rhs'' Hjk Hk Hsp''. apply (Hlast k line'' Hjk Hk).
    apply defines_sides. exists rhs''. apply split_sides; [|done].
    by apply (Hstr k).
  - apply (grammar_lines_last lines _ G j line' (lhs, alts) HG Hj Hr).
    intros k line'' r'' Hjk Hk Hr'' Heq. simpl in Heq.
    apply (Hlast k line'' Hjk Hk). apply defines_sides.
    destruct (rule_sides_inv line'' r'' (Hstr k line'' Hk) Hr'') as [rhs'' E].
    exists rhs''. by rewrite <-Heq.
  - by rewrite Hlen, filter_nonempty.
Qed.

(** Three rules, the first and the last for the same key. *)
Definition overwriting_description : string :=
  "a => b | c" +:+ newline +:+ "d => e" +:+ newline +:+ "a => f".

Lemma grammar_round_trip_witness :
  well_formed overwriting_description = true
  ∧ ∃ G, grammar overwriting_description "\s*" = Ret G
         ∧ G !! "a" = Some (Alternatives [["f"]])
         ∧ G !! "d" = Some (Alternatives [["e"]]).
Proof.
  split; [reflexivity|].
  destruct (grammar_round_trip overwriting_description "\s*" eq_refl)
    as (G & HG & _).
  exists G. split; [done|].
  vm_compute in HG. injection HG as <-. split; reflexivity.
Defined.

(** C10. The dict that [grammar] returns has the white-space pattern of
    the call under the key [" "]: no line assigns this key, since the
    left side that [split] returns for a line is stripped and not empty,
    so it is not [" "]. *)
Theorem grammar_whitespace_key (description whitespace : string) (G : Grammar) :
  grammar description whitespace = Ret G →
  G !! " " = Some (Pattern whitespace)
  ∧ ∀ line lhs rhs,
      split line (Some " => ") 1 = Ret [lhs; rhs] →
      lhs ≠ "" ∧ Str.strip lhs = lhs ∧ lhs ≠ " ".
Proof.
  intros HG.
  assert (∀ line lhs rhs,
            split line (Some " => ") 1 = Ret [lhs; rhs] →
            lhs ≠ "" ∧ Str.strip lhs = lhs ∧ lhs ≠ " ") as Hlhs.
  { intros line lhs rhs [Hb Hs]%split_lhs.
    split_and!; [by destruct lhs|done|by apply StrFacts.starts_black_not_space]. }
  split; [|done]. rewrite grammar_eq in HG.
  rewrite (grammar_lines_other _ _ _ _ HG); [apply lookup_singleton_eq|].
  intros line [lhs alts] _ (rhs & E)%rule_Ret. simpl.
  by apply (Hlhs line lhs rhs).
Qed.

Lemma grammar_whitespace_key_witness :
  ∃ G, JSON = Ret G ∧ G !! " " = Some (Pattern "\s*").
Proof.
  assert (∃ G, JSON = Ret G) as [G HG] by (vm_compute; eexists; reflexivity).
  exists G. split; [done|].
  apply (grammar_whitespace_key json_description "\s*" G HG).
Defined.

(** ** More about split *)

(** No character of [s] is white space. *)
Fixpoint spaceless (s : string) : bool :=
  match s with
  | EmptyString => true
  | String c s' => negb (Str.isspace c) && spaceless s'
  end.

Section Pieces.
Import StrFacts SplitFacts.

Lemma spaceless_snoc s c :
  spaceless s = true → Str.isspace c = false →
  spaceless (s +:+ String c "") = true.
Proof.
  intros Hs Hc. induction s as [|d s IH]; simpl in *; [by rewrite Hc|].
  apply andb_true_iff in Hs as [-> Hs]. by rewrite IH.
Qed.

Lemma snoc_nonempty s c : s +:+ String c "" ≠ "".
Proof. by destruct s. Qed.

Lemma rstrip_spaceless s : spaceless s = true → Str.rstrip s = s.
Proof.
  induction s as [|c s IH]; simpl; [done|].
  intros [Hc Hs]%andb_true_iff. rewrite IH by done.
  destruct s; [|done]. by apply negb_true_iff in Hc as ->.
Qed.

Lemma strip_spaceless s : spaceless s = true → Str.strip s = s.
Proof.
  intros Hs. unfold Str.strip.
  assert (Str.lstrip s = s) as ->; [|by apply rstrip_spaceless].
  destruct s as [|c s]; simpl in *; [done|].
  apply andb_true_iff in Hs as [Hc _]. by apply negb_true_iff in Hc as ->.
Qed.

(** The pieces of [s.split()] are runs of characters that are not white
    space. *)
Lemma split_ws_go_pieces maxsplit cur s p :
  maxsplit < 0 → spaceless cur = true →
  p ∈ Str.split_ws_go maxsplit cur s → p ≠ "" ∧ spaceless p = true.
Proof.
  revert maxsplit cur. induction s as [|c s IH]; intros maxsplit cur Hm Hcur.
  - simpl. destruct cur as [|d cur]; [by intros ?%elem_of_nil|].
    by intros ->%list_elem_of_singleton.
  - simpl. destruct cur as [|d cur].
    + destruct (Str.isspace c) eqn:Hc; [by apply IH|].
      destruct (Z.eqb_spec maxsplit 0) as [->|_]; [lia|].
      apply IH; [done|]. simpl. by rewrite Hc.
    + destruct (Str.isspace c) eqn:Hc.
      * intros [->|Hin]%elem_of_cons; [done|].
        revert Hin. apply IH; [lia|done].
      * apply IH; [done|].
        by apply (spaceless_snoc (String d cur)).
Qed.

Lemma split_ws_pieces maxsplit s p :
  maxsplit < 0 → p ∈ Str.split_ws maxsplit s → p ≠ "" ∧ spaceless p = true.
Proof. intros Hm. by apply split_ws_go_pieces. Qed.

Lemma split_None_pieces text maxsplit pieces p :
  maxsplit < 0 → split text None maxsplit = Ret pieces → p ∈ pieces →
  p ≠ "" ∧ spaceless p = true.
Proof.
  intros Hm [= <-] (q & -> & [_ Hq]%list_elem_of_filter)%list_elem_of_fmap.
  destruct (split_ws_pieces maxsplit _ q Hm Hq) as [Hne Hsp].
  by rewrite strip_spaceless.
Qed.

(** A text of white space only. *)
Lemma strip_blank s : blank s = true → Str.strip s = "".
Proof.
  intros Hb. unfold Str.strip.
  assert (Str.lstrip s = "") as ->; [|done].
  induction s as [|c s IH]; simpl in *; [done|].
  apply andb_true_iff in Hb as [-> Hb]. by apply IH.
Qed.

Lemma split_of_blank text sep maxsplit :
  blank text = true → sep ≠ Some "" → split text sep maxsplit = Ret [].
Proof.
  intros Hb Hsep. unfold split. rewrite strip_blank by done.
  destruct sep as [[|c sep]|]; done.
Qed.

(** At most [maxsplit] cuts. *)
Lemma split_sep_go_length sep maxsplit cur skip s :
  0 ≤ maxsplit →
  Z.of_nat (length (Str.split_sep_go sep maxsplit cur skip s)) ≤ maxsplit + 1.
Proof.
  revert maxsplit cur skip.
  induction s as [|c s IH]; intros maxsplit cur skip Hm; simpl; [lia|].
  destruct skip as [|skip]; [|by apply IH].
  destruct (Z.eqb_spec maxsplit 0) as [->|Hne]; simpl.
  - by apply IH.
  - destruct (Str.startswith sep (String c s)); [|by apply IH].
    simpl length. rewrite Nat2Z.inj_succ.
    assert (0 ≤ maxsplit - 1) as Hm' by lia.
    pose proof (IH (maxsplit - 1) "" (Nat.pred (String.length sep)) Hm') as Hl.
    revert Hl. generalize (Str.split_sep_go sep (maxsplit - 1) ""
                             (Nat.pred (String.length sep)) s).
    intros l Hl. lia.
Qed.

Lemma split_ws_go_length maxsplit cur s :
  0 ≤ maxsplit → (cur ≠ "" → 1 ≤ maxsplit) →
  Z.of_nat (length (Str.split_ws_go maxsplit cur s)) ≤ maxsplit + 1.
Proof.
  revert maxsplit cur.
  induction s as [|c s IH]; intros maxsplit cur Hm Hcur; simpl.
  - destruct cur; simpl; lia.
  - destruct cur as [|d cur].
    + destruct (Str.isspace c); [by apply IH|].
      destruct (Z.eqb_spec maxsplit 0) as [->|Hne]; [simpl; lia|].
      apply IH; [done|lia].
    + assert (1 ≤ maxsplit) by by apply Hcur.
      destruct (Str.isspace c).
      * simpl length. rewrite Nat2Z.inj_succ.
        assert (0 ≤ maxsplit - 1) as Hm' by lia.
        assert (("" : string) ≠ "" → 1 ≤ maxsplit - 1) as Hc' by done.
        pose proof (IH (maxsplit - 1) "" Hm' Hc') as Hl.
        revert Hl. generalize (Str.split_ws_go (maxsplit - 1) "" s).
        intros l Hl. lia.
      * apply IH; [done|lia].
Qed.

Lemma filter_map_length (P : string → Prop) `{∀ x, Decision (P x)}
    (f : string → string) (l : list string) :
  (length (map f (filter P l)) ≤ length l)%nat.
Proof. rewrite length_map. apply length_filter. Qed.
End Pieces.

(** ** More about grammar *)

(** No character of [s] is a newline. *)
Fixpoint one_line (s : string) : bool :=
  match s with
  | EmptyString => true
  | String c s' => negb (Ascii.eqb (ascii_of_nat 10) c) && one_line s'
  end.

Section Description.
Import StrFacts SplitFacts.

Lemma omap_split_elem alternatives alts alt :
  omap (λ a, split a None (-1)) alternatives = Ret alts → alt ∈ alts →
  ∃ a, a ∈ alternatives ∧ split a None (-1) = Ret alt.
Proof.
  revert alts. induction alternatives as [|a alternatives IH]; intros alts.
  - intros [= <-]. by intros ?%elem_of_nil.
  - cbn [omap]. destruct (split a None (-1)) as [x| |] eqn:Ex; [|done..].
    cbn [obind]. destruct (omap _ alternatives) as [ys| |]; [|done..].
    cbn [obind]. intros [= <-] [->|Hin]%elem_of_cons.
    + exists a. split; [by left|done].
    + destruct (IH ys eq_refl Hin) as (a' & Hin' & Ha'). exists a'.
      split; [by right|done].
Qed.

(** The alternatives that a line gives. *)
Lemma rule_alternatives line lhs alts :
  Str.strip line = line → rule line = Ret (lhs, alts) →
  alts ≠ []
  ∧ ∀ alt atom, alt ∈ alts → atom ∈ alt → atom ≠ "" ∧ spaceless atom = true.
Proof.
  intros Hs Hr. pose proof Hr as (rhs & Hsp)%rule_Ret.
  destruct (split_rhs line lhs rhs Hs Hsp) as (x & xs & Hx).
  unfold rule in Hr. rewrite Hsp in Hr. cbn [obind] in Hr.
  rewrite Hx in Hr. cbn [obind] in Hr.
  destruct (omap _ (x :: xs)) as [alts'| |] eqn:Ho; [|done..].
  cbn [obind] in Hr. injection Hr as ->. split.
  - destruct (omap_split (x :: xs)) as (alts'' & Ho' & Hl).
    rewrite Ho in Ho'. injection Ho' as <-. by destruct alts.
  - intros alt atom Halt Hatom.
    destruct (omap_split_elem _ _ _ Ho Halt) as (a & _ & Ha).
    by apply (split_None_pieces a (-1) alt).
Qed.

Lemma rule_key line r : rule line = Ret r → r.1 ≠ " ".
Proof.
  destruct r as [lhs alts]. intros (rhs & Hsp)%rule_Ret.
  apply split_lhs in Hsp as [Hb _]. by apply starts_black_not_space.
Qed.

(** Where the entries of the dict come from. *)
Lemma grammar_lines_entry lines (G0 G : Grammar) k e :
  grammar_lines lines G0 = Ret G → G !! k = Some e →
  G0 !! k = Some e
  ∨ ∃ line alts, line ∈ lines ∧ rule line = Ret (k, alts) ∧ e = Alternatives alts.
Proof.
  revert G0. induction lines as [|line lines IH]; intros G0.
  - intros [= ->]. by left.
  - intros ([lhs alts] & Hr & Hrest)%grammar_lines_Ret Hk.
    destruct (IH _ Hrest Hk) as [Hk0|(line' & alts' & Hin & Hr' & ->)].
    + simpl in Hk0. destruct (decide (lhs = k)) as [->|Hne].
      * rewrite lookup_insert_eq in Hk0. injection Hk0 as <-.
        right. exists line, alts. split; [by left|done].
      * rewrite lookup_insert_ne in Hk0 by done. by left.
    + right. exists line', alts'. split; [by right|done].
Qed.

(** Setting the white-space entry before the loop or after it. *)
Lemma grammar_lines_insert lines (G0 : Grammar) e :
  grammar_lines lines (<[" " := e]> G0)
  = (G ←! grammar_lines lines G0 ;; Ret (<[" " := e]> G)).
Proof.
  revert G0. induction lines as [|line lines IH]; intros G0; [done|].
  rewrite !grammar_lines_cons.
  destruct (rule line) as [r| |] eqn:Hr; [|done..]. cbn [obind].
  rewrite <-IH. f_equal. apply insert_insert_ne. by apply rule_key in Hr.
Qed.

Lemma blank_replace_char s :
  blank (Str.replace_char tab " " s) = blank s.
Proof.
  induction s as [|c s IH]; simpl; [done|]. rewrite IH. f_equal.
  destruct (Ascii.eqb_spec c tab) as [->|]; done.
Qed.

Lemma replace_char_app old new a b :
  Str.replace_char old new (a +:+ b)
  = Str.replace_char old new a +:+ Str.replace_char old new b.
Proof. induction a as [|c a IH]; simpl; [done|]. by rewrite IH. Qed.

Lemma one_line_replace_char s :
  one_line (Str.replace_char tab " " s) = one_line s.
Proof.
  induction s as [|c s IH]; simpl; [done|]. rewrite IH. f_equal.
  destruct (Ascii.eqb_spec c tab) as [->|]; done.
Qed.

Lemma replace_char_newline : Str.replace_char tab " " newline = newline.
Proof. done. Qed.

Lemma replace_char_empty s : Str.replace_char tab " " s = "" → s = "".
Proof. by destruct s. Qed.

(** Stripping a text stops at the first and at the last character that
    is not white space. *)
Lemma lstrip_app a b :
  blank a = false → Str.lstrip (a +:+ b) = Str.lstrip a +:+ b.
Proof.
  induction a as [|c a IH]; simpl; [done|].
  destruct (Str.isspace c); simpl; [apply IH|done].
Qed.

Lemma blank_app a b : blank (a +:+ b) = blank a && blank b.
Proof.
  induction a as [|c a IH]; simpl; [done|]. by rewrite IH, andb_assoc.
Qed.

Lemma rstrip_not_blank s : blank s = false → Str.rstrip s ≠ "".
Proof.
  induction s as [|c s IH]; simpl; [done|].
  destruct (Str.rstrip s) eqn:Er; [|done].
  destruct (Str.isspace c); simpl; [|done]. intros Hb. by apply IH.
Qed.

Lemma rstrip_app a b :
  blank b = false → Str.rstrip (a +:+ b) = a +:+ Str.rstrip b.
Proof.
  intros Hb. induction a as [|c a IH]; simpl; [done|].
  rewrite IH. pose proof (rstrip_not_blank b Hb).
  destruct a; simpl; by destruct (Str.rstrip b).
Qed.

Lemma blank_lstrip s : blank (Str.lstrip s) = blank s.
Proof.
  induction s as [|c s IH]; simpl; [done|].
  destruct (Str.isspace c) eqn:Hc; simpl; [done|]. by rewrite Hc.
Qed.

Lemma one_line_cons c s :
  one_line (String c s) = negb (Ascii.eqb (ascii_of_nat 10) c) && one_line s.
Proof. done. Qed.

Lemma startswith_newline c s :
  Str.startswith newline (String c s) = Ascii.eqb (ascii_of_nat 10) c.
Proof. unfold newline. cbn [Str.startswith]. apply andb_true_r. Qed.

(** Cutting at newlines: a run of characters between two newlines is a
    piece. *)
Lemma split_newline_prefix maxsplit cur w b :
  maxsplit < 0 → one_line w = true →
  Str.split_sep_go newline maxsplit cur 0 (w +:+ newline +:+ b)
  = (cur +:+ w) :: Str.split_sep_go newline (maxsplit - 1) "" 0 b.
Proof.
  intros Hm. revert cur. induction w as [|c w IH]; intros cur Hw.
  - rewrite append_nil_r.
    change (Str.split_sep_go newline maxsplit cur 0 ("" +:+ newline +:+ b))
      with (if negb (maxsplit =? 0)
               && Str.startswith newline (String (ascii_of_nat 10) b)
            then cur :: Str.split_sep_go newline (maxsplit - 1) "" 0 b
            else Str.split_sep_go newline maxsplit
                   (cur +:+ String (ascii_of_nat 10) "") 0 b).
    rewrite startswith_newline, Ascii.eqb_refl.
    destruct (Z.eqb_spec maxsplit 0) as [->|_]; [lia|done].
  - rewrite one_line_cons in Hw. apply andb_true_iff in Hw as [Hc Hw].
    apply negb_true_iff in Hc.
    change (Str.split_sep_go newline maxsplit cur 0
              (String c w +:+ newline +:+ b))
      with (if negb (maxsplit =? 0)
               && Str.startswith newline (String c (w +:+ newline +:+ b))
            then cur :: Str.split_sep_go newline (maxsplit - 1) "" 0
                          (w +:+ newline +:+ b)
            else Str.split_sep_go newline maxsplit (cur +:+ String c "") 0
                   (w +:+ newline +:+ b)).
    rewrite startswith_newline, Hc, andb_false_r.
    rewrite IH by done. by rewrite append_snoc.
Qed.

Lemma split_newline_middle maxsplit cur a w b :
  maxsplit < 0 → one_line w = true →
  w ∈ Str.split_sep_go newline maxsplit cur 0
        (a +:+ newline +:+ w +:+ newline +:+ b).
Proof.
  intros Hm Hw. revert maxsplit cur Hm.
  induction a as [|c a IH]; intros maxsplit cur Hm.
  - change ("" +:+ newline +:+ w +:+ newline +:+ b)
      with ("" +:+ newline +:+ (w +:+ newline +:+ b)).
    rewrite split_newline_prefix by done.
    rewrite split_newline_prefix by (done || lia).
    right. by left.
  - change (Str.split_sep_go newline maxsplit cur 0
              (String c a +:+ newline +:+ w +:+ newline +:+ b))
      with (if negb (maxsplit =? 0)
               && Str.startswith newline
                    (String c (a +:+ newline +:+ w +:+ newline +:+ b))
            then cur :: Str.split_sep_go newline (maxsplit - 1) "" 0
                          (a +:+ newline +:+ w +:+ newline +:+ b)
            else Str.split_sep_go newline maxsplit (cur +:+ String c "") 0
                   (a +:+ newline +:+ w +:+ newline +:+ b)).
    destruct (negb (maxsplit =? 0) && _).
    + right. apply IH. lia.
    + by apply IH.
Qed.
End Description.

Lemma strip_between a m b :
  StrFacts.blank a = false → StrFacts.blank b = false →
  Str.strip (a +:+ m +:+ b) = Str.lstrip a +:+ m +:+ Str.rstrip b.
Proof.
  intros Ha Hb. unfold Str.strip. rewrite lstrip_app by done.
  rewrite <-StrFacts.append_assoc, rstrip_app by done.
  by rewrite StrFacts.append_assoc.
Qed.

(** X1. Each piece that [split] returns is stripped; without a separator and
    without a bound on the cuts, no piece is empty and no piece has a
    white-space character in it. *)
Theorem split_returns_stripped_pieces (text : string) (sep : option string)
    (maxsplit : Z) (pieces : list string) :
  split text sep maxsplit = Ret pieces →
  (∀ p, p ∈ pieces → Str.strip p = p)
  ∧ (sep = None → maxsplit < 0 →
     ∀ p, p ∈ pieces → p ≠ "" ∧ spaceless p = true).
Proof.
  intros Hsp. split.
  - intros p Hp. by apply (split_stripped text sep maxsplit pieces).
  - intros -> Hm p Hp. by apply (split_None_pieces text maxsplit pieces).
Qed.

Lemma split_returns_stripped_pieces_witness :
  split "  int  frac exp " None (-1) = Ret ["int"; "frac"; "exp"]
  ∧ (∀ p, p ∈ ["int"; "frac"; "exp"] → Str.strip p = p)
  ∧ (∀ p, p ∈ ["int"; "frac"; "exp"] → p ≠ "" ∧ spaceless p = true).
Proof.
  assert (split "  int  frac exp " None (-1) = Ret ["int"; "frac"; "exp"])
    as Hsp by reflexivity.
  destruct (split_returns_stripped_pieces _ _ _ _ Hsp) as [H1 H2].
  split_and!; [done..|]. apply H2; [done|lia].
Defined.

(** X2. A text of white space only has no pieces, whatever the separator:
    the one piece [""] of [str.split] is dropped. *)
Theorem split_blank_text (text : string) (sep : option string) (maxsplit : Z) :
  StrFacts.blank text = true → sep ≠ Some "" →
  split text sep maxsplit = Ret [].
Proof. apply split_of_blank. Qed.

Lemma split_blank_text_witness : split "   " (Some " | ") (-1) = Ret [].
Proof. apply split_blank_text; [reflexivity|discriminate]. Defined.

(** X3. With a bound [maxsplit] on the cuts, [split] returns at most
    [maxsplit + 1] pieces. *)
Theorem split_at_most_maxsplit (text : string) (sep : option string)
    (maxsplit : Z) (pieces : list string) :
  0 ≤ maxsplit → split text sep maxsplit = Ret pieces →
  Z.of_nat (length pieces) ≤ maxsplit + 1.
Proof.
  intros Hm. unfold split, Str.split.
  destruct sep as [[|c sep]|]; cbn [obind]; [done| |]; intros [= <-].
  - pose proof (split_sep_go_length (String c sep) maxsplit "" 0
                  (Str.strip text) Hm) as Hl.
    pose proof (filter_map_length (λ t, Is_true (Str.nonempty t)) Str.strip
                  (Str.split_sep (String c sep) maxsplit (Str.strip text))).
    unfold Str.split_sep in *. lia.
  - assert (("" : string) ≠ "" → 1 ≤ maxsplit) as Hc by done.
    pose proof (split_ws_go_length maxsplit "" (Str.strip text) Hm Hc) as Hl.
    pose proof (filter_map_length (λ t, Is_true (Str.nonempty t)) Str.strip
                  (Str.split_ws maxsplit (Str.strip text))).
    unfold Str.split_ws in *. lia.
Qed.

Lemma split_at_most_maxsplit_witness :
  split "a => b => c" (Some " => ") 1 = Ret ["a"; "b => c"]
  ∧ Z.of_nat (length ["a"; "b => c"]) ≤ 1 + 1.
Proof.
  split; [reflexivity|].
  apply (split_at_most_maxsplit "a => b => c" (Some " => ") 1); [lia|reflexivity].
Defined.

(** X4. A description of white space only, the empty one among them,
    compiles to the dict with the white-space entry alone. *)
Theorem grammar_blank_description (description whitespace : string) :
  StrFacts.blank description = true →
  grammar description whitespace = Ret {[ " " := Pattern whitespace ]}.
Proof.
  intros Hb. unfold grammar. cbv zeta.
  rewrite split_of_blank; [done| |done]. by rewrite blank_replace_char.
Qed.

Lemma grammar_blank_description_witness :
  grammar (newline +:+ "  " +:+ newline) "\s*" = Ret {[ " " := Pattern "\s*" ]}.
Proof. apply grammar_blank_description. reflexivity. Defined.

(** X5. A line of white space only, between two lines with text, is not
    skipped: it is not the empty string, so it stays among the lines,
    and stripped it does not unpack into [lhs, rhs]: ValueError. *)
Theorem grammar_blank_line (before blanks after whitespace : string) :
  StrFacts.blank before = false → StrFacts.blank after = false →
  StrFacts.blank blanks = true → blanks ≠ "" → one_line blanks = true →
  grammar (before +:+ newline +:+ blanks +:+ newline +:+ after) whitespace
  = Raise ValueError.
Proof.
  intros Ha Hb Hw Hne Hl. rewrite grammar_eq.
  apply (grammar_lines_raise _ ""); [|reflexivity].
  unfold description_lines.
  rewrite !replace_char_app, replace_char_newline.
  rewrite <-(blank_replace_char before) in Ha.
  rewrite <-(blank_replace_char after) in Hb.
  rewrite <-(blank_replace_char blanks) in Hw.
  rewrite <-(one_line_replace_char blanks) in Hl.
  assert (Str.replace_char tab " " blanks ≠ "") as Hne'.
  { by intros ?%replace_char_empty. }
  revert Ha Hb Hw Hl Hne'.
  generalize (Str.replace_char tab " " before) as a.
  generalize (Str.replace_char tab " " blanks) as w.
  generalize (Str.replace_char tab " " after) as b.
  intros b w a Ha Hb Hw Hl Hne'.
  assert (a +:+ newline +:+ w +:+ newline +:+ b
          = a +:+ (newline +:+ w +:+ newline) +:+ b) as ->.
  { by rewrite !StrFacts.append_assoc. }
  rewrite strip_between by done.
  rewrite !StrFacts.append_assoc.
  apply list_elem_of_fmap. exists w. split.
  - symmetry. by apply strip_blank.
  - apply list_elem_of_filter. split.
    + by destruct w.
    + apply split_newline_middle; [lia|done].
Qed.

Lemma grammar_blank_line_witness :
  grammar ("a => b" +:+ newline +:+ "  " +:+ newline +:+ "c => d") "\s*"
  = Raise ValueError.
Proof. apply grammar_blank_line; (reflexivity || discriminate). Defined.

(** X6. The dict has no other key than [" "], which keeps the white-space
    pattern, and the left sides of the lines, each with a tuple of
    alternatives. *)
Theorem grammar_keys_from_lines (description whitespace : string) (G : Grammar)
    (k : string) (e : entry) :
  grammar description whitespace = Ret G → G !! k = Some e →
  (k = " " ∧ e = Pattern whitespace)
  ∨ (∃ line rhs alts,
       line ∈ description_lines description
       ∧ split line (Some " => ") 1 = Ret [k; rhs]
       ∧ e = Alternatives alts).
Proof.
  rewrite grammar_eq. intros HG Hk.
  destruct (grammar_lines_entry _ _ _ _ _ HG Hk)
    as [H0|(line & alts & Hin & Hr & ->)].
  - left. by apply lookup_singleton_Some in H0 as [<- <-].
  - right. destruct (rule_Ret _ _ _ Hr) as [rhs Hsp]. by exists line, rhs, alts.
Qed.

Lemma grammar_keys_from_lines_witness :
  ∃ G, grammar ("a => b" +:+ newline +:+ "c => d") "\s*" = Ret G
       ∧ ∀ k e, G !! k = Some e →
           (k = " " ∧ e = Pattern "\s*")
           ∨ (∃ line rhs alts,
                line ∈ description_lines ("a => b" +:+ newline +:+ "c => d")
                ∧ split line (Some " => ") 1 = Ret [k; rhs]
                ∧ e = Alternatives alts).
Proof.
  eexists. split; [reflexivity|]. intros k e.
  by apply (grammar_keys_from_lines _ "\s*").
Defined.

(** X7. Each rule of the dict has at least one alternative, and the atoms of
    its alternatives are not empty and have no white space in them. *)
Theorem grammar_rules_have_atoms (description whitespace : string) (G : Grammar)
    (k : string) (alts : list (list string)) :
  grammar description whitespace = Ret G → G !! k = Some (Alternatives alts) →
  alts ≠ []
  ∧ ∀ alt atom, alt ∈ alts → atom ∈ alt → atom ≠ "" ∧ spaceless atom = true.
Proof.
  rewrite grammar_eq. intros HG Hk.
  destruct (grammar_lines_entry _ _ _ _ _ HG Hk)
    as [H0|(line & alts' & Hin & Hr & [= <-])].
  - by apply lookup_singleton_Some in H0 as [_ ?].
  - apply (rule_alternatives line k); [|done].
    by apply (description_lines_stripped description).
Qed.

Lemma grammar_rules_have_atoms_witness :
  [["b"]; ["c"; "d"]] ≠ []
  ∧ ∀ alt atom, alt ∈ [["b"]; ["c"; "d"]] → atom ∈ alt →
                atom ≠ "" ∧ spaceless atom = true.
Proof.
  apply (grammar_rules_have_atoms "a => b | c  d" "\s*"
           (<["a" := Alternatives [["b"]; ["c"; "d"]]]>
              {[ " " := Pattern "\s*" ]}) "a").
  - vm_compute. reflexivity.
  - reflexivity.
Defined.

(** X8. The white-space pattern touches nothing but the entry under [" "]:
    compiling with a pattern is compiling with any other one and setting
    the entry, and whether the compilation fails does not depend on it. *)
Theorem grammar_whitespace_only_entry (description whitespace whitespace' : string) :
  grammar description whitespace
  = (G ←! grammar description whitespace' ;;
     Ret (<[" " := Pattern whitespace]> G)).
Proof.
  rewrite !grammar_eq, <-grammar_lines_insert.
  by rewrite insert_singleton_eq.
Qed.

(** ** What parse leaves of the text *)

(** The result [r] of a call on the text [t]: a failure, or a remainder
    that is the end of [t]. *)
Definition leaves (t : string) (r : ParseResult) : Prop :=
  r = Fail ∨ ∃ consumed rest, r.2 = PStr rest ∧ t = consumed +:+ rest.

Lemma drop_suffix n s : ∃ consumed, s = consumed +:+ Str.drop n s.
Proof.
  revert n. induction s as [|c s IH]; intros [|n]; simpl;
    try by exists "".
  destruct (IH n) as [consumed E]. exists (String c consumed). simpl.
  by rewrite <-E.
Qed.

Section Remainder.
Context `{Builtins}.
Variable grammar : Grammar.
Variable tokenizer : string.

Lemma match_terminal_leaves atom t r :
  match_terminal tokenizer atom (PStr t) = Ret r → leaves t r.
Proof.
  unfold match_terminal, re_match.
  destruct (str_mod tokenizer atom) as [pattern| |]; cbn [obind]; [|done..].
  destruct (re_compile pattern) as [re| |]; cbn [obind]; [|done..].
  destruct (regex_match re t) as [m|]; cbn [fmap option_fmap option_map].
  - destruct (group (re, m)) as [tree| |]; cbn [obind slice_from]; [|done..].
    intros [= <-]. right. destruct (drop_suffix (m_end m) t) as [consumed E].
    by exists consumed, (Str.drop (m_end m) t).
  - intros [= <-]. by left.
Qed.

Lemma direct_loop_leaves fuel sequence t result r :
  (∀ atom t r, direct grammar tokenizer fuel [PStr atom; PStr t] = Ret r →
               leaves t r) →
  direct_loop grammar tokenizer fuel sequence (PStr t) result = Ret r →
  leaves t r.
Proof.
  intros IH. revert t result.
  induction sequence as [|atom sequence IHs]; intros t result.
  - rewrite direct_loop_nil. intros [= <-]. right. by exists "", t.
  - rewrite direct_loop_cons.
    destruct (direct grammar tokenizer fuel [PStr atom; PStr t])
      as [r0| |] eqn:E0; cbn [obind]; [|done..].
    destruct (IH _ _ _ E0) as [->|(c0 & rest0 & E2 & ->)].
    + cbn. intros [= <-]. by left.
    + rewrite E2. cbn [is_none]. intros Hl.
      destruct (IHs _ _ Hl) as [->|(c1 & rest & E3 & ->)]; [by left|].
      right. exists (c0 +:+ c1), rest. split; [done|].
      by rewrite StrFacts.append_assoc.
Qed.

Lemma direct_alternatives_leaves fuel atom t alternatives r :
  (∀ atom t r, direct grammar tokenizer fuel [PStr atom; PStr t] = Ret r →
               leaves t r) →
  direct_alternatives grammar tokenizer fuel atom (PStr t) alternatives = Ret r →
  leaves t r.
Proof.
  intros IH. induction alternatives as [|alternative alternatives IHa].
  - rewrite direct_alternatives_nil. intros [= <-]. by left.
  - rewrite direct_alternatives_cons.
    destruct (direct_sequence grammar tokenizer fuel alternative (PStr t))
      as [r0| |] eqn:E0; cbn [obind]; [|done..].
    apply direct_loop_leaves in E0; [|done].
    destruct E0 as [->|(c0 & rest0 & E2 & ->)].
    + cbn. apply IHa.
    + rewrite E2. cbn [is_none negb].
      destruct (cons_tree atom r0.1) as [tree| |]; cbn [obind]; [|done..].
      intros [= <-]. right. by exists c0, rest0.
Qed.

Lemma direct_leaves fuel atom t r :
  direct grammar tokenizer fuel [PStr atom; PStr t] = Ret r → leaves t r.
Proof.
  revert atom t r. induction fuel as [|fuel IH]; intros atom t r.
  - by rewrite direct_O.
  - rewrite direct_S. cbn [in_grammar hashable obind].
    destruct (grammar !! atom) as [e|].
    + by apply direct_alternatives_leaves.
    + apply match_terminal_leaves.
Qed.
End Remainder.

(** X10. What [parse] returns for a text is (None, None) or has for remainder
    an end of the text: the parser reads from the start of the text and
    drops nothing but what it has read. *)
Theorem parse_remainder_suffix `{Builtins} (grammar : Grammar) (fuel : nat)
    (start_symbol text : string) (tree rem : pyval) :
  parse fuel (PStr start_symbol) (PStr text) grammar = Ret (tree, rem) →
  (tree = PNone ∧ rem = PNone)
  ∨ ∃ consumed rest, rem = PStr rest ∧ text = consumed +:+ rest.
Proof.
  intros Hp.
  destruct (parse_sound fuel (PStr start_symbol) (PStr text) grammar)
    as [fuel' Hu]; [done|by rewrite Hp|].
  rewrite Hp in Hu. unfold parse_undecorated, parse_with in Hu.
  destruct (grammar !! " ") as [[whitespace|alts]|] eqn:Hws; [|done..].
  change (direct grammar (whitespace +:+ "(%s)") fuel'
            [PStr start_symbol; PStr text] = Ret (tree, rem)) in Hu.
  apply direct_leaves in Hu as [[= -> ->]|(consumed & rest & E & ->)].
  - by left.
  - right. by exists consumed, rest.
Qed.

Lemma parse_remainder_suffix_witness :
  parse 1 (PStr "a+") (PStr "  aab") {[ " " := Pattern "\s*" ]}
  = Ret (PStr "aa", PStr "b")
  ∧ ((PStr "aa" = PNone ∧ PStr "b" = PNone)
     ∨ ∃ consumed rest, PStr "b" = PStr rest ∧ "  aab" = consumed +:+ rest).
Proof.
  split; [vm_compute; reflexivity|].
  apply (parse_remainder_suffix {[ " " := Pattern "\s*" ]} 1 "a+").
  vm_compute. reflexivity.
Defined.

(** ** Left recursion *)

Lemma direct_left_recursion `{Builtins} (grammar : Grammar) (tokenizer : string)
    (S : string) (rest : list string) (alts : list (list string))
    (text : pyval) (fuel : nat) :
  grammar !! S = Some (Alternatives ((S :: rest) :: alts)) →
  direct grammar tokenizer fuel [PStr S; text] = OutOfFuel.
Proof.
  intros HS. induction fuel as [|fuel IH]; [apply direct_O|].
  rewrite direct_S. cbn [in_grammar hashable obind]. rewrite HS.
  cbn [alternatives_of]. rewrite direct_alternatives_cons.
  unfold direct_sequence. rewrite direct_loop_cons. by rewrite IH.
Qed.

(** X11. A rule whose first alternative starts with the symbol of the rule:
    [parse_atom] calls itself with the same symbol and the same text
    before anything else, so no bound on the depth of the recursion is
    enough for [parse] to return. *)
Theorem parse_left_recursion `{Builtins} (grammar : Grammar) (whitespace : string)
    (S : string) (rest : list string) (alts : list (list string))
    (text : string) (fuel : nat) :
  grammar !! " " = Some (Pattern whitespace) →
  grammar !! S = Some (Alternatives ((S :: rest) :: alts)) →
  parse fuel (PStr S) (PStr text) grammar = OutOfFuel.
Proof.
  intros Hws HS.
  destruct (fuel_cases (parse fuel (PStr S) (PStr text) grammar))
    as [E|Hne]; [done|].
  destruct (parse_sound fuel (PStr S) (PStr text) grammar) as [fuel' Hu];
    [done..|].
  rewrite (parse_undecorated_direct _ _ _ _ whitespace) in Hu by done.
  rewrite (direct_left_recursion _ _ S rest alts) in Hu by done.
  by rewrite <-Hu in Hne.
Qed.

Definition left_recursive_grammar : Grammar :=
  <[ "E" := Alternatives [["E"; "[+]"; "T"]; ["T"]] ]>
    (<[ "T" := Alternatives [["[0-9]+"]] ]> {[ " " := Pattern "\s*" ]}).

Lemma parse_left_recursion_witness :
  parse 100 (PStr "E") (PStr "1+2") left_recursive_grammar = OutOfFuel.
Proof.
  apply (parse_left_recursion left_recursive_grammar "\s*" "E"
           ["[+]"; "T"] [["T"]]); reflexivity.
Defined.

(** ** The memo table *)

(** X9. A call that returns through the wrapper of [memo] leaves its result
    in the table under its arguments, and the next call with these
    arguments returns it without calling the function, whatever the
    function is, and leaves the table as it is. *)
Theorem memo_second_call (f f' : list pyval → M ParseResult)
    (args : list pyval) (cache cache' : Cache) (result : ParseResult) :
  hashable (PTuple args) = true →
  memo f args cache = (Ret result, cache') →
  cache' !! args = Some result
  ∧ memo f' args cache' = (Ret result, cache').
Proof.
  intros Hh. unfold memo. rewrite Hh.
  destruct (cache !! args) as [r|] eqn:Hc.
  - intros [= <- <-]. by rewrite Hc.
  - destruct (f args cache) as [[r| |] c]; intros [= <- <-].
    by rewrite lookup_insert_eq.
Qed.

Lemma memo_second_call_witness :
  memo (λ _, mret (PStr "a", PStr "b")) [PStr "a"; PStr "ab"] ∅
  = (Ret (PStr "a", PStr "b"),
     <[ [PStr "a"; PStr "ab"] := (PStr "a", PStr "b") ]> ∅)
  ∧ memo (λ _, mraise TypeError) [PStr "a"; PStr "ab"]
      (<[ [PStr "a"; PStr "ab"] := (PStr "a", PStr "b") ]> ∅)
    = (Ret (PStr "a", PStr "b"),
       <[ [PStr "a"; PStr "ab"] := (PStr "a", PStr "b") ]> ∅).
Proof.
  assert (memo (λ _, mret (PStr "a", PStr "b")) [PStr "a"; PStr "ab"] ∅
          = (Ret (PStr "a", PStr "b"),
             <[ [PStr "a"; PStr "ab"] := (PStr "a", PStr "b") ]> ∅)) as Hfirst.
  { reflexivity. }
  split; [done|].
  apply (memo_second_call (λ _, mret (PStr "a", PStr "b"))
           (λ _, mraise TypeError) [PStr "a"; PStr "ab"] ∅); [reflexivity|].
  exact Hfirst.
Defined.

(** ** An alternative that extends an earlier one *)

Section Prefix.
Variable call : string → pyval → ParseResult → Prop.

(** The atoms at the start of a sequence that succeeds succeed. *)
Lemma threads_prefix (A B : list string) (text : pyval) (trees : list pyval)
    (rem : pyval) :
  threads call (A ++ B) text trees rem → text ≠ PNone →
  ∃ trees' mid, threads call A text trees' mid ∧ mid ≠ PNone.
Proof.
  revert text trees. induction A as [|atom A IH]; intros text trees.
  - intros _ Ht. exists [], text. split; [constructor|done].
  - simpl. inversion 1 as [|? ? ? tree text' trees0 ? Hc Hne Hrest]; subst.
    intros _. destruct (IH _ _ Hrest Hne) as (trees' & mid & Hth & Hmid).
    exists (tree :: trees'), mid. split; [|done].
    by apply (threads_cons call atom A text tree text').
Qed.

Lemma threads_not_none (sequence : list string) (text : pyval)
    (trees : list pyval) (rem : pyval) :
  threads call sequence text trees rem → text ≠ PNone → rem ≠ PNone.
Proof. induction 1; auto. Qed.

(** A sequence that fails still fails with more atoms after it. *)
Lemma fails_in_app (A B : list string) (text : pyval) :
  fails_in call A text → fails_in call (A ++ B) text.
Proof.
  intros (before & atom & after & trees & text' & tree & -> & Hth & Hc).
  exists before, atom, (after ++ B), trees, text', tree.
  split; [by rewrite <-app_assoc|done].
Qed.
End Prefix.

Section Dead.
Context `{Builtins}.
Variable grammar : Grammar.
Variable tokenizer : string.

Lemma sequence_returns_success (A B : list string) (text : string)
    (trees : pyval) (rem : pyval) :
  sequence_returns grammar tokenizer (A ++ B) (PStr text) (trees, rem) →
  rem ≠ PNone →
  ∃ trees' mid,
    sequence_returns grammar tokenizer A (PStr text) (PList trees', mid)
    ∧ mid ≠ PNone.
Proof.
  intros Hs Hrem.
  apply sequence_returns_threads in Hs
    as [(ts & rem' & Hth & [= -> ->])|[_ [= _ ->]]]; [|done|done].
  destruct (threads_prefix _ A B (PStr text) ts rem' Hth)
    as (ts' & mid & Hth' & Hmid); [done|].
  exists ts', mid. split; [|done].
  apply sequence_returns_threads; [done|]. left. by exists ts', mid.
Qed.

Lemma sequence_returns_none (A : list string) (text : string) (tree : pyval) :
  sequence_returns grammar tokenizer A (PStr text) (tree, PNone) →
  fails_in (atom_returns grammar tokenizer) A (PStr text) ∧ tree = PNone.
Proof.
  intros Hs.
  apply sequence_returns_threads in Hs
    as [(ts & rem' & Hth & [= -> <-])|[Hf [= -> ]]]; [|done|done].
  by apply threads_not_none in Hth.
Qed.

End Dead.

(** X12. The advice of the docstring of [parse], "don't do 'E => T | T op E'":
    an alternative that starts with all the atoms of the alternative
    before it is never taken.  The rule parses as the first alternative
    alone does: the same tree and remainder when it succeeds, and
    (None, None) when it fails. *)
Theorem longer_alternative_is_dead `{Builtins} (grammar : Grammar)
    (tokenizer : string) (E : string) (A B : list string) (text : string)
    (r : ParseResult) :
  grammar !! E = Some (Alternatives [A; A ++ B]) →
  atom_returns grammar tokenizer E (PStr text) r
  ↔ (∃ trees rem,
       sequence_returns grammar tokenizer A (PStr text) (PList trees, rem)
       ∧ rem ≠ PNone
       ∧ r = (PList (PStr E :: trees), rem))
    ∨ (sequence_returns grammar tokenizer A (PStr text) Fail ∧ r = Fail).
Proof.
  intros HE. rewrite (atom_returns_first grammar tokenizer E (PStr text) _ r HE)
    by done.
  cbn [alternatives_of]. split.
  - intros [(before & alternative & after & trees & rem
             & Halts & Hb & Hs & Hrem & ->)|[Hall ->]].
    + destruct before as [|A' before]; simpl in Halts.
      * injection Halts as <- <-. left. by exists trees, rem.
      * injection Halts as <- Halts.
        destruct before as [|AB before]; simpl in Halts.
        -- injection Halts as <- <-.
           apply Forall_cons in Hb as [[tree Hfail] _].
           destruct (sequence_returns_success grammar tokenizer A B text _ rem
                       Hs Hrem) as (trees' & mid & Hs' & Hmid).
           pose proof (sequence_returns_functional grammar tokenizer A
                         (PStr text) _ _ eq_refl Hfail Hs') as [= _ <-].
           done.
        -- injection Halts as _ Halts. by destruct before.
    + right. split; [|done]. apply Forall_cons in Hall as [[tree Hfail] _].
      by destruct (sequence_returns_none grammar tokenizer A text tree Hfail)
        as [_ ->].
  - intros [(trees & rem & Hs & Hrem & ->)|[Hfail ->]].
    + left. exists [], A, [A ++ B], trees, rem. by split_and!.
    + right. split; [|done].
      destruct (sequence_returns_none grammar tokenizer A text PNone Hfail)
        as [Hf _].
      repeat constructor.
      * by exists PNone.
      * exists PNone. apply sequence_returns_threads; [done|]. right.
        split; [|done]. by apply fails_in_app.
Qed.

Definition sum_grammar : Grammar :=
  <[ "E" := Alternatives [["[0-9]"]; ["[0-9]"; "[+]"; "E"]] ]>
    {[ " " := Pattern "\s*" ]}.

Lemma longer_alternative_is_dead_witness :
  atom_returns sum_grammar "\s*(%s)" "E" (PStr "1+2")
    (PList [PStr "E"; PStr "1"], PStr "+2").
Proof.
  apply (longer_alternative_is_dead sum_grammar "\s*(%s)" "E" ["[0-9]"]
           ["[+]"; "E"] "1+2"
           (PList [PStr "E"; PStr "1"], PStr "+2") eq_refl).
  left. exists [PStr "1"], (PStr "+2"). split; [|split; [discriminate|reflexivity]].
  apply sequence_returns_direct; [reflexivity|].
  exists 1%nat. vm_compute. reflexivity.
Defined.

(** ** The children of a tree *)

Lemma threads_length (call : string → pyval → ParseResult → Prop)
    (sequence : list string) (text : pyval) (trees : list pyval) (rem : pyval) :
  threads call sequence text trees rem → length trees = length sequence.
Proof. induction 1; simpl; congruence. Qed.

(** X13. The tree that [parse_atom] returns for a symbol of the grammar is
    the list of the symbol and of one tree for each atom of one of its
    alternatives. *)
Theorem nonterminal_tree_children `{Builtins} (grammar : Grammar)
    (tokenizer : string) (E : string) (alts : list (list string))
    (text : string) (tree rem : pyval) :
  grammar !! E = Some (Alternatives alts) →
  atom_returns grammar tokenizer E (PStr text) (tree, rem) → rem ≠ PNone →
  ∃ alternative children,
    alternative ∈ alts
    ∧ tree = PList (PStr E :: children)
    ∧ length children = length alternative.
Proof.
  intros HE Hr Hrem.
  apply (atom_returns_first grammar tokenizer E (PStr text) _ _ HE) in Hr
    as [(before & alternative & after & trees & rem' & Halts & _ & Hs & _ & Heq)
       |[_ [= _ ->]]]; [|done|done].
  injection Heq as -> ->. cbn [alternatives_of] in Halts.
  exists alternative, trees. split_and!; [|done|].
  - rewrite Halts. apply elem_of_app. right. by left.
  - apply sequence_returns_threads in Hs
      as [(ts & rem'' & Hth & [= -> ->])|[_ [= ]]]; [|done].
    by apply threads_length in Hth.
Qed.

Lemma nonterminal_tree_children_witness :
  ∃ alternative children,
    alternative ∈ [["[0-9]"; "[+]"; "E"]; ["[0-9]"]]
    ∧ PList [PStr "E"; PStr "1"; PStr "+"; PList [PStr "E"; PStr "2"]]
      = PList (PStr "E" :: children)
    ∧ length children = length alternative.
Proof.
  apply (nonterminal_tree_children
           (<[ "E" := Alternatives [["[0-9]"; "[+]"; "E"]; ["[0-9]"]] ]>
              {[ " " := Pattern "\s*" ]})
           "\s*(%s)" "E" _ "1+2" _ (PStr "")); [reflexivity| |discriminate].
  apply atom_returns_direct; [reflexivity|].
  exists 3%nat. vm_compute. reflexivity.
Defined.

(** ** Calls that raise nothing *)

Definition no_raise {A} (o : outcome A) : Prop := ∀ e, o ≠ Raise e.

Section NoRaise.
Context `{Builtins}.
Variable grammar : Grammar.
Variable tokenizer : string.

(** The pattern of the terminal [atom] can be built and compiled, and
    has a group for [m.group(1)]. *)
Definition compiles (atom : string) : bool :=
  match (pattern ←! str_mod tokenizer (PStr atom) ;; re_compile pattern) with
  | Ret r => negb (regex_groups r =? 0)%nat
  | _ => false
  end.

(** [atom] is a symbol of the grammar whose alternatives are made of
    atoms of [atoms], or a terminal whose pattern compiles with a group. *)
Definition closed_atom (atoms : list string) (atom : string) : bool :=
  match grammar !! atom with
  | Some e =>
      forallb (forallb (λ a, bool_decide (a ∈ atoms))) (alternatives_of e)
  | None => compiles atom
  end.

(** The atoms that a parse can meet, starting from one of them. *)
Definition closed (atoms : list string) : bool :=
  forallb (closed_atom atoms) atoms.

Lemma match_terminal_no_raise atom t :
  compiles atom = true →
  no_raise (match_terminal tokenizer (PStr atom) (PStr t)).
Proof.
  unfold compiles, match_terminal, re_match. intros Hc e.
  destruct (str_mod tokenizer (PStr atom)) as [pattern| |]; cbn [obind] in *;
    [|done..].
  destruct (re_compile pattern) as [re| |]; cbn [obind] in *; [|done..].
  destruct (regex_match re t) as [m|]; cbn [fmap option_fmap option_map];
    [|done].
  unfold group. cbn [fst snd]. by destruct (regex_groups re).
Qed.

Lemma direct_result fuel atom text r :
  is_str text → direct grammar tokenizer fuel [PStr atom; text] = Ret r →
  r = Fail ∨ is_str r.2.
Proof.
  intros Ht Hr. destruct (direct_shape grammar tokenizer fuel atom text r Ht Hr)
    as [->|[? _]]; [by left|by right].
Qed.

Lemma direct_loop_no_raise (atoms : list string) (fuel : nat)
    (sequence : list string) (text : pyval) (result : list pyval) :
  (∀ atom t, atom ∈ atoms →
     no_raise (direct grammar tokenizer fuel [PStr atom; PStr t])) →
  Forall (λ a, a ∈ atoms) sequence → is_str text →
  no_raise (direct_loop grammar tokenizer fuel sequence text result).
Proof.
  intros IH Hseq. revert text result.
  induction Hseq as [|atom sequence Ha _ IHs]; intros text result [t ->] e.
  - by rewrite direct_loop_nil.
  - rewrite direct_loop_cons.
    destruct (direct grammar tokenizer fuel [PStr atom; PStr t])
      as [r| |] eqn:Er; cbn [obind]; [|by apply IH in Er|done].
    destruct (direct_result fuel atom (PStr t) r) as [->|Hs];
      [by exists t|done|done|].
    destruct Hs as [t' Ht']. rewrite Ht'. cbn [is_none].
    apply IHs. by exists t'.
Qed.

Lemma direct_alternatives_no_raise (atoms : list string) (fuel : nat)
    (atom : string) (text : pyval) (alternatives : list (list string)) :
  (∀ atom t, atom ∈ atoms →
     no_raise (direct grammar tokenizer fuel [PStr atom; PStr t])) →
  Forall (Forall (λ a, a ∈ atoms)) alternatives → is_str text →
  no_raise (direct_alternatives grammar tokenizer fuel (PStr atom) text
              alternatives).
Proof.
  intros IH Halts Ht.
  induction Halts as [|alternative alternatives Ha _ IHa]; intros e.
  - by rewrite direct_alternatives_nil.
  - rewrite direct_alternatives_cons.
    destruct (direct_sequence grammar tokenizer fuel alternative text)
      as [r| |] eqn:Er; cbn [obind]; [| |done].
    + destruct (direct_loop_shape grammar tokenizer fuel alternative text [] r
                  Ht Er) as [->|[[t' Ht'] [trees Htrees]]].
      { intros ? ? ?. apply direct_result. }
      * cbn. apply IHa.
      * rewrite Ht', Htrees. by cbn.
    + by apply (direct_loop_no_raise atoms) in Er.
Qed.

Lemma closed_atom_alternatives (atoms : list string) (atom : string)
    (e : entry) :
  closed_atom atoms atom = true → grammar !! atom = Some e →
  Forall (Forall (λ a, a ∈ atoms)) (alternatives_of e).
Proof.
  unfold closed_atom. intros Hc Hg. rewrite Hg in Hc.
  apply Forall_forall. intros alternative Hin.
  rewrite forallb_forall in Hc. apply list_elem_of_In, Hc in Hin.
  apply Forall_forall. intros a Ha.
  rewrite forallb_forall in Hin. apply list_elem_of_In, Hin in Ha.
  by apply bool_decide_eq_true in Ha.
Qed.

Lemma direct_no_raise (atoms : list string) (fuel : nat) (atom t : string) :
  closed atoms = true → atom ∈ atoms →
  no_raise (direct grammar tokenizer fuel [PStr atom; PStr t]).
Proof.
  intros Hc. revert atom t.
  induction fuel as [|fuel IH]; intros atom t Hin e.
  - by rewrite direct_O.
  - rewrite direct_S. cbn [in_grammar hashable obind].
    assert (closed_atom atoms atom = true) as Ha.
    { unfold closed in Hc. rewrite forallb_forall in Hc.
      by apply Hc, list_elem_of_In. }
    destruct (grammar !! atom) as [e'|] eqn:Hg.
    + apply (direct_alternatives_no_raise atoms); [done| |by exists t].
      by apply (closed_atom_alternatives atoms atom).
    + apply match_terminal_no_raise. unfold closed_atom in Ha.
      by rewrite Hg in Ha.
Qed.
End NoRaise.

Lemma parse_no_raise `{Builtins} (grammar : Grammar) (whitespace : string)
    (atoms : list string) (fuel : nat) (start_symbol text : string) :
  grammar !! " " = Some (Pattern whitespace) →
  closed grammar (whitespace +:+ "(%s)") atoms = true →
  start_symbol ∈ atoms →
  no_raise (parse fuel (PStr start_symbol) (PStr text) grammar).
Proof.
  intros Hws Hc Hin e Hp.
  destruct (parse_sound fuel (PStr start_symbol) (PStr text) grammar)
    as [fuel' Hu]; [done|by rewrite Hp|].
  rewrite Hp, (parse_undecorated_direct _ _ _ _ whitespace) in Hu by done.
  by apply (direct_no_raise grammar _ atoms) in Hu.
Qed.

(** X14. When the patterns of the terminals that the start symbol leads to
    can be built and compiled and have a group, so that [m.group(1)]
    exists, [parse] raises nothing on a [str]: a text that does not parse
    gives (None, None). *)
Theorem parse_never_raises `{Builtins} (grammar : Grammar) (whitespace : string)
    (atoms : list string) (fuel : nat) (start_symbol text : string) (e : exn) :
  grammar !! " " = Some (Pattern whitespace) →
  closed grammar (whitespace +:+ "(%s)") atoms = true →
  start_symbol ∈ atoms →
  parse fuel (PStr start_symbol) (PStr text) grammar ≠ Raise e.
Proof. intros Hws Hc Hin. by apply (parse_no_raise grammar whitespace atoms). Qed.

Lemma parse_never_raises_witness :
  parse 3 (PStr "E") (PStr "b")
    (<[ "E" := Alternatives [["a"]; ["a"; "b"]] ]> {[ " " := Pattern "\s*" ]})
  ≠ Raise ReError.
Proof.
  apply (parse_never_raises _ "\s*" ["E"; "a"; "b"]).
  - reflexivity.
  - vm_compute. reflexivity.
  - left.
Defined.

(** ** json_parse raises nothing *)

(** The symbols and the terminals of the JSON grammar. *)
Definition json_atoms : list string :=
  ["value"; "object"; "array"; "number"; "string"; "members"; "pair";
   "elements"; "int"; "frac"; "exp";
   "[{]"; "[}]"; "[,]"; "[:]"; "[[]"; "[]]";
   "[-+]?[0-9]+"; "[.][0-9]+"; "e[+-][0-9]+";
   dquote +:+ "([^" +:+ dquote +:+ "\\]|\[" +:+ dquote +:+ "\/bfnrtu])*"
     +:+ dquote].

(** X15. [json_parse] raises no exception on a [str], whatever the text: each
    terminal of the JSON grammar has a pattern that compiles, with the
    parentheses of the tokenizer as its group 1. *)
Theorem json_parse_never_raises (fuel : nat) (text : string) (e : exn) :
  json_parse fuel (PStr text) ≠ Raise e.
Proof.
  assert ((G ←! JSON ;;
           Ret (match G !! " " with
                | Some (Pattern whitespace) =>
                    String.eqb whitespace "\s*"
                    && closed G (whitespace +:+ "(%s)") json_atoms
                | _ => false
                end))
          = Ret true) as E by (vm_compute; reflexivity).
  unfold json_parse. destruct JSON as [G| |]; cbn [obind] in *; [|done..].
  destruct (G !! " ") as [[whitespace|]|] eqn:Hws; [|done..].
  injection E as [_ Hc]%andb_true_iff.
  apply (parse_no_raise G whitespace json_atoms); [done..|left].
Qed.

(** ** Writing a grammar down and reading it back *)

(** [sep.join(l)] *)
Fixpoint join (sep : string) (l : list string) : string :=
  match l with
  | [] => ""
  | [x] => x
  | x :: l' => x +:+ sep +:+ join sep l'
  end.

(** A rule as a line of a description: the symbol, [" => "], and the
    alternatives, their atoms one space apart, with [" | "] between
    them. *)
Definition render_rule (r : string * list (list string)) : string :=
  r.1 +:+ " => " +:+ join " | " (map (join " ") r.2).

(** The rules, one on each line. *)
Definition render (rules : list (string * list (list string))) : string :=
  join newline (map render_rule rules).

(** A symbol or an atom that can be written down: not empty, without
    white space. *)
Definition word (s : string) : bool := Str.nonempty s && spaceless s.

(** An atom is a word other than the bar. *)
Definition atom_ok (a : string) : bool := word a && negb (String.eqb a "|").

Definition alternative_ok (alt : list string) : bool :=
  match alt with [] => false | _ => forallb atom_ok alt end.

Definition rule_ok (r : string * list (list string)) : bool :=
  word r.1 && match r.2 with [] => false | _ => forallb alternative_ok r.2 end.

Section Join.
Import StrFacts SplitFacts.

Lemma join_cons sep x y l :
  join sep (x :: y :: l) = x +:+ sep +:+ join sep (y :: l).
Proof. done. Qed.

(** *** Texts that are stripped *)

(** [s] starts and ends with a character that is not white space. *)
Definition trimmed (s : string) : Prop := starts_black s ∧ Str.rstrip s = s.

Lemma trimmed_strip s : trimmed s → Str.strip s = s.
Proof. intros [Hb Hr]. unfold Str.strip. by rewrite lstrip_black. Qed.

Lemma trimmed_nonempty s : trimmed s → Is_true (Str.nonempty s).
Proof. intros [Hb _]. by destruct s. Qed.

Lemma starts_black_blank s : starts_black s → blank s = false.
Proof. destruct s as [|c s]; simpl; [done|]. by intros ->. Qed.

Lemma starts_black_app a b : starts_black a → starts_black (a +:+ b).
Proof. by destruct a. Qed.

Lemma trimmed_app a m b : trimmed a → trimmed b → trimmed (a +:+ m +:+ b).
Proof.
  intros [Ha Hra] [Hb Hrb]. split; [by apply starts_black_app|].
  rewrite <-append_assoc, rstrip_app by by apply starts_black_blank.
  by rewrite Hrb.
Qed.

Lemma word_trimmed w : word w = true → trimmed w.
Proof.
  intros [Hn Hs]%andb_true_iff. split; [|by apply rstrip_spaceless].
  destruct w as [|c w]; [done|]. simpl in *.
  apply andb_true_iff in Hs as [Hc _]. by apply negb_true_iff in Hc.
Qed.

Lemma join_trimmed sep l :
  l ≠ [] → Forall trimmed l → trimmed (join sep l).
Proof.
  intros Hl Hall. induction Hall as [|x l Hx Hall IH]; [done|].
  destruct l as [|y l]; [done|]. rewrite join_cons.
  apply trimmed_app; [done|]. by apply IH.
Qed.

(** *** Texts without tabs and newlines *)

Lemma replace_char_spaceless s :
  spaceless s = true → Str.replace_char tab " " s = s.
Proof.
  induction s as [|c s IH]; simpl; [done|].
  intros [Hc Hs]%andb_true_iff. rewrite IH by done. f_equal.
  destruct (Ascii.eqb_spec c tab) as [->|]; [|done].
  by vm_compute in Hc.
Qed.

Lemma replace_char_join sep l :
  Str.replace_char tab " " sep = sep →
  Forall (λ x, Str.replace_char tab " " x = x) l →
  Str.replace_char tab " " (join sep l) = join sep l.
Proof.
  intros Hsep Hall. induction Hall as [|x l Hx Hall IH]; [done|].
  destruct l as [|y l]; [done|]. rewrite join_cons.
  by rewrite !replace_char_app, Hx, Hsep, IH.
Qed.

Lemma one_line_app a b : one_line (a +:+ b) = one_line a && one_line b.
Proof.
  induction a as [|c a IH]; [done|].
  change (String c a +:+ b) with (String c (a +:+ b)).
  by rewrite !one_line_cons, IH, andb_assoc.
Qed.

Lemma one_line_spaceless s : spaceless s = true → one_line s = true.
Proof.
  induction s as [|c s IH]; [done|]. rewrite one_line_cons. cbn [spaceless].
  intros [Hc Hs]%andb_true_iff. rewrite IH by done.
  destruct (Ascii.eqb_spec (ascii_of_nat 10) c) as [<-|]; [|done].
  by vm_compute in Hc.
Qed.

Lemma one_line_join sep l :
  one_line sep = true → Forall (λ x, one_line x = true) l →
  one_line (join sep l) = true.
Proof.
  intros Hsep Hall. induction Hall as [|x l Hx Hall IH]; [done|].
  destruct l as [|y l]; [done|]. rewrite join_cons.
  by rewrite !one_line_app, Hx, Hsep, IH.
Qed.

(** *** Cutting a joined text *)

(** A word has no place where a separator that starts with white space
    starts. *)
Lemma partition_word sep w s :
  spaced sep → spaceless w = true →
  partition sep (w +:+ s)
  = match partition sep s with
    | Some (a, b) => Some (w +:+ a, b)
    | None => None
    end.
Proof.
  intros Hsep. induction w as [|c w IH]; intros Hw.
  - simpl. by destruct (partition sep s) as [[a b]|].
  - simpl in Hw. apply andb_true_iff in Hw as [Hc Hw].
    apply negb_true_iff in Hc.
    change (String c w +:+ s) with (String c (w +:+ s)).
    rewrite partition_not_startswith.
    + rewrite IH by done. by destruct (partition sep s) as [[a b]|].
    + by apply startswith_black.
Qed.

Lemma partition_here sep s :
  partition sep (sep +:+ s) = Some ("", s).
Proof.
  rewrite partition_startswith by apply startswith_append. f_equal. f_equal.
  induction sep as [|c sep IH]; [done|]. apply IH.
Qed.

(** After an atom comes no bar that stands alone. *)
Lemma atom_no_bar a s :
  atom_ok a = true → Str.startswith " | " (String " " (a +:+ s)) = false.
Proof.
  intros [[Hn Hs]%andb_true_iff Hbar%negb_true_iff]%andb_true_iff.
  destruct a as [|c a]; [done|]. cbn [Str.startswith].
  change (String c a +:+ s) with (String c (a +:+ s)). cbn [Str.startswith].
  rewrite Ascii.eqb_refl. cbn [andb].
  destruct (Ascii.eqb_spec "|" c) as [<-|]; [|done]. cbn [andb].
  destruct a as [|d a]; [done|].
  change (String d a +:+ s) with (String d (a +:+ s)). cbn [Str.startswith].
  cbn [spaceless] in Hs. apply andb_true_iff in Hs as [_ [Hd _]%andb_true_iff].
  destruct (Ascii.eqb_spec " " d) as [<-|]; [by vm_compute in Hd|done].
Qed.

Lemma atom_no_bar_end a :
  atom_ok a = true → Str.startswith " | " (String " " a) = false.
Proof. intros Ha. rewrite <-(append_nil_r a). by apply atom_no_bar. Qed.
End Join.

Section Groups.
Import StrFacts SplitFacts.

Lemma atom_ok_word a : atom_ok a = true → word a = true.
Proof. by intros [? _]%andb_true_iff. Qed.

Lemma word_spaceless w : word w = true → spaceless w = true.
Proof. by intros [_ ?]%andb_true_iff. Qed.

Lemma alternative_ok_cons a alt :
  alternative_ok (a :: alt) = atom_ok a && forallb atom_ok alt.
Proof. done. Qed.

Lemma alternative_ok_trimmed alt :
  alternative_ok alt = true → trimmed (join " " alt).
Proof.
  intros Hok. apply join_trimmed; [by destruct alt|].
  destruct alt as [|a alt]; [done|]. unfold alternative_ok in Hok.
  apply Forall_forall. intros x Hx. rewrite forallb_forall in Hok.
  by apply word_trimmed, atom_ok_word, Hok, list_elem_of_In.
Qed.

(** The first bar that stands alone comes after the group. *)
Lemma partition_group alt rest :
  alternative_ok alt = true →
  partition " | " (join " " alt +:+ " | " +:+ rest) = Some (join " " alt, rest).
Proof.
  induction alt as [|a alt IH]; [done|]. rewrite alternative_ok_cons.
  intros [Ha Halt]%andb_true_iff.
  pose proof (word_spaceless a (atom_ok_word a Ha)) as Hsp.
  destruct alt as [|a2 alt].
  - cbn [join]. rewrite partition_word by (done || apply spaced_bar).
    by rewrite partition_here, append_nil_r.
  - rewrite join_cons, !append_assoc.
    rewrite partition_word by (done || apply spaced_bar).
    change (" " +:+ join " " (a2 :: alt) +:+ " | " +:+ rest)
      with (String " " (join " " (a2 :: alt) +:+ " | " +:+ rest)).
    rewrite partition_not_startswith.
    + rewrite IH by done. done.
    + cbn [forallb] in Halt. apply andb_true_iff in Halt as [Ha2 _].
      destruct alt as [|a3 alt].
      * cbn [join]. by apply atom_no_bar.
      * rewrite join_cons, append_assoc. by apply atom_no_bar.
Qed.

Lemma partition_group_none alt :
  alternative_ok alt = true → partition " | " (join " " alt) = None.
Proof.
  induction alt as [|a alt IH]; [done|]. rewrite alternative_ok_cons.
  intros [Ha Halt]%andb_true_iff.
  pose proof (word_spaceless a (atom_ok_word a Ha)) as Hsp.
  destruct alt as [|a2 alt].
  - cbn [join]. rewrite <-(append_nil_r a).
    by rewrite partition_word by (done || apply spaced_bar).
  - rewrite join_cons.
    rewrite partition_word by (done || apply spaced_bar).
    change (" " +:+ join " " (a2 :: alt))
      with (String " " (join " " (a2 :: alt))).
    rewrite partition_not_startswith.
    + by rewrite IH.
    + cbn [forallb] in Halt. apply andb_true_iff in Halt as [Ha2 _].
      destruct alt as [|a3 alt].
      * cbn [join]. by apply atom_no_bar_end.
      * rewrite join_cons. by apply atom_no_bar.
Qed.

(** Cutting at the bars gives the groups back. *)
Lemma split_sep_groups maxsplit alts :
  maxsplit < 0 → alts ≠ [] → forallb alternative_ok alts = true →
  Str.split_sep " | " maxsplit (join " | " (map (join " ") alts))
  = map (join " ") alts.
Proof.
  unfold Str.split_sep. intros Hm Hne. revert maxsplit Hm.
  induction alts as [|alt alts IH]; [done|]. intros maxsplit Hm.
  cbn [forallb]. intros [Halt Halts]%andb_true_iff.
  rewrite split_sep_go_partition by done.
  destruct (Z.eqb_spec maxsplit 0) as [->|_]; [lia|].
  destruct alts as [|alt2 alts].
  - cbn [map join]. by rewrite partition_group_none.
  - cbn [map]. rewrite join_cons, partition_group by done.
    cbn [String.append]. f_equal. apply IH; [done|lia|done].
Qed.

(** Cutting at the white space gives the atoms back. *)
Lemma split_ws_go_last maxsplit cur w :
  maxsplit < 0 → spaceless w = true → cur +:+ w ≠ "" →
  Str.split_ws_go maxsplit cur w = [cur +:+ w].
Proof.
  intros Hm. revert cur. induction w as [|c w IH]; intros cur Hw Hne.
  - rewrite append_nil_r in *. by destruct cur.
  - cbn [spaceless] in Hw. apply andb_true_iff in Hw as [Hc Hw].
    apply negb_true_iff in Hc. cbn [Str.split_ws_go]. rewrite Hc.
    destruct cur as [|d cur].
    + destruct (Z.eqb_spec maxsplit 0) as [->|_]; [lia|].
      by rewrite IH.
    + rewrite IH by (done || by destruct cur). by rewrite append_snoc.
Qed.

Lemma split_ws_go_word maxsplit cur w s :
  maxsplit < 0 → spaceless w = true → cur +:+ w ≠ "" →
  Str.split_ws_go maxsplit cur (w +:+ String " " s)
  = (cur +:+ w) :: Str.split_ws_go (maxsplit - 1) "" s.
Proof.
  intros Hm. revert cur. induction w as [|c w IH]; intros cur Hw Hne.
  - rewrite append_nil_r in *. cbn. by destruct cur.
  - cbn [spaceless] in Hw. apply andb_true_iff in Hw as [Hc Hw].
    apply negb_true_iff in Hc.
    change (String c w +:+ String " " s) with (String c (w +:+ String " " s)).
    cbn [Str.split_ws_go]. rewrite Hc.
    destruct cur as [|d cur].
    + destruct (Z.eqb_spec maxsplit 0) as [->|_]; [lia|].
      by rewrite IH.
    + rewrite IH by (done || by destruct cur). by rewrite append_snoc.
Qed.

Lemma split_ws_atoms maxsplit alt :
  maxsplit < 0 → forallb atom_ok alt = true →
  Str.split_ws maxsplit (join " " alt) = alt.
Proof.
  unfold Str.split_ws. intros Hm. revert maxsplit Hm.
  induction alt as [|a alt IH]; [done|]. intros maxsplit Hm.
  cbn [forallb]. intros [Ha Halt]%andb_true_iff.
  pose proof (atom_ok_word a Ha) as [Hn Hsp]%andb_true_iff.
  destruct alt as [|a2 alt].
  - cbn [join]. rewrite split_ws_go_last by (done || by destruct a). done.
  - rewrite join_cons.
    change (a +:+ " " +:+ join " " (a2 :: alt))
      with (a +:+ String " " (join " " (a2 :: alt))).
    rewrite split_ws_go_word by (done || by destruct a).
    cbn [String.append]. f_equal. apply IH; [lia|done].
Qed.
End Groups.

Section Render.
Import StrFacts SplitFacts.

Lemma rule_ok_inv r :
  rule_ok r = true →
  word r.1 = true ∧ r.2 ≠ [] ∧ forallb alternative_ok r.2 = true.
Proof.
  unfold rule_ok. intros [Hw Halts]%andb_true_iff.
  by destruct (r.2) as [|alt alts].
Qed.

Lemma groups_trimmed alts :
  forallb alternative_ok alts = true → Forall trimmed (map (join " ") alts).
Proof.
  intros Hok. apply Forall_forall. intros g (alt & -> & Hin)%list_elem_of_fmap.
  rewrite forallb_forall in Hok.
  by apply alternative_ok_trimmed, Hok, list_elem_of_In.
Qed.

Lemma render_rule_trimmed r : rule_ok r = true → trimmed (render_rule r).
Proof.
  intros (Hw & Hne & Halts)%rule_ok_inv. unfold render_rule.
  apply trimmed_app; [by apply word_trimmed|].
  apply join_trimmed; [by destruct (r.2)|by apply groups_trimmed].
Qed.

Lemma map_strip_trimmed l : Forall trimmed l → map Str.strip l = l.
Proof.
  induction 1 as [|x l Hx _ IH]; [done|]. cbn [map].
  by rewrite trimmed_strip, IH.
Qed.

Lemma filter_trimmed l :
  Forall trimmed l → filter (λ t, Is_true (Str.nonempty t)) l = l.
Proof.
  induction 1 as [|x l Hx _ IH]; [done|].
  rewrite filter_cons_True by by apply trimmed_nonempty. by rewrite IH.
Qed.

Lemma atoms_trimmed alt : forallb atom_ok alt = true → Forall trimmed alt.
Proof.
  intros Hok. apply Forall_forall. intros a Ha. rewrite forallb_forall in Hok.
  by apply word_trimmed, atom_ok_word, Hok, list_elem_of_In.
Qed.

Lemma split_group alt :
  alternative_ok alt = true → split (join " " alt) None (-1) = Ret alt.
Proof.
  intros Hok. unfold split, Str.split. cbn [obind].
  rewrite trimmed_strip by by apply alternative_ok_trimmed.
  assert (forallb atom_ok alt = true) as Hatoms by by destruct alt.
  rewrite split_ws_atoms by done.
  by rewrite filter_trimmed, map_strip_trimmed by by apply atoms_trimmed.
Qed.

Lemma omap_split_groups alts :
  forallb alternative_ok alts = true →
  omap (λ a, split a None (-1)) (map (join " ") alts) = Ret alts.
Proof.
  induction alts as [|alt alts IH]; [done|]. cbn [forallb map omap].
  intros [Halt Halts]%andb_true_iff.
  by rewrite split_group, IH.
Qed.

(** The line of a rule reads back as the rule. *)
Lemma rule_render r : rule_ok r = true → rule (render_rule r) = Ret r.
Proof.
  intros Hok. pose proof (render_rule_trimmed r Hok) as Hline.
  destruct (rule_ok_inv r Hok) as (Hw & Hne & Halts).
  pose proof (groups_trimmed r.2 Halts) as Hgroups.
  assert (trimmed (join " | " (map (join " ") r.2))) as Hrhs.
  { apply join_trimmed; [by destruct (r.2)|done]. }
  destruct (split_line (render_rule r) r.1 (join " | " (map (join " ") r.2)))
    as (Hsp & _ & _).
  { by apply trimmed_strip. }
  { unfold render_rule.
    rewrite partition_word by (apply spaced_arrow || by apply word_spaceless).
    by rewrite partition_here, append_nil_r. }
  rewrite !trimmed_strip in Hsp by (done || by apply word_trimmed).
  unfold rule. rewrite Hsp. cbn [obind].
  rewrite split_sep_eq by done. rewrite trimmed_strip by done.
  rewrite split_sep_groups by (done || lia).
  rewrite filter_trimmed, map_strip_trimmed by done. cbn [obind].
  rewrite omap_split_groups by done. cbn [obind]. by destruct r.
Qed.

Lemma split_newline_last maxsplit cur w :
  one_line w = true →
  Str.split_sep_go newline maxsplit cur 0 w = [cur +:+ w].
Proof.
  revert cur. induction w as [|c w IH]; intros cur Hw.
  - by rewrite append_nil_r.
  - rewrite one_line_cons in Hw. apply andb_true_iff in Hw as [Hc Hw].
    apply negb_true_iff in Hc.
    change (Str.split_sep_go newline maxsplit cur 0 (String c w))
      with (if negb (maxsplit =? 0) && Str.startswith newline (String c w)
            then cur :: Str.split_sep_go newline (maxsplit - 1) "" 0 w
            else Str.split_sep_go newline maxsplit (cur +:+ String c "") 0 w).
    rewrite startswith_newline, Hc, andb_false_r.
    rewrite IH by done. by rewrite append_snoc.
Qed.

Lemma split_newline_lines maxsplit lines :
  maxsplit < 0 → lines ≠ [] → Forall (λ l, one_line l = true) lines →
  Str.split_sep newline maxsplit (join newline lines) = lines.
Proof.
  unfold Str.split_sep. intros Hm Hne Hall. revert maxsplit Hm.
  induction Hall as [|l lines Hl Hall IH]; [done|]. intros maxsplit Hm.
  destruct lines as [|l2 lines].
  - cbn [join]. by rewrite split_newline_last.
  - rewrite join_cons, split_newline_prefix by done.
    cbn [String.append]. f_equal. apply IH; [done|lia].
Qed.

Lemma render_rule_plain r :
  rule_ok r = true →
  Str.replace_char tab " " (render_rule r) = render_rule r
  ∧ one_line (render_rule r) = true.
Proof.
  intros (Hw & Hne & Halts)%rule_ok_inv. apply word_spaceless in Hw.
  unfold render_rule. rewrite !replace_char_app, !one_line_app.
  rewrite replace_char_spaceless, one_line_spaceless by done.
  assert (Forall (λ alt, Forall (λ a, spaceless a = true) alt) r.2) as Hsp.
  { apply Forall_forall. intros alt Halt. apply Forall_forall. intros a Ha.
    rewrite forallb_forall in Halts. apply list_elem_of_In, Halts in Halt.
    assert (forallb atom_ok alt = true) as Hatoms by by destruct alt.
    rewrite forallb_forall in Hatoms.
    by apply word_spaceless, atom_ok_word, Hatoms, list_elem_of_In. }
  split.
  - f_equal. f_equal. apply replace_char_join; [done|].
    apply Forall_forall. intros g (alt & -> & Hin)%list_elem_of_fmap.
    apply replace_char_join; [done|].
    rewrite Forall_forall in Hsp. specialize (Hsp alt Hin).
    eapply Forall_impl; [done|]. intros a. apply replace_char_spaceless.
  - cbn [andb]. apply one_line_join; [done|].
    apply Forall_forall. intros g (alt & -> & Hin)%list_elem_of_fmap.
    apply one_line_join; [done|].
    rewrite Forall_forall in Hsp. specialize (Hsp alt Hin).
    eapply Forall_impl; [done|]. intros a. apply one_line_spaceless.
Qed.

(** The lines of the rules written down are the lines that [grammar]
    runs through. *)
Lemma description_lines_render rules :
  forallb rule_ok rules = true →
  description_lines (render rules) = map render_rule rules.
Proof.
  intros Hok. destruct rules as [|r0 rules0] eqn:Hrules; [done|].
  rewrite <-Hrules in *. assert (rules ≠ []) as Hne by by rewrite Hrules.
  clear Hrules.
  assert (Forall (λ r, rule_ok r = true) rules) as Hall.
  { apply Forall_forall. intros r Hr. rewrite forallb_forall in Hok.
    by apply Hok, list_elem_of_In. }
  assert (Forall trimmed (map render_rule rules)) as Htrim.
  { apply Forall_fmap. eapply Forall_impl; [done|].
    intros r. apply render_rule_trimmed. }
  unfold description_lines, render.
  rewrite replace_char_join; [|done|].
  - rewrite trimmed_strip by (apply join_trimmed; [by destruct rules|done]).
    rewrite split_newline_lines; [|lia|by destruct rules|].
    + by rewrite filter_trimmed, map_strip_trimmed.
    + apply Forall_fmap. eapply Forall_impl; [done|].
      intros r Hr. by apply render_rule_plain.
  - apply Forall_fmap. eapply Forall_impl; [done|].
    intros r Hr. by apply render_rule_plain.
Qed.

Lemma grammar_lines_render rules (G : Grammar) :
  forallb rule_ok rules = true →
  grammar_lines (map render_rule rules) G
  = Ret (foldl (λ G r, <[r.1 := Alternatives r.2]> G) G rules).
Proof.
  revert G. induction rules as [|r rules IH]; intros G; [done|].
  cbn [forallb map]. intros [Hr Hrules]%andb_true_iff.
  rewrite grammar_lines_cons, rule_render by done. cbn [obind foldl].
  by apply IH.
Qed.
End Render.

(** X16. Rules written down in the format of the descriptions, one on each
    line as [lhs => atom ... atom | atom ... atom], compile to the dict
    of these rules: each symbol with its alternatives as they are, a
    later rule for a symbol in the place of an earlier one.  The symbols
    and the atoms are not empty and have no white space, no atom is the
    bar alone, each rule has an alternative and each alternative an
    atom. *)
Theorem grammar_render (rules : list (string * list (list string)))
    (whitespace : string) :
  forallb rule_ok rules = true →
  grammar (render rules) whitespace
  = Ret (foldl (λ G r, <[r.1 := Alternatives r.2]> G)
           {[ " " := Pattern whitespace ]} rules).
Proof.
  intros Hok. rewrite grammar_eq, description_lines_render by done.
  by apply grammar_lines_render.
Qed.

Lemma grammar_render_witness :
  grammar ("E => T [+] E | T" +:+ newline +:+ "T => [0-9]+") "\s*"
  = Ret (<[ "T" := Alternatives [["[0-9]+"]] ]>
           (<[ "E" := Alternatives [["T"; "[+]"; "E"]; ["T"]] ]>
              {[ " " := Pattern "\s*" ]})).
Proof.
  apply (grammar_render [("E", [["T"; "[+]"; "E"]; ["T"]]);
                         ("T", [["[0-9]+"]])] "\s*").
  reflexivity.
Defined.

(** ** What a match consumes *)

Module ModelFacts.
Import Model.

(** The least number of characters that a match of [r] takes. *)
Fixpoint min_len (r : re) : nat :=
  match r with
  | Eps => 0
  | Chars _ _ => 1
  | Seq r1 r2 => min_len r1 + min_len r2
  | Alt r1 r2 => min_len r1 `min` min_len r2
  | Repeat lo _ r1 => lo * min_len r1
  | Group _ r1 => min_len r1
  end.

(** The continuation [k] gave [res], called at least [n] characters
    further in the text. *)
Definition advances (n : nat) (s : list ascii) (pos : nat) (k : continuation)
    (res : nat * captures) : Prop :=
  ∃ s' pos' cs',
    k s' pos' cs' = Some res
    ∧ (pos + n ≤ pos')%nat
    ∧ (pos' + length s' = pos + length s)%nat.

Lemma advances_more n n' s pos k res :
  (n' ≤ n)%nat → advances n s pos k res → advances n' s pos k res.
Proof.
  intros Hn (s' & pos' & cs' & Hk & Hpos & Hlen).
  exists s', pos', cs'. split_and!; [done|lia|done].
Qed.

Lemma exec_advances (r : re) (s : list ascii) (pos : nat) (cs : captures)
    (k : continuation) (res : nat * captures) :
  exec r s pos cs k = Some res → advances (min_len r) s pos k res.
Proof.
  revert s pos cs k res.
  induction r as [|negated items|r1 IH1 r2 IH2|r1 IH1 r2 IH2|lo hi r1 IH1|n r1 IH1];
    intros s pos cs k res; cbn [exec min_len].
  - intros Hk. exists s, pos, cs. split_and!; [done|lia|done].
  - destruct s as [|c s']; [done|].
    destruct (xorb negated (existsb (in_item c) items)); [|done].
    intros Hk. exists s', (S pos), cs. cbn [length]. split_and!; [done|lia..].
  - intros (s1 & pos1 & cs1 & Hk1 & Hpos1 & Hlen1)%IH1.
    apply IH2 in Hk1 as (s2 & pos2 & cs2 & Hk2 & Hpos2 & Hlen2).
    exists s2, pos2, cs2. split_and!; [done|lia..].
  - destruct (exec r1 s pos cs k) as [m|] eqn:E1.
    + intros [= <-]. apply IH1 in E1. eapply advances_more; [|done]. lia.
    + intros E2. apply IH2 in E2. eapply advances_more; [|done]. lia.
  - set (iterate := fix iterate (fuel count : nat) (s : list ascii) (pos : nat)
                        (cs : captures) {struct fuel} : option (nat * captures) :=
           match fuel with
           | O => k s pos cs
           | S fuel' =>
               if (count <? lo)%nat then
                 exec r1 s pos cs
                   (λ s' pos' cs', iterate fuel' (S count) s' pos' cs')
               else if match hi with
                       | Some h => (h <=? count)%nat
                       | None => false
                       end
               then k s pos cs
               else
                 match exec r1 s pos cs (λ s' pos' cs',
                         if (pos' =? pos)%nat then k s' pos' cs'
                         else iterate fuel' (S count) s' pos' cs') with
                 | Some m => Some m
                 | None => k s pos cs
                 end
           end).
    assert (∀ fuel count s pos cs,
              (lo ≤ count + fuel)%nat →
              iterate fuel count s pos cs = Some res →
              advances ((lo - count) * min_len r1) s pos k res) as Hit.
    { clear s pos cs. induction fuel as [|fuel IHf]; intros count s pos cs Hlo.
      - cbn. intros Hk. exists s, pos, cs.
        replace (lo - count)%nat with 0%nat by lia. split_and!; [done|lia|done].
      - cbn [iterate]. destruct (Nat.ltb_spec count lo) as [Hlt|Hge].
        + intros (s1 & pos1 & cs1 & Hk1 & Hpos1 & Hlen1)%IH1.
          apply IHf in Hk1 as (s2 & pos2 & cs2 & Hk2 & Hpos2 & Hlen2); [|lia].
          exists s2, pos2, cs2. split_and!; [done| |lia].
          replace (lo - count)%nat with (S (lo - S count)) by lia. lia.
        + replace (lo - count)%nat with 0%nat by lia. cbn [Nat.mul].
          destruct (match hi with
                    | Some h => (h <=? count)%nat
                    | None => false
                    end).
          * intros Hk. exists s, pos, cs. split_and!; [done|lia|done].
          * destruct (exec r1 s pos cs _) as [m|] eqn:E1.
            -- intros [= <-].
               apply IH1 in E1 as (s1 & pos1 & cs1 & Hk1 & Hpos1 & Hlen1).
               destruct (pos1 =? pos)%nat.
               ++ exists s1, pos1, cs1. split_and!; [done|lia|done].
               ++ apply IHf in Hk1 as (s2 & pos2 & cs2 & Hk2 & Hpos2 & Hlen2);
                    [|lia].
                  exists s2, pos2, cs2. split_and!; [done|lia..].
            -- intros Hk. exists s, pos, cs. split_and!; [done|lia|done]. }
    intros Hres. apply Hit in Hres; [|lia].
    by rewrite Nat.sub_0_r in Hres.
  - intros (s1 & pos1 & cs1 & Hk1 & Hpos1 & Hlen1)%IH1.
    exists s1, pos1, ((n, string_of_list_ascii (take (pos1 - pos) s)) :: cs1).
    by split_and!.
Qed.

Lemma length_list_ascii_of_string (s : string) :
  length (list_ascii_of_string s) = String.length s.
Proof. induction s as [|c s IH]; simpl; congruence. Qed.

(** A match ends inside the text and takes at least [min_len r]
    characters of it. *)
Lemma match_advances (r : re) (text : string) (m : Match) :
  match_ r text = Some m →
  (min_len r ≤ m_end m)%nat ∧ (m_end m ≤ String.length text)%nat.
Proof.
  unfold match_.
  destruct (exec r (list_ascii_of_string text) 0 [] _) as [[pos cs]|] eqn:E;
    [|done].
  intros [= <-]. cbn [m_end].
  apply exec_advances in E as (s' & pos' & cs' & [= -> ->] & Hpos & Hlen).
  rewrite length_list_ascii_of_string in Hlen. lia.
Qed.

Lemma length_drop (n : nat) (s : string) :
  (n ≤ String.length s)%nat →
  String.length (Str.drop n s) = (String.length s - n)%nat.
Proof.
  revert n. induction s as [|c s IH]; intros [|n]; simpl; try done; try lia.
  intros Hn. apply IH. lia.
Qed.
End ModelFacts.

(** ** Calls that return *)

Lemma length_append (a b : string) :
  String.length (a +:+ b) = (String.length a + String.length b)%nat.
Proof. induction a as [|c a IH]; simpl; congruence. Qed.

(** The result [r] of a call on the text [t]: a failure, or a remainder
    shorter than [t]. *)
Definition shorter (t : string) (r : ParseResult) : Prop :=
  r = Fail
  ∨ ∃ rem, r.2 = PStr rem ∧ (String.length rem < String.length t)%nat.

Section Termination.
Context `{Builtins}.
Variable grammar : Grammar.
Variable tokenizer : string.
Variable atoms : list string.
Variable rank : string → nat.
Variable R : nat.

(** A terminal that matches in a bounded number of steps and whose
    matches take at least one character. *)
Definition consuming (atom : string) : Prop :=
  ∀ t,
    match_terminal tokenizer (PStr atom) (PStr t) ≠ OutOfFuel
    ∧ ∀ r, match_terminal tokenizer (PStr atom) (PStr t) = Ret r → shorter t r.

(** An alternative of [atom] that starts with an atom of smaller rank. *)
Definition descends (atom : string) (alt : list string) : Prop :=
  ∃ a1 rest,
    alt = a1 :: rest ∧ (rank a1 < rank atom)%nat ∧ Forall (λ a, a ∈ atoms) alt.

Hypothesis rank_bound : ∀ atom, atom ∈ atoms → (rank atom ≤ R)%nat.
Hypothesis rules_descend :
  ∀ atom e, atom ∈ atoms → grammar !! atom = Some e →
            Forall (descends atom) (alternatives_of e).
Hypothesis terminals_consume :
  ∀ atom, atom ∈ atoms → grammar !! atom = None → consuming atom.

Lemma leaves_length (t : string) (r : ParseResult) :
  leaves t r →
  r = Fail
  ∨ ∃ rem, r.2 = PStr rem ∧ (String.length rem ≤ String.length t)%nat.
Proof.
  intros [->|(consumed & rest & Hr & ->)]; [by left|]. right.
  exists rest. split; [done|]. rewrite length_append. lia.
Qed.

Lemma direct_loop_length (fuel : nat) (sequence : list string) (t : string)
    (result : list pyval) (r : ParseResult) :
  direct_loop grammar tokenizer fuel sequence (PStr t) result = Ret r →
  r = Fail
  ∨ ∃ rem, r.2 = PStr rem ∧ (String.length rem ≤ String.length t)%nat.
Proof.
  intros Hr. apply leaves_length.
  apply (direct_loop_leaves grammar tokenizer fuel sequence t result r);
    [|done].
  intros ? ? ?. apply direct_leaves.
Qed.

(** A call that succeeds takes at least one character. *)
Lemma direct_shorter (fuel : nat) (atom t : string) (r : ParseResult) :
  atom ∈ atoms → direct grammar tokenizer fuel [PStr atom; PStr t] = Ret r →
  shorter t r.
Proof.
  revert atom t r. induction fuel as [|fuel IH]; intros atom t r Hin.
  - by rewrite direct_O.
  - rewrite direct_S. cbn [in_grammar hashable obind].
    destruct (grammar !! atom) as [e|] eqn:Hg.
    + pose proof (rules_descend atom e Hin Hg) as Halts.
      induction Halts as [|alt alts (a1 & rest & -> & _ & Hatoms) _ IHa].
      * rewrite direct_alternatives_nil. intros [= <-]. by left.
      * rewrite direct_alternatives_cons. unfold direct_sequence.
        rewrite direct_loop_cons.
        destruct (direct grammar tokenizer fuel [PStr a1; PStr t])
          as [r1| |] eqn:E1; cbn [obind]; [|done..].
        apply Forall_cons in Hatoms as [Ha1 _].
        destruct (IH a1 t r1 Ha1 E1) as [->|(rem1 & Hr1 & Hlen1)].
        { cbn. apply IHa. }
        rewrite Hr1. cbn [is_none].
        destruct (direct_loop grammar tokenizer fuel rest (PStr rem1) _)
          as [r0| |] eqn:E0; cbn [obind]; [|done..].
        destruct (direct_loop_length _ _ _ _ _ E0) as [->|(rem & Hr0 & Hlen)].
        { cbn. apply IHa. }
        rewrite Hr0. cbn [is_none negb].
        destruct (cons_tree (PStr atom) r0.1) as [tree| |]; cbn [obind];
          [|done..].
        intros [= <-]. right. exists rem. split; [done|lia].
    + intros Hr. by apply (terminals_consume atom Hin Hg t).
Qed.

(** The calls of [parse_atom] that return at the depth [m]. *)
Definition returns_at (m : nat) : Prop :=
  ∀ atom t,
    atom ∈ atoms → (String.length t * S R + rank atom < m)%nat →
    direct grammar tokenizer m [PStr atom; PStr t] ≠ OutOfFuel.

Lemma direct_loop_returns (m : nat) (sequence : list string) (t : string)
    (result : list pyval) :
  returns_at m → Forall (λ a, a ∈ atoms) sequence →
  (String.length t * S R + R < m)%nat →
  direct_loop grammar tokenizer m sequence (PStr t) result ≠ OutOfFuel.
Proof.
  intros Hm Hseq. revert t result.
  induction Hseq as [|a sequence Ha _ IHs]; intros t result Hlen.
  - by rewrite direct_loop_nil.
  - rewrite direct_loop_cons.
    destruct (direct grammar tokenizer m [PStr a; PStr t]) as [r1| |] eqn:E1;
      cbn [obind]; [|done|].
    + destruct (leaves_length t r1 (direct_leaves _ _ _ _ _ _ E1))
        as [->|(rem & Hr & Hl)]; [done|].
      rewrite Hr. cbn [is_none]. apply IHs. nia.
    + exfalso. revert E1. apply Hm; [done|]. pose proof (rank_bound a Ha). lia.
Qed.

Lemma direct_returns_at (m : nat) : returns_at m.
Proof.
  induction m as [|m IH]; intros atom t Hin Hlen; [lia|].
  rewrite direct_S. cbn [in_grammar hashable obind].
  destruct (grammar !! atom) as [e|] eqn:Hg.
  - pose proof (rules_descend atom e Hin Hg) as Halts.
    induction Halts as [|alt alts (a1 & rest & -> & Hrank & Hatoms) _ IHa].
    + by rewrite direct_alternatives_nil.
    + rewrite direct_alternatives_cons. unfold direct_sequence.
      rewrite direct_loop_cons.
      apply Forall_cons in Hatoms as [Ha1 Hrest].
      destruct (direct grammar tokenizer m [PStr a1; PStr t])
        as [r1| |] eqn:E1; cbn [obind]; [|done|].
      * destruct (direct_shorter m a1 t r1 Ha1 E1) as [->|(rem1 & Hr1 & Hlen1)].
        { cbn. apply IHa. }
        rewrite Hr1. cbn [is_none].
        destruct (direct_loop grammar tokenizer m rest (PStr rem1) _)
          as [r0| |] eqn:E0; cbn [obind]; [|done|].
        -- destruct (is_none r0.2); cbn [negb]; [apply IHa|].
           unfold cons_tree. by destruct (r0.1).
        -- exfalso. revert E0. apply direct_loop_returns; [done..|]. nia.
      * exfalso. revert E1. apply IH; [done|lia].
  - apply (terminals_consume atom Hin Hg t).
Qed.
End Termination.

Lemma parse_in_depth `{Builtins} (grammar : Grammar) (whitespace : string)
    (atoms : list string) (rank : string → nat) (R fuel : nat)
    (start_symbol text : string) :
  grammar !! " " = Some (Pattern whitespace) →
  (∀ atom, atom ∈ atoms → (rank atom ≤ R)%nat) →
  (∀ atom e, atom ∈ atoms → grammar !! atom = Some e →
             Forall (descends atoms rank atom) (alternatives_of e)) →
  (∀ atom, atom ∈ atoms → grammar !! atom = None →
           consuming (whitespace +:+ "(%s)") atom) →
  start_symbol ∈ atoms →
  (String.length text * S R + rank start_symbol < fuel)%nat →
  parse fuel (PStr start_symbol) (PStr text) grammar ≠ OutOfFuel.
Proof.
  intros Hws Hbound Hrules Hterm Hin Hfuel.
  assert (parse_undecorated fuel (PStr start_symbol) (PStr text) grammar
          ≠ OutOfFuel) as Hu.
  { rewrite (parse_undecorated_direct _ _ _ _ whitespace) by done.
    by apply (direct_returns_at grammar _ atoms rank R). }
  by rewrite parse_complete.
Qed.

(** X17. [parse] returns or raises, within a depth of recursion that
    the length of the text bounds, when the atoms that the start symbol
    leads to can be ranked so that each alternative starts with an atom
    of smaller rank than its symbol (no left recursion), and each
    terminal matches at least one character when it matches. *)
Theorem parse_terminates `{Builtins} (grammar : Grammar) (whitespace : string)
    (atoms : list string) (rank : string → nat) (R fuel : nat)
    (start_symbol text : string) :
  grammar !! " " = Some (Pattern whitespace) →
  (∀ atom, atom ∈ atoms → (rank atom ≤ R)%nat) →
  (∀ atom e, atom ∈ atoms → grammar !! atom = Some e →
             Forall (descends atoms rank atom) (alternatives_of e)) →
  (∀ atom, atom ∈ atoms → grammar !! atom = None →
           consuming (whitespace +:+ "(%s)") atom) →
  start_symbol ∈ atoms →
  (String.length text * S R + rank start_symbol < fuel)%nat →
  parse fuel (PStr start_symbol) (PStr text) grammar ≠ OutOfFuel.
Proof. apply parse_in_depth. Qed.

(** ** Grammars over the model of the builtins *)

(** The pattern of the terminal [atom] compiles to an expression whose
    matches take at least one character. *)
Definition takes_a_character (tokenizer atom : string) : bool :=
  match (pattern ←! Model.mod_ tokenizer (PStr atom) ;; Model.compile pattern) with
  | Ret r => (1 <=? ModelFacts.min_len r)%nat
  | _ => false
  end.

Lemma takes_a_character_consuming (tokenizer atom : string) :
  takes_a_character tokenizer atom = true → consuming tokenizer atom.
Proof.
  unfold takes_a_character, consuming, match_terminal, re_match.
  cbn [str_mod re_compile regex_match Model.builtins].
  destruct (Model.mod_ tokenizer (PStr atom)) as [pattern| |]; cbn [obind];
    [|done..].
  destruct (Model.compile pattern) as [r| |]; cbn [obind]; [|done..].
  intros Hmin%Nat.leb_le t.
  destruct (Model.match_ r t) as [m|] eqn:Hm;
    cbn [fmap option_fmap option_map].
  - unfold group. cbn [fst snd regex_groups Model.builtins].
    destruct (Model.groups r); cbn [slice_from obind]; [by split|].
    split; [done|]. intros ? [= <-]. right.
    exists (Str.drop (m_end m) t). split; [done|].
    destruct (ModelFacts.match_advances r t m Hm) as [Hlo Hhi].
    rewrite ModelFacts.length_drop by done. lia.
  - split; [done|]. intros ? [= <-]. by left.
Qed.

(** The conditions of the ranking, computed. *)
Definition well_ranked (G : Grammar) (tokenizer : string) (rank : string → nat)
    (R : nat) (atoms : list string) : bool :=
  forallb (λ atom,
    (rank atom <=? R)%nat
    && match G !! atom with
       | Some e =>
           forallb (λ alt,
             match alt with
             | [] => false
             | a1 :: _ =>
                 (rank a1 <? rank atom)%nat
                 && forallb (λ a, bool_decide (a ∈ atoms)) alt
             end) (alternatives_of e)
       | None => takes_a_character tokenizer atom
       end) atoms.

Lemma well_ranked_sound (G : Grammar) (tokenizer : string) (rank : string → nat)
    (R : nat) (atoms : list string) :
  well_ranked G tokenizer rank R atoms = true →
  (∀ atom, atom ∈ atoms → (rank atom ≤ R)%nat)
  ∧ (∀ atom e, atom ∈ atoms → G !! atom = Some e →
               Forall (descends atoms rank atom) (alternatives_of e))
  ∧ (∀ atom, atom ∈ atoms → G !! atom = None → consuming tokenizer atom).
Proof.
  unfold well_ranked. rewrite forallb_forall. intros Hall.
  assert (∀ atom, atom ∈ atoms →
            (rank atom ≤ R)%nat
            ∧ match G !! atom with
              | Some e =>
                  Forall (descends atoms rank atom) (alternatives_of e)
              | None => consuming tokenizer atom
              end) as Hatoms.
  { intros atom Hin. apply list_elem_of_In, Hall in Hin.
    apply andb_true_iff in Hin as [Hr%Nat.leb_le Hrule]. split; [done|].
    destruct (G !! atom) as [e|]; [|by apply takes_a_character_consuming].
    apply Forall_forall. intros alt Halt. rewrite forallb_forall in Hrule.
    apply list_elem_of_In, Hrule in Halt. destruct alt as [|a1 rest]; [done|].
    apply andb_true_iff in Halt as [Hlt%Nat.ltb_lt Hin'].
    exists a1, rest. split_and!; [done..|].
    apply Forall_forall. intros a Ha. rewrite forallb_forall in Hin'.
    apply list_elem_of_In, Hin' in Ha. by apply bool_decide_eq_true in Ha. }
  split_and!.
  - intros atom Hin. by apply Hatoms.
  - intros atom e Hin Hg. destruct (Hatoms atom Hin) as [_ Hrule].
    by rewrite Hg in Hrule.
  - intros atom Hin Hg. destruct (Hatoms atom Hin) as [_ Hrule].
    by rewrite Hg in Hrule.
Qed.

Definition sum_rank (atom : string) : nat :=
  if String.eqb atom "E" then 2 else if String.eqb atom "T" then 1 else 0.

Lemma parse_terminates_witness :
  parse 20 (PStr "E") (PStr "1+2+")
    (<[ "E" := Alternatives [["T"; "[+]"; "E"]; ["T"]] ]>
       (<[ "T" := Alternatives [["[0-9]+"]] ]> {[ " " := Pattern "\s*" ]}))
  ≠ OutOfFuel.
Proof.
  destruct (well_ranked_sound
              (<[ "E" := Alternatives [["T"; "[+]"; "E"]; ["T"]] ]>
                 (<[ "T" := Alternatives [["[0-9]+"]] ]>
                    {[ " " := Pattern "\s*" ]}))
              "\s*(%s)" sum_rank 2 ["E"; "T"; "[+]"; "[0-9]+"])
    as (Hbound & Hrules & Hterm); [vm_compute; reflexivity|].
  apply (parse_terminates _ "\s*" ["E"; "T"; "[+]"; "[0-9]+"] sum_rank 2);
    [reflexivity|done..|left|vm_compute; lia].
Defined.

(** ** json_parse returns *)

Definition json_rank (atom : string) : nat :=
  if String.eqb atom "elements" then 4
  else if existsb (String.eqb atom) ["value"; "members"] then 3
  else if existsb (String.eqb atom) ["number"; "pair"] then 2
  else if existsb (String.eqb atom)
            ["int"; "frac"; "exp"; "string"; "object"; "array"] then 1
  else 0.

(** What [parse] returns for a symbol of the grammar: the failure, or the
    list that starts with the symbol, with an end of the text. *)
Lemma parse_symbol_result `{Builtins} (grammar : Grammar) (fuel : nat)
    (start_symbol text : string) (e : entry) (r : ParseResult) :
  grammar !! start_symbol = Some e →
  parse fuel (PStr start_symbol) (PStr text) grammar = Ret r →
  r = Fail
  ∨ ∃ children consumed rest,
      r = (PList (PStr start_symbol :: children), PStr rest)
      ∧ text = consumed +:+ rest.
Proof.
  intros He Hp.
  destruct (parse_sound fuel (PStr start_symbol) (PStr text) grammar)
    as [fuel' Hu]; [done|by rewrite Hp|].
  rewrite Hp in Hu.
  destruct (grammar !! " ") as [[whitespace|alts]|] eqn:Hws;
    [|unfold parse_undecorated, parse_with in Hu; by rewrite Hws in Hu..].
  rewrite (parse_undecorated_direct _ _ _ _ whitespace) in Hu by done.
  destruct (direct_leaves _ _ _ _ _ _ Hu) as [->|(consumed & rest & Hrest & ->)];
    [by left|].
  destruct (direct_shape grammar _ fuel' start_symbol _ r
              (ex_intro _ (consumed +:+ rest) eq_refl) Hu) as [->|[_ Hs]];
    [by left|].
  rewrite He in Hs. destruct Hs as [children Hc]. right.
  exists children, consumed, rest. split; [|done].
  destruct r as [tree rem]. simpl in *. by subst.
Qed.

(** X18. [json_parse] returns on every [str], once the depth allowed to
    the recursion is five times the length of the text plus four: it
    raises nothing and the recursion ends.  What it returns is
    (None, None), or the tree of a value, a list that starts with
    'value', with the rest of the text: a text that only starts with a
    value leaves what follows the value as the remainder. *)
Theorem json_parse_returns (fuel : nat) (text : string) :
  (5 * String.length text + 4 ≤ fuel)%nat →
  ∃ r,
    json_parse fuel (PStr text) = Ret r
    ∧ (r = Fail
       ∨ ∃ children consumed rest,
           r = (PList (PStr "value" :: children), PStr rest)
           ∧ text = consumed +:+ rest).
Proof.
  intros Hfuel.
  assert ((G ←! JSON ;;
           Ret (match G !! " ", G !! "value" with
                | Some (Pattern whitespace), Some _ =>
                    closed G (whitespace +:+ "(%s)") json_atoms
                    && well_ranked G (whitespace +:+ "(%s)") json_rank 4
                         json_atoms
                | _, _ => false
                end))
          = Ret true) as E by (vm_compute; reflexivity).
  unfold json_parse. destruct JSON as [G| |]; cbn [obind] in *; [|done..].
  destruct (G !! " ") as [[whitespace|]|] eqn:Hws; [|done..].
  destruct (G !! "value") as [e|] eqn:Hvalue; [|done].
  injection E as [Hc Hr]%andb_true_iff.
  destruct (well_ranked_sound _ _ _ _ _ Hr) as (Hbound & Hrules & Hterm).
  destruct (parse fuel (PStr "value") (PStr text) G) as [r|e'|] eqn:Hp.
  - exists r. split; [done|]. by apply (parse_symbol_result G fuel "value" text e).
  - exfalso. revert Hp.
    apply (parse_no_raise G whitespace json_atoms); [done..|left].
  - exfalso. revert Hp.
    apply (parse_in_depth G whitespace json_atoms json_rank 4);
      [done..|left|]. cbn. lia.
Qed.

Lemma json_parse_returns_witness :
  ∃ r,
    json_parse 40 (PStr "[1, 2]") = Ret r
    ∧ (r = Fail
       ∨ ∃ children consumed rest,
           r = (PList (PStr "value" :: children), PStr rest)
           ∧ "[1, 2]" = consumed +:+ rest).
Proof. apply json_parse_returns. vm_compute. lia. Defined.

(** ** What the memo table holds *)

(** X19. The table of [memo] holds nothing but results of [parse_atom]:
    after a call of the memoized [parse_atom] on a [str], started with
    the empty table of a new [parse] or with a table that calls have
    filled, each entry is the result that [parse_atom] without [@memo]
    returns for the arguments of its key. *)
Theorem memo_table_holds_results `{Builtins} (grammar : Grammar)
    (tokenizer : string) (fuel : nat) (atom : pyval) (text : string)
    (cache cache' : Cache) (o : outcome ParseResult) :
  consistent grammar tokenizer cache →
  parse_atom grammar tokenizer fuel [atom; PStr text] cache = (o, cache') →
  ∀ args r,
    cache' !! args = Some r →
    ∃ fuel',
      (parse_atom_with grammar tokenizer undecorated fuel' args ∅).1 = Ret r.
Proof.
  intros Hc Hp args r Hr.
  destruct (sound_memo grammar tokenizer fuel atom (PStr text) cache o cache')
    as [Hc' _]; [done..|].
  by apply Hc'.
Qed.

Lemma memo_table_holds_results_witness :
  ∃ fuel',
    (parse_atom_with
       (<[ "E" := Alternatives [["[0-9]"; "[+]"; "E"]; ["[0-9]"]] ]>
          {[ " " := Pattern "\s*" ]})
       "\s*(%s)" undecorated fuel' [PStr "[+]"; PStr "+2"] ∅).1
    = Ret (PStr "+", PStr "2").
Proof.
  apply (memo_table_holds_results
           (<[ "E" := Alternatives [["[0-9]"; "[+]"; "E"]; ["[0-9]"]] ]>
              {[ " " := Pattern "\s*" ]})
           "\s*(%s)" 3 (PStr "E") "1+2" ∅
           (parse_atom
              (<[ "E" := Alternatives [["[0-9]"; "[+]"; "E"]; ["[0-9]"]] ]>
                 {[ " " := Pattern "\s*" ]})
              "\s*(%s)" 3 [PStr "E"; PStr "1+2"] ∅).2
           (parse_atom
              (<[ "E" := Alternatives [["[0-9]"; "[+]"; "E"]; ["[0-9]"]] ]>
                 {[ " " := Pattern "\s*" ]})
              "\s*(%s)" 3 [PStr "E"; PStr "1+2"] ∅).1).
  - apply consistent_empty.
  - by destruct (parse_atom _ _ 3 [PStr "E"; PStr "1+2"] ∅).
  - vm_compute. reflexivity.
Defined.
